(** * HideCustomGIFs: the exact-match GIF blocking engine

    A shallow embedding of [src/plugins/hideCustomGIFs/index.tsx] and the
    properties of its blocking engine.

    - JavaScript strings are [string]s; every [ascii] stands for the UTF-16
      code unit of the same number (the Latin-1 range).
    - Fields the plugin reads from [any]-typed records are [value]s.
    - The host's [URL] class and [decodeURI] are an interface ([UrlApi]);
      the plugin's functions are written once, over any implementation.
      [RefUrl] is a reference implementation for plain http(s) URLs on which
      closed examples are evaluated.
    - The two module-level sets, the pattern list of the settings store and
      the logger are the fields of [State]; methods that read or write them
      live in the monad [M], which also carries thrown exceptions. *)

From Stdlib Require Import Ascii NArith.
From stdpp Require Import base option list strings gmap.

(* ===================================================================== *)
(** ** JavaScript strings *)
(* ===================================================================== *)

Module JsString.

Definition code (c : ascii) : N := N_of_ascii c.

(** [String.prototype.toLowerCase], one code unit at a time: A-Z and the
    Latin-1 capitals U+00C0..U+00DE (U+00D7, the multiplication sign, has
    no case). *)
Definition lower_unit (c : ascii) : ascii :=
  let n := code c in
  if ((65 <=? n) && (n <=? 90))%N
     || ((192 <=? n) && (n <=? 222) && negb (n =? 215))%N
  then ascii_of_N (n + 32) else c.

Fixpoint toLowerCase (s : string) : string :=
  match s with
  | EmptyString => EmptyString
  | String c s' => String (lower_unit c) (toLowerCase s')
  end.

(** The code units [String.prototype.trim] removes (WhiteSpace and
    LineTerminator) below U+0100: TAB, LF, VT, FF, CR, SP and NBSP. *)
Definition is_whitespace (c : ascii) : bool :=
  let n := code c in
  ((9 <=? n) && (n <=? 13))%N || (n =? 32)%N || (n =? 160)%N.

Fixpoint trimStart (s : string) : string :=
  match s with
  | EmptyString => EmptyString
  | String c s' => if is_whitespace c then trimStart s' else s
  end.

Fixpoint trimEnd (s : string) : string :=
  match s with
  | EmptyString => EmptyString
  | String c s' =>
      match trimEnd s' with
      | EmptyString => if is_whitespace c then EmptyString
                       else String c EmptyString
      | r => String c r
      end
  end.

Definition trim (s : string) : string := trimEnd (trimStart s).

(** [s.startsWith(p)] and [s.endsWith(p)]. *)
Fixpoint startsWith (s p : string) {struct p} : bool :=
  match p, s with
  | EmptyString, _ => true
  | String _ _, EmptyString => false
  | String a p', String b s' => bool_decide (a = b) && startsWith s' p'
  end.

Fixpoint endsWith (s p : string) : bool :=
  bool_decide (s = p)
  || match s with
     | EmptyString => false
     | String _ s' => endsWith s' p
     end.

(** [s.slice(0, -1)]: all but the last code unit. *)
Fixpoint slice_0_m1 (s : string) : string :=
  match s with
  | EmptyString => EmptyString
  | String _ EmptyString => EmptyString
  | String c s' => String c (slice_0_m1 s')
  end.

(** [s.includes(c)] for a single code unit. *)
Fixpoint has_unit (c : ascii) (s : string) : bool :=
  match s with
  | EmptyString => false
  | String b s' => bool_decide (b = c) || has_unit c s'
  end.

(** Every code unit of [s] satisfies [p]. *)
Fixpoint all_units (p : ascii → bool) (s : string) : bool :=
  match s with
  | EmptyString => true
  | String c s' => p c && all_units p s'
  end.

(** [/\.gif(?:\?|$)/i.test(s)]: at some index the four units [.gif]
    (letters in either case) are followed by [?] or by the end of the
    input. Without the [u] flag only G, I and F fold onto g, i and f, and
    they are the only units [lower_unit] sends there. *)
Definition gif_here (s : string) : bool :=
  match s with
  | String d (String g (String i (String f rest))) =>
      bool_decide (d = "."%char)
      && bool_decide (lower_unit g = "g"%char)
      && bool_decide (lower_unit i = "i"%char)
      && bool_decide (lower_unit f = "f"%char)
      && match rest with
         | EmptyString => true
         | String q _ => bool_decide (q = "?"%char)
         end
  | _ => false
  end.

Fixpoint test_gif_regex (s : string) : bool :=
  gif_here s
  || match s with
     | EmptyString => false
     | String _ s' => test_gif_regex s'
     end.

(** [s.replace(/\/?$/, "")]: the leftmost match of an optional slash
    followed by the end of the input is removed, that is, one trailing
    slash when there is one. *)
Fixpoint replace_slash_at_end (s : string) : string :=
  match s with
  | EmptyString => EmptyString
  | String c s' =>
      if bool_decide (c = "/"%char) && bool_decide (s' = EmptyString)
      then EmptyString
      else String c (replace_slash_at_end s')
  end.

End JsString.
Import JsString.

(* ===================================================================== *)
(** ** Dynamically typed values *)
(* ===================================================================== *)

(** What a field of a message, embed or attachment record, or an entry of the
    stored pattern array, can hold: [undefined], [null], a string, or any
    other JSON value (number, boolean, array, plain object), of which the
    plugin only ever observes the truthiness and the [ToString] image. Such
    a value has no [trim] or [toLowerCase] method. *)
Inductive value : Type :=
  | VUndefined
  | VNull
  | VStr (s : string)
  | VOther (truthy : bool) (str : string).

Global Instance value_eq_dec : EqDecision value.
Proof. solve_decision. Defined.

Definition truthy (v : value) : bool :=
  match v with
  | VUndefined | VNull => false
  | VStr s => negb (bool_decide (s = ""))
  | VOther b _ => b
  end.

Definition ToString (v : value) : string :=
  match v with
  | VUndefined => "undefined"
  | VNull => "null"
  | VStr s => s
  | VOther _ t => t
  end.

(** [a || b] *)
Definition or_else (a b : value) : value := if truthy a then a else b.

(** [a === b] against a string constant. *)
Definition strict_eq_str (v : value) (s : string) : bool :=
  match v with
  | VStr t => bool_decide (t = s)
  | _ => false
  end.

(** SameValueZero, as used by [Array.prototype.includes]. Two non-string
    values are compared by identity, which the embedding does not track; the
    plugin never reaches that case, the candidates being strings. *)
Definition same_value_zero (a b : value) : bool :=
  match a, b with
  | VUndefined, VUndefined => true
  | VNull, VNull => true
  | VStr s, VStr t => bool_decide (s = t)
  | _, _ => false
  end.

Definition includes (l : list value) (x : value) : bool :=
  existsb (fun c => same_value_zero c x) l.

(* ===================================================================== *)
(** ** Exceptions *)
(* ===================================================================== *)

Inductive result (A : Type) : Type :=
  | Ok (a : A)
  | Throw (e : string).
Arguments Ok {A} a.
Arguments Throw {A} e.

Definition rbind {A B} (r : result A) (k : A → result B) : result B :=
  match r with
  | Ok a => k a
  | Throw e => Throw e
  end.

Fixpoint rmap {A B} (f : A → result B) (l : list A) : result (list B) :=
  match l with
  | [] => Ok []
  | x :: l' =>
      rbind (f x) (fun y => rbind (rmap f l') (fun ys => Ok (y :: ys)))
  end.

(** [v.trim()] *)
Definition call_trim (v : value) : result value :=
  match v with
  | VStr s => Ok (VStr (trim s))
  | _ => Throw "TypeError"
  end.

(** [v?.toLowerCase()] *)
Definition opt_call_toLowerCase (v : value) : result value :=
  match v with
  | VUndefined | VNull => Ok VUndefined
  | VStr s => Ok (VStr (toLowerCase s))
  | VOther _ _ => Throw "TypeError"
  end.

(* ===================================================================== *)
(** ** The host's URL interface *)
(* ===================================================================== *)

(** The members of the WHATWG [URL] class the plugin calls, and [decodeURI].
    [URL_new] and [decodeURI] answer [None] where the host throws. *)
Class UrlApi : Type := {
  url : Type;
  URL_new : string → option url;
  pathname : url → string;
  set_pathname : string → url → url;
  searchParams_get : string → url → option string;
  searchParams_delete : string → url → url;
  set_hash : string → url → url;
  host : url → string;
  set_host : string → url → url;
  toString : url → string;
  decodeURI : string → option string
}.

(* ===================================================================== *)
(** ** isGifUrl, normalize, equalsAnyUrl *)
(* ===================================================================== *)

Section Matching.
Context {api : UrlApi}.

(** [isGifUrl] (lines 22-30). The two tests on the parsed URL return
    early; every other path, a parse failure included, ends in the
    regular-expression test of the argument. *)
Definition isGifUrl (u : value) : bool :=
  if negb (truthy u) then false
  else
    match URL_new (ToString u) with
    | Some p =>
        if endsWith (toLowerCase (pathname p)) ".gif" then true
        else if bool_decide (searchParams_get "animated" p = Some "true")
        then true
        else test_gif_regex (ToString u)
    | None => test_gif_regex (ToString u)
    end.

Definition tracking_params : list string :=
  ["utm_source"; "utm_medium"; "utm_campaign"; "utm_content"; "utm_term"].

(** The body of the [try] of [normalize] once [new URL(u)] has returned
    (lines 36-48). *)
Definition normalize_parsed (parsed : url) : string :=
  let parsed :=
    fold_left (fun p k => searchParams_delete k p) tracking_params parsed in
  let parsed := set_hash "" parsed in
  let parsed :=
    if negb (bool_decide (pathname parsed = "/"))
       && endsWith (pathname parsed) "/"
    then set_pathname (slice_0_m1 (pathname parsed)) parsed
    else parsed in
  let parsed := set_host (toLowerCase (host parsed)) parsed in
  toString parsed.

(** The inner [normalize] of [equalsAnyUrl] (lines 33-52). *)
Definition normalize (u : value) : value :=
  match URL_new (ToString u) with
  | Some parsed => VStr (normalize_parsed parsed)
  | None =>
      match decodeURI (ToString u) with
      | Some d => VStr (replace_slash_at_end d)
      | None => u
      end
  end.

(** [equalsAnyUrl] (lines 32-57). *)
Definition equalsAnyUrl (u : value) (urls : list value) : result bool :=
  let target := normalize u in
  rbind (rmap call_trim urls) (fun trimmed =>
    let candidates := map normalize (filter (fun c => truthy c) trimmed) in
    Ok (includes candidates target)).

(** The loop of [_addUrlsToBlocklistAndRefresh] (lines 274-277), the
    specification's [mergeUrls]. *)
Fixpoint mergeUrls (merged : list value) (urls : list string)
  : result (list value) :=
  match urls with
  | [] => Ok merged
  | u :: rest =>
      rbind (equalsAnyUrl (VStr u) merged) (fun present =>
        mergeUrls (if present then merged else merged ++ [VStr u]) rest)
  end.

End Matching.

(* ===================================================================== *)
(** ** Records and state *)
(* ===================================================================== *)

(** [embed.image] and [embed.thumbnail]. *)
Record media : Type := { media_url : value }.

Record embed : Type := {
  embed_type : value;
  embed_url : value;
  embed_image : option media;
  embed_thumbnail : option media
}.

Record attachment : Type := {
  att_url : value;
  att_proxy_url : value;
  att_content_type : value;
  att_message_id : option string
}.

Record message : Type := { message_id : option string }.

(** The argument of [_filterAttachments]: anything; [Array.isArray] tells
    the two cases apart. An element of the array may be nullish. *)
Inductive attachments_arg : Type :=
  | NotArray (v : value)
  | IsArray (arr : list (option attachment)).

(** [o?.f] on a possibly absent record. *)
Definition opt_field {R} (f : R → value) (o : option R) : value :=
  match o with
  | Some r => f r
  | None => VUndefined
  end.

(** [message?.id], [att?.message_id] *)
Definition opt_id {R} (f : R → option string) (o : option R) : option string :=
  o ≫= f.

(** Truthiness of an id: present and not the empty string. *)
Definition id_truthy (i : option string) : bool :=
  match i with
  | Some s => negb (bool_decide (s = ""))
  | None => false
  end.

(** The module-level sets [blockedMessageIds] and
    [temporarilyUnblockedMessageIds] (lines 18-19), [settings.store.patterns]
    and what [logger.error] has written. *)
Record State : Type := {
  blockedMessageIds : gset string;
  temporarilyUnblockedMessageIds : gset string;
  patterns : list value;
  logged : list string
}.

(** [set.has(id)] for an id that may be [undefined]; the sets hold strings. *)
Definition set_has (s : gset string) (i : option string) : bool :=
  match i with
  | Some x => bool_decide (x ∈ s)
  | None => false
  end.

(** Computations over the state that may throw. A thrown exception keeps
    the state changes made before it. *)
Definition M (A : Type) : Type := State → result A * State.

Definition ret {A} (a : A) : M A := fun s => (Ok a, s).

Definition bind {A B} (m : M A) (k : A → M B) : M B :=
  fun s =>
    match m s with
    | (Ok a, s') => k a s'
    | (Throw e, s') => (Throw e, s')
    end.

Definition lift {A} (r : result A) : M A := fun s => (r, s).

Definition gets {A} (f : State → A) : M A := fun s => (Ok (f s), s).

Definition modify (f : State → State) : M unit := fun s => (Ok tt, f s).

(** [try { m } catch (e) { h e }] *)
Definition try_catch {A} (m : M A) (h : string → M A) : M A :=
  fun s =>
    match m s with
    | (Ok a, s') => (Ok a, s')
    | (Throw e, s') => h e s'
    end.

Notation "'let!' x ':=' m 'in' k" := (bind m (fun x => k))
  (at level 10, x name, m at level 100, k at level 200).
Notation "'do!' m 'then' k" := (bind m (fun _ => k))
  (at level 10, m at level 100, k at level 200).

Fixpoint filterM {A} (f : A → M bool) (l : list A) : M (list A) :=
  match l with
  | [] => ret []
  | x :: l' =>
      let! keep := f x in
      let! out := filterM f l' in
      ret (if keep then x :: out else out)
  end.

Definition logger_error (msg : string) : M unit :=
  modify (fun s =>
    {| blockedMessageIds := blockedMessageIds s;
       temporarilyUnblockedMessageIds := temporarilyUnblockedMessageIds s;
       patterns := patterns s;
       logged := logged s ++ [msg] |}).

Definition add_blocked (x : string) (s : State) : State :=
  {| blockedMessageIds := {[x]} ∪ blockedMessageIds s;
     temporarilyUnblockedMessageIds := temporarilyUnblockedMessageIds s;
     patterns := patterns s;
     logged := logged s |}.

Definition set_unblocked (u : gset string) (s : State) : State :=
  {| blockedMessageIds := blockedMessageIds s;
     temporarilyUnblockedMessageIds := u;
     patterns := patterns s;
     logged := logged s |}.

Definition set_patterns (p : list value) (s : State) : State :=
  {| blockedMessageIds := blockedMessageIds s;
     temporarilyUnblockedMessageIds := temporarilyUnblockedMessageIds s;
     patterns := p;
     logged := logged s |}.

(* ===================================================================== *)
(** ** The plugin's methods *)
(* ===================================================================== *)

Section Engine.
Context {api : UrlApi}.

(** [_markBlocked] (lines 156-158). *)
Definition _markBlocked (messageId : option string) : M unit :=
  match messageId with
  | Some x => if id_truthy messageId then modify (add_blocked x) else ret tt
  | None => ret tt
  end.

(** [_shouldBlockUrl] (lines 160-169). *)
Definition _shouldBlockUrl (u : value) : M bool :=
  if negb (truthy u) then ret false
  else if negb (isGifUrl u) then ret false
  else
    try_catch
      (let! pats := gets patterns in lift (equalsAnyUrl u pats))
      (fun e => do! logger_error "Error in _shouldBlockUrl" then ret false).

(** The [try] block of [_shouldBlockEmbed] (lines 173-182). *)
Definition shouldBlockEmbed_try (e : option embed) (m : option message)
  : M bool :=
  let! unblocked := gets (fun s =>
    set_has (temporarilyUnblockedMessageIds s) (opt_id message_id m)) in
  if unblocked then ret false
  else
    let u :=
      or_else (opt_field embed_url e)
        (or_else (opt_field media_url (e ≫= embed_image))
                 (opt_field media_url (e ≫= embed_thumbnail))) in
    let type := opt_field embed_type e in
    let isGifLike := strict_eq_str type "gifv" || isGifUrl u in
    if negb isGifLike then ret false
    else
      let! shouldBlock :=
        (if strict_eq_str type "gifv"
         then (if truthy u
               then let! pats := gets patterns in
                    lift (equalsAnyUrl u pats)
               else ret false)
         else _shouldBlockUrl u) in
      do! (if shouldBlock then _markBlocked (opt_id message_id m)
           else ret tt)
      then ret shouldBlock.

(** [_shouldBlockEmbed] (lines 171-187). *)
Definition _shouldBlockEmbed (e : option embed) (m : option message)
  : M bool :=
  try_catch (shouldBlockEmbed_try e m)
    (fun err =>
       do! logger_error "Error in _shouldBlockEmbed" then ret false).

(** The callback of [arr.filter] in [_filterAttachments]
    (lines 192-201). *)
Definition keep_attachment (att : option attachment) : M bool :=
  let! unblocked := gets (fun s =>
    id_truthy (opt_id att_message_id att)
    && set_has (temporarilyUnblockedMessageIds s)
               (opt_id att_message_id att)) in
  if unblocked then ret true
  else
    let u := or_else (opt_field att_url att) (opt_field att_proxy_url att) in
    let type := opt_field att_content_type att in
    let! lowered := lift (opt_call_toLowerCase type) in
    let isGif := strict_eq_str lowered "image/gif" || isGifUrl u in
    if negb isGif then ret true
    else
      let! shouldBlock := _shouldBlockUrl u in
      do! (if shouldBlock then _markBlocked (opt_id att_message_id att)
           else ret tt)
      then ret (negb shouldBlock).

(** The [try] block of [_filterAttachments] (lines 191-202). *)
Definition filterAttachments_try (arr : attachments_arg)
  : M attachments_arg :=
  match arr with
  | NotArray _ => ret arr
  | IsArray l => let! out := filterM keep_attachment l in ret (IsArray out)
  end.

(** [_filterAttachments] (lines 189-207). *)
Definition _filterAttachments (arr : attachments_arg) : M attachments_arg :=
  try_catch (filterAttachments_try arr)
    (fun err =>
       do! logger_error "Error in _filterAttachments" then ret arr).

(** [_addUrlsToBlocklistAndRefresh] (lines 272-280). The redraw request
    is wrapped in its own [try] and touches nothing modelled here. *)
Definition _addUrlsToBlocklistAndRefresh (urls : list string) : M unit :=
  let! current := gets patterns in
  let! merged := lift (mergeUrls current urls) in
  modify (set_patterns merged).

(** [_toggleTemporaryUnblock] (lines 282-286). *)
Definition _toggleTemporaryUnblock (id : string) (shouldUnblock : bool)
  : M unit :=
  modify (fun s =>
    set_unblocked
      (if shouldUnblock then {[id]} ∪ temporarilyUnblockedMessageIds s
       else temporarilyUnblockedMessageIds s ∖ {[id]}) s).

End Engine.

(* ===================================================================== *)
(** ** A session of the engine *)
(* ===================================================================== *)

(** What the host and the user can make the engine do: the two render
    patches, the three popover actions, and the three edits of the settings
    panel ([setAt], [add], [remove], lines 69-81). *)
Inductive op : Type :=
  | ClassifyEmbed (e : option embed) (m : option message)
  | FilterAttachments (arr : attachments_arg)
  | Reveal (id : string)
  | HideAgain (id : string)
  | BlockThese (urls : list string)
  | EditSetAt (i : nat) (val : string)
  | EditAdd
  | EditRemove (i : nat).

Section Session.
Context {api : UrlApi}.

(** One operation. A row of the settings panel exists for every index
    [setAt] and [remove] are called with; [splice] past the end removes
    nothing. An exception of [BlockThese] ends the click handler and
    leaves the state it was thrown in. *)
Inductive step : State → op → State → Prop :=
  | step_classify e m s :
      step s (ClassifyEmbed e m) (_shouldBlockEmbed e m s).2
  | step_filter arr s :
      step s (FilterAttachments arr) (_filterAttachments arr s).2
  | step_reveal id s :
      step s (Reveal id) (_toggleTemporaryUnblock id true s).2
  | step_hide id s :
      step s (HideAgain id) (_toggleTemporaryUnblock id false s).2
  | step_block urls s :
      step s (BlockThese urls) (_addUrlsToBlocklistAndRefresh urls s).2
  | step_setAt i val s :
      i < length (patterns s) →
      step s (EditSetAt i val)
           (set_patterns (<[i := VStr val]> (patterns s)) s)
  | step_add s :
      step s EditAdd (set_patterns (patterns s ++ [VStr ""]) s)
  | step_remove i s :
      step s (EditRemove i) (set_patterns (delete i (patterns s)) s).

Inductive steps : State → list op → State → Prop :=
  | steps_nil s : steps s [] s
  | steps_cons s o s' os s'' :
      step s o s' → steps s' os s'' → steps s (o :: os) s''.

End Session.

(* ===================================================================== *)
(** ** A reference implementation of the URL interface *)
(* ===================================================================== *)

(** The WHATWG URL parser and [decodeURI], for the URLs the examples use:
    [http(s)://host/path?query#fragment] with a host of letters, digits,
    hyphens and dots ending in an alphabetic label, no credentials and no
    port, and a path and a query of characters the parser copies unchanged.
    [parse] tells a string the standard rejects ([Invalid]) from one that
    lies outside this range ([Unsupported]); [URL_new] answers [None] for
    both. *)
Module Ref.

Record url : Type := {
  scheme : string;
  hostname : string;
  path : string;
  query : option string;
  fragment : option string
}.

Inductive outcome : Type :=
  | Parsed (u : url)
  | Invalid
  | Unsupported.

Definition in_range (lo hi : N) (c : ascii) : bool :=
  ((lo <=? code c) && (code c <=? hi))%N.

Definition is_alpha (c : ascii) : bool :=
  in_range 65 90 c || in_range 97 122 c.

Definition is_digit (c : ascii) : bool := in_range 48 57 c.

Definition is_alnum (c : ascii) : bool := is_alpha c || is_digit c.

Definition one_of (set : string) (c : ascii) : bool := has_unit c set.

(** The longest prefix of units satisfying [p], and the rest. *)
Fixpoint span (p : ascii → bool) (s : string) : string * string :=
  match s with
  | EmptyString => (EmptyString, EmptyString)
  | String c s' =>
      if p c then let '(a, b) := span p s' in (String c a, b)
      else (EmptyString, s)
  end.

Fixpoint drop_while (p : ascii → bool) (s : string) : string :=
  match s with
  | EmptyString => EmptyString
  | String c s' => if p c then drop_while p s' else s
  end.

Fixpoint keep_units (p : ascii → bool) (s : string) : string :=
  match s with
  | EmptyString => EmptyString
  | String c s' => if p c then String c (keep_units p s') else keep_units p s'
  end.

Fixpoint drop_end (p : ascii → bool) (s : string) : string :=
  match s with
  | EmptyString => EmptyString
  | String c s' =>
      match drop_end p s' with
      | EmptyString => if p c then EmptyString else String c EmptyString
      | r => String c r
      end
  end.

(** The pieces of [s] between occurrences of [sep]. *)
Fixpoint split_on (sep : ascii) (s : string) : list string :=
  match s with
  | EmptyString => [EmptyString]
  | String c s' =>
      if bool_decide (c = sep) then EmptyString :: split_on sep s'
      else match split_on sep s' with
           | [] => [String c EmptyString]
           | p :: ps => String c p :: ps
           end
  end.

Fixpoint join (sep : string) (l : list string) : string :=
  match l with
  | [] => EmptyString
  | [x] => x
  | x :: l' => x +:+ sep +:+ join sep l'
  end.

(** Step 1 of the parser: leading and trailing C0 controls and spaces
    go, then every TAB, LF and CR. *)
Definition c0_or_space (c : ascii) : bool := (code c <=? 32)%N.
Definition tab_or_newline (c : ascii) : bool :=
  (code c =? 9)%N || (code c =? 10)%N || (code c =? 13)%N.
Definition clean (s : string) : string :=
  keep_units (fun c => negb (tab_or_newline c))
             (drop_end c0_or_space (drop_while c0_or_space s)).

Definition scheme_unit (c : ascii) : bool := is_alnum c || one_of "+-." c.

Definition host_unit (c : ascii) : bool := is_alnum c || one_of "-." c.

Definition valid_host (h : string) : bool :=
  all_units host_unit h
  && forallb (fun l => negb (bool_decide (l = ""))
                       && negb (startsWith (toLowerCase l) "xn--"))
             (split_on "." h)
  && match last (split_on "." h) with
     | Some l => all_units is_alpha l
     | None => false
     end.

Definition path_unit (c : ascii) : bool := is_alnum c || one_of "-._~/" c.

Definition plain_path (p : string) : bool :=
  all_units path_unit p
  && forallb (fun seg => negb (bool_decide (seg = "."))
                         && negb (bool_decide (seg = "..")))
             (split_on "/" p).

Definition query_unit (c : ascii) : bool := is_alnum c || one_of "-._*=&" c.

Definition fragment_unit (c : ascii) : bool :=
  in_range 33 126 c && negb (one_of "<>`" c) && negb (code c =? 34)%N.

(** What follows the path: a query up to [#] when the rest starts with
    [?], then a fragment when what is left starts with [#]. *)
Definition parse_tail (rest : string) : option string * option string :=
  let '(q, rest) :=
    match rest with
    | String c r =>
        if bool_decide (c = "?"%char)
        then let '(q, r') := span (fun c => negb (one_of "#" c)) r in
             (Some q, r')
        else (None, rest)
    | EmptyString => (None, rest)
    end in
  let f :=
    match rest with
    | String c r => if bool_decide (c = "#"%char) then Some r else None
    | EmptyString => None
    end in
  (q, f).

(** The parser after the colon of a special scheme: any run of slashes and
    backslashes, the host up to the first of [/\?#], the path up to the
    first of [?#], query and fragment. *)
Definition parse_special (sch rest : string) : outcome :=
  let rest := drop_while (one_of "/\") rest in
  let '(auth, rest) := span (fun c => negb (one_of "/\?#" c)) rest in
  if bool_decide (auth = "") then Invalid
  else if negb (valid_host auth) then Unsupported
  else
    let '(pth, rest) := span (fun c => negb (one_of "?#" c)) rest in
    if negb (plain_path pth) then Unsupported
    else
      let '(q, f) := parse_tail rest in
      if negb (all_units query_unit (default "" q)) then Unsupported
      else if negb (all_units fragment_unit (default "" f)) then Unsupported
      else
        Parsed {| scheme := sch;
                  hostname := toLowerCase auth;
                  path := if bool_decide (pth = "") then "/" else pth;
                  query := q;
                  fragment := f |}.

(** The parser, without a base URL: the input is cleaned; the scheme is a
    letter followed by scheme units up to a colon, and without one the input
    is rejected. *)
Definition parse (input : string) : outcome :=
  let s := clean input in
  let '(sch, rest) := span scheme_unit s in
  match sch, rest with
  | String c0 _, String c rest =>
      if negb (bool_decide (c = ":"%char)) then Invalid
      else if negb (is_alpha c0) then Invalid
      else
        let sch := toLowerCase sch in
        if negb (bool_decide (sch = "http") || bool_decide (sch = "https"))
        then Unsupported
        else parse_special sch rest
  | _, _ => Invalid
  end.

Definition URL_new (s : string) : option url :=
  match parse s with
  | Parsed u => Some u
  | _ => None
  end.

(** The URL serializer ([href], [toString]). *)
Definition toString (u : url) : string :=
  scheme u +:+ "://" +:+ hostname u +:+ path u
  +:+ match query u with Some q => "?" +:+ q | None => "" end
  +:+ match fragment u with Some f => "#" +:+ f | None => "" end.

(** The [application/x-www-form-urlencoded] parser and serializer, on
    bytes that need no decoding or encoding. *)
Definition parse_pair (seq : string) : string * string :=
  let '(name, rest) := span (fun c => negb (bool_decide (c = "="%char))) seq in
  match rest with
  | String _ v => (name, v)
  | EmptyString => (name, EmptyString)
  end.

Definition parse_qs (q : string) : list (string * string) :=
  map parse_pair
      (List.filter (fun seq => negb (bool_decide (seq = ""))) (split_on "&" q)).

Definition serialize_qs (l : list (string * string)) : string :=
  join "&" (map (fun '(n, v) => n +:+ "=" +:+ v) l).

Definition searchParams (u : url) : list (string * string) :=
  parse_qs (default "" (query u)).

Definition searchParams_get (k : string) (u : url) : option string :=
  snd <$> List.find (fun '(n, _) => bool_decide (n = k)) (searchParams u).

(** [searchParams.delete(k)]: the pairs named [k] go and the query is
    written back from the list; an empty list leaves no query. *)
Definition searchParams_delete (k : string) (u : url) : url :=
  let l := List.filter (fun '(n, _) => negb (bool_decide (n = k)))
                       (searchParams u) in
  {| scheme := scheme u; hostname := hostname u; path := path u;
     query := match l with [] => None | _ => Some (serialize_qs l) end;
     fragment := fragment u |}.

Definition set_hash (h : string) (u : url) : url :=
  {| scheme := scheme u; hostname := hostname u; path := path u;
     query := query u;
     fragment :=
       if bool_decide (h = "") then None
       else Some (match h with String "#" f => f | _ => h end) |}.

(** The [pathname] setter parses its argument from the start of a path; a
    plain path is stored as it is, with a leading slash. *)
Definition set_pathname (p : string) (u : url) : url :=
  let p := if startsWith p "/" then p else "/" +:+ p in
  if plain_path p
  then {| scheme := scheme u; hostname := hostname u; path := p;
          query := query u; fragment := fragment u |}
  else u.

(** The [host] setter leaves the URL alone when its argument is no host. *)
Definition set_host (h : string) (u : url) : url :=
  if valid_host h
  then {| scheme := scheme u; hostname := toLowerCase h; path := path u;
          query := query u; fragment := fragment u |}
  else u.

Definition hex_value (c : ascii) : option N :=
  if is_digit c then Some (code c - 48)%N
  else if in_range 65 70 c then Some (code c - 55)%N
  else if in_range 97 102 c then Some (code c - 87)%N
  else None.

(** [decodeURI]: an escape of a unit below U+0080 is replaced by that
    unit unless it is one of the reserved [;/?:@&=+$,#]; a [%] without two
    hexadecimal digits throws. Escapes of UTF-8 sequences are outside this
    implementation and answer [None] too. *)
Fixpoint decodeURI (s : string) : option string :=
  match s with
  | EmptyString => Some EmptyString
  | String "%" (String h (String l rest as tl)) =>
      match hex_value h, hex_value l with
      | Some a, Some b =>
          let n := (16 * a + b)%N in
          if (128 <=? n)%N then None
          else
            let c := ascii_of_N n in
            r ← decodeURI rest;
            Some (if one_of ";/?:@&=+$,#" c
                  then String "%" (String h (String l r))
                  else String c r)
      | _, _ => None
      end
  | String "%" _ => None
  | String c rest => String c <$> decodeURI rest
  end.

(** *** Records the parser produces *)

(** [s] is empty or starts with a unit that does not satisfy [p]: [span p]
    stops at once. *)
Definition stops_at (p : ascii → bool) (s : string) : bool :=
  match s with
  | EmptyString => true
  | String c _ => negb (p c)
  end.

(** A unit the first step of the parser keeps. *)
Definition visible (c : ascii) : bool := negb (c0_or_space c).

(** A printable ASCII unit other than the space. *)
Definition printable (c : ascii) : bool := in_range 33 126 c.

(** The invariant of a parsed record. *)
Definition wf (u : url) : bool :=
  (bool_decide (scheme u = "http") || bool_decide (scheme u = "https"))
  && valid_host (hostname u)
  && bool_decide (toLowerCase (hostname u) = hostname u)
  && plain_path (path u)
  && startsWith (path u) "/"
  && all_units query_unit (default "" (query u))
  && all_units fragment_unit (default "" (fragment u)).

(** A list of pairs as [parse_qs] produces them from query units: no [=]
    in a name, no [&] anywhere. *)
Definition pair_ok (nv : string * string) : bool :=
  all_units query_unit nv.1 && all_units query_unit nv.2
  && negb (has_unit "=" nv.1) && negb (has_unit "&" nv.1)
  && negb (has_unit "&" nv.2).

(** The query written back from a list of pairs. *)
Definition query_of (l : list (string * string)) : option string :=
  match l with
  | [] => None
  | _ => Some (serialize_qs l)
  end.

Definition without (k : string) (l : list (string * string))
  : list (string * string) :=
  List.filter (fun '(n, _) => negb (bool_decide (n = k))) l.

Definition with_query (q : option string) (u : url) : url :=
  {| scheme := scheme u; hostname := hostname u; path := path u;
     query := q; fragment := fragment u |}.

Definition with_path (p : string) (u : url) : url :=
  {| scheme := scheme u; hostname := hostname u; path := p;
     query := query u; fragment := fragment u |}.

(** The pairs left when the five tracking parameters are deleted. *)
Definition stripped (l : list (string * string)) : list (string * string) :=
  fold_left (fun l k => without k l) tracking_params l.

(** The path without its trailing slash, the root path apart. *)
Definition trimmed_path (p : string) : string :=
  if negb (bool_decide (p = "/")) && endsWith p "/" then slice_0_m1 p else p.

(** The record [normalize] serializes. *)
Definition normal_form (u : url) : url :=
  {| scheme := scheme u;
     hostname := hostname u;
     path := trimmed_path (path u);
     query := query_of (stripped (searchParams u));
     fragment := None |}.

End Ref.

Definition RefUrl : UrlApi := {|
  url := Ref.url;
  URL_new := Ref.URL_new;
  pathname := Ref.path;
  set_pathname := Ref.set_pathname;
  searchParams_get := Ref.searchParams_get;
  searchParams_delete := Ref.searchParams_delete;
  set_hash := Ref.set_hash;
  host := Ref.hostname;
  set_host := Ref.set_host;
  toString := Ref.toString;
  decodeURI := Ref.decodeURI
|}.

(* ===================================================================== *)
(** ** Vocabulary of the properties *)
(* ===================================================================== *)

(** Two facts about every host: a string without a colon has no scheme, so
    [new URL] throws on it; [decodeURI] returns a string without a percent
    sign as it is. *)
Class UrlLaws (api : UrlApi) : Prop := {
  URL_new_no_colon : ∀ s, has_unit ":" s = false → URL_new s = None;
  decodeURI_no_percent : ∀ s, has_unit "%" s = false → decodeURI s = Some s
}.

(** What [/\.gif(?:\?|$)/i] matches: somewhere in [s] stand four units that
    lowercase to [.gif], followed by the end of [s] or by a question mark. *)
Definition matches_gif_regex (s : string) : Prop :=
  ∃ pre ext post,
    s = pre +:+ ext +:+ post
    ∧ toLowerCase ext = ".gif"
    ∧ (post = "" ∨ ∃ r, post = String "?" r).

(** [padded l l']: [l'] is [l] with whitespace put around some of its
    strings and empty strings inserted. *)
Inductive padded : list value → list value → Prop :=
  | padded_nil : padded [] []
  | padded_same c l l' : padded l l' → padded (c :: l) (c :: l')
  | padded_ws a b s l l' :
      all_units is_whitespace a = true →
      all_units is_whitespace b = true →
      padded l l' →
      padded (VStr s :: l) (VStr (a +:+ s +:+ b) :: l')
  | padded_empty l l' : padded l l' → padded l (VStr "" :: l').

(** The URL with the five tracking parameters and the fragment removed:
    the first two steps of [normalize]. *)
Definition cleared `{api : UrlApi} (r : url) : url :=
  set_hash "" (fold_left (fun p k => searchParams_delete k p) tracking_params r).

(** The last two steps of [normalize] and the serialization. *)
Definition finished `{api : UrlApi} (r : url) : string :=
  let r :=
    if negb (bool_decide (pathname r = "/")) && endsWith (pathname r) "/"
    then set_pathname (slice_0_m1 (pathname r)) r
    else r in
  toString (set_host (toLowerCase (host r)) r).

(** The normalized candidates [equalsAnyUrl] compares the target with
    (line 55). *)
Definition candidates `{api : UrlApi} (urls : list value)
  : result (list value) :=
  rbind (rmap call_trim urls) (fun trimmed =>
    Ok (map normalize (filter (fun c => truthy c) trimmed))).

(** The stored pattern [c] matches the URL [u]: what [equalsAnyUrl] asks of
    each entry of a list of strings. *)
Definition matches `{api : UrlApi} (u c : string) : bool :=
  negb (bool_decide (trim c = ""))
  && bool_decide (normalize (VStr (trim c)) = normalize (VStr u)).

(** [r'] is [r] with one more slash at the end of its path, tracking
    parameters and fragment apart: the path of [r] is not empty and does
    not end in a slash, the path of [r'] is that path and a slash, and the
    pathname setter, given the path of [r], turns [r'] into [r]. The last
    says that the two differ in the path only and that the setter takes
    effect on [r']. *)
Definition slash_variant `{api : UrlApi} (r r' : url) : Prop :=
  pathname (cleared r) ≠ ""
  ∧ endsWith (pathname (cleared r)) "/" = false
  ∧ pathname (cleared r') = pathname (cleared r) +:+ "/"
  ∧ set_pathname (pathname (cleared r)) (cleared r') = cleared r.

(** [r] and [r'] are the same URL once the five tracking parameters are
    deleted from both. *)
Definition tracking_variant `{api : UrlApi} (r r' : url) : Prop :=
  fold_left (fun p k => searchParams_delete k p) tracking_params r
  = fold_left (fun p k => searchParams_delete k p) tracking_params r'.

(** A computation moves the state along the relation [P] only, whether it
    returns or throws. *)
Definition preserves {A} (P : State → State → Prop) (m : M A) : Prop :=
  ∀ s, P s (m s).2.

(** The relations on states the properties speak of. *)
Definition blocked_grows (s s' : State) : Prop :=
  blockedMessageIds s ⊆ blockedMessageIds s'.

Definition blocked_same (s s' : State) : Prop :=
  blockedMessageIds s' = blockedMessageIds s.

Definition settings_same (s s' : State) : Prop :=
  temporarilyUnblockedMessageIds s' = temporarilyUnblockedMessageIds s
  ∧ patterns s' = patterns s.

(* ===================================================================== *)
(** ** Sample data *)
(* ===================================================================== *)

(** The end-to-end example of the specification: a [gifv] embed whose URL
    is in the pattern list. *)
Definition tco_embed : embed :=
  {| embed_type := VStr "gifv";
     embed_url := VStr "https://t.co/x.gif";
     embed_image := None;
     embed_thumbnail := None |}.

Definition tco_state : State :=
  {| blockedMessageIds := ∅;
     temporarilyUnblockedMessageIds := ∅;
     patterns := [VStr "https://t.co/x.gif"];
     logged := [] |}.

Definition m1 : message := {| message_id := Some "m1" |}.

(** A GIF attachment whose URL is the one pattern of [xcom_state]. *)
Definition gif_attachment (id : option string) : attachment :=
  {| att_url := VStr "https://x.com/a.gif";
     att_proxy_url := VUndefined;
     att_content_type := VStr "image/gif";
     att_message_id := id |}.

Definition xcom_state (unblocked : gset string) : State :=
  {| blockedMessageIds := ∅;
     temporarilyUnblockedMessageIds := unblocked;
     patterns := [VStr "https://x.com/a.gif"];
     logged := [] |}.

(** A [gifv] embed without a [url] of its own, with an image. *)
Definition image_only_embed : embed :=
  {| embed_type := VStr "gifv";
     embed_url := VUndefined;
     embed_image := Some {| media_url := VStr "https://t.co/x.gif" |};
     embed_thumbnail := None |}.

(** An attachment whose [content_type] is the number 5, and a pattern list
    with a [null] entry. *)
Definition odd_attachment : attachment :=
  {| att_url := VStr "https://x.com/b.png";
     att_proxy_url := VUndefined;
     att_content_type := VOther true "5";
     att_message_id := Some "m2" |}.

Definition null_pattern_state : State :=
  {| blockedMessageIds := ∅;
     temporarilyUnblockedMessageIds := ∅;
     patterns := [VStr "https://t.co/x.gif"; VNull];
     logged := [] |}.

(* ===================================================================== *)
(** ** The popover button, the accessory and the settings editor *)
(* ===================================================================== *)

(** What [for (const x of v ?? [])] makes of [v]: nothing to visit when [v]
    is nullish; the elements of an array or of any other iterable, an
    element without fields, as a unit of a string is, counting as [None];
    a TypeError when [v] is not iterable, as a number or a plain object. *)
Inductive iterated (A : Type) : Type :=
  | Nullish
  | Elements (l : list (option A))
  | NotIterable.
Arguments Nullish {A}.
Arguments Elements {A} l.
Arguments NotIterable {A}.

Definition iterate {A} (v : iterated A) : result (list (option A)) :=
  match v with
  | Nullish => Ok []
  | Elements l => Ok l
  | NotIterable => Throw "TypeError"
  end.

(** The message [renderMessagePopoverButton] and
    [_collectGifUrlsFromMessage] read: [message.id], [message.attachments]
    and [message.embeds]. *)
Record rendered_message : Type := {
  rm_id : option string;
  rm_attachments : iterated attachment;
  rm_embeds : iterated embed
}.

(** [found.add(v)], the [Set] being the list of its elements in insertion
    order. Strings are compared by content; the identity of other values is
    not tracked (see [same_value_zero]), so what is said of duplicates below
    is said of messages whose URLs are strings. *)
Definition set_add (found : list value) (v : value) : list value :=
  if includes found v then found else found ++ [v].

(** A [for ... of] loop whose body adds to [found] and may throw: the
    elements found before a throw stay in the set. *)
Fixpoint for_of {A} (body : list value → A → result (list value))
    (found : list value) (l : list A) : list value * result unit :=
  match l with
  | [] => (found, Ok tt)
  | x :: l' =>
      match body found x with
      | Ok found' => for_of body found' l'
      | Throw e => (found, Throw e)
      end
  end.

(** [urls.some(f)] *)
Fixpoint array_some (f : value → result bool) (l : list value)
  : result bool :=
  match l with
  | [] => Ok false
  | x :: l' => rbind (f x) (fun b => if b then Ok true else array_some f l')
  end.

(** What a button does when clicked (lines 222, 232, 241). *)
Inductive action : Type :=
  | ToggleTemporaryUnblock (shouldUnblock : bool)
  | AddUrlsToBlocklistAndRefresh (urls : list value).

(** The button [renderMessagePopoverButton] returns; icon, message and
    channel are not modelled. *)
Record button : Type := {
  button_label : string;
  button_onClick : action
}.

(** [att?.url || att?.proxy_url] *)
Definition attachment_url (att : option attachment) : value :=
  or_else (opt_field att_url att) (opt_field att_proxy_url att).

(** [emb?.url || emb?.image?.url || emb?.thumbnail?.url] *)
Definition embed_resolved_url (e : option embed) : value :=
  or_else (opt_field embed_url e)
    (or_else (opt_field media_url (e ≫= embed_image))
             (opt_field media_url (e ≫= embed_thumbnail))).

Section Popover.
Context {api : UrlApi}.

(** The body of the loop over attachments (lines 250-253). *)
Definition scan_attachment (found : list value) (att : option attachment)
  : result (list value) :=
  let u := attachment_url att in
  let type := opt_field att_content_type att in
  rbind (opt_call_toLowerCase type) (fun lowered =>
    let isGif := strict_eq_str lowered "image/gif" || isGifUrl u in
    Ok (if isGif && truthy u then set_add found u else found)).

(** The body of the loop over embeds (lines 259-265). *)
Definition scan_embed (found : list value) (emb : option embed)
  : result (list value) :=
  let type := opt_field embed_type emb in
  if strict_eq_str type "gifv"
  then Ok (if truthy (opt_field embed_url emb)
           then set_add found (opt_field embed_url emb) else found)
  else
    let u := embed_resolved_url emb in
    Ok (if isGifUrl u && truthy u then set_add found u else found).

(** [_collectGifUrlsFromMessage] (lines 245-270). Each loop sits in its own
    [try] with an empty [catch]; reading a field of a nullish message
    throws inside it. *)
Definition _collectGifUrlsFromMessage (m : option rendered_message)
  : list value :=
  let found := [] in
  let found :=
    match m with
    | None => found
    | Some m =>
        match iterate (rm_attachments m) with
        | Ok l => (for_of scan_attachment found l).1
        | Throw _ => found
        end
    end in
  let found :=
    match m with
    | None => found
    | Some m =>
        match iterate (rm_embeds m) with
        | Ok l => (for_of scan_embed found l).1
        | Throw _ => found
        end
    end in
  found.

(** [renderMessagePopoverButton] (lines 209-243); [None] is [null]. Nothing
    here is wrapped in a [try]. *)
Definition renderMessagePopoverButton (m : option rendered_message)
  : M (option button) :=
  let urls := _collectGifUrlsFromMessage m in
  match urls with
  | [] => ret None
  | _ :: _ =>
      match m with
      | None => lift (Throw "TypeError")
      | Some msg =>
          let! isTemporarilyUnblocked := gets (fun s =>
            set_has (temporarilyUnblockedMessageIds s) (rm_id msg)) in
          let! pats := gets patterns in
          let! isBlockedByList :=
            lift (array_some (fun u => equalsAnyUrl u pats) urls) in
          if isBlockedByList && negb isTemporarilyUnblocked
          then ret (Some {| button_label := "Show GIF";
                            button_onClick := ToggleTemporaryUnblock true |})
          else if isBlockedByList && isTemporarilyUnblocked
          then ret (Some {| button_label := "Hide GIF";
                            button_onClick := ToggleTemporaryUnblock false |})
          else ret (Some {| button_label := "Hide GIFs";
                            button_onClick :=
                              AddUrlsToBlocklistAndRefresh urls |})
      end
  end.

End Popover.

(** An attachment that is not a GIF. *)
Definition png_attachment : attachment :=
  {| att_url := VStr "https://x.com/b.png";
     att_proxy_url := VUndefined;
     att_content_type := VStr "image/png";
     att_message_id := Some "m1" |}.

(** A message with two copies of [gif_attachment], another attachment
    and two embeds; a message whose one embed is [image_only_embed]. *)
Definition gif_message : rendered_message :=
  {| rm_id := Some "m1";
     rm_attachments :=
       Elements [Some (gif_attachment (Some "m1")); Some png_attachment;
                 Some (gif_attachment (Some "m1"))];
     rm_embeds := Elements [Some image_only_embed; Some tco_embed] |}.

Definition image_only_message : rendered_message :=
  {| rm_id := Some "m1";
     rm_attachments := Elements [];
     rm_embeds := Elements [Some image_only_embed] |}.

(** [renderMessageAccessory] (lines 146-154): whether the italic note is
    rendered, for a message with the given id, [settings.store
    .replacementMode] being [mode]. *)
Definition renderMessageAccessory (mode : value) (id : option string)
    (s : State) : bool :=
  if negb (set_has (blockedMessageIds s) id) then false
  else if negb (strict_eq_str mode "note") then false
  else true.

(** [add] and [remove] of the settings panel (lines 74-81); [splice] past
    the end removes nothing. *)
Definition editor_add (s : State) : State :=
  set_patterns (patterns s ++ [VStr ""]) s.

Definition editor_remove (i : nat) (s : State) : State :=
  set_patterns (delete i (patterns s)) s.

(** *** What the filters decide, as functions of the state *)

(** The message of the attachment is temporarily unblocked (line 193). *)
Definition bypassed (s : State) (i : option string) : bool :=
  id_truthy i && set_has (temporarilyUnblockedMessageIds s) i.

(** [equalsAnyUrl] where a thrown exception is caught and counts as no
    match. *)
Definition matched `{api : UrlApi} (u : value) (pats : list value) : bool :=
  match equalsAnyUrl u pats with
  | Ok b => b
  | Throw _ => false
  end.

(** The attachment the filter leaves out. *)
Definition drops `{api : UrlApi} (s : State) (att : option attachment)
  : bool :=
  negb (bypassed s (opt_id att_message_id att))
  && truthy (attachment_url att)
  && isGifUrl (attachment_url att)
  && matched (attachment_url att) (patterns s).

(** The attachment on which the filter throws: its [content_type] is
    neither a string nor nullish, and its message is not unblocked. *)
Definition faults (s : State) (att : option attachment) : bool :=
  negb (bypassed s (opt_id att_message_id att))
  && match opt_field att_content_type att with
     | VOther _ _ => true
     | _ => false
     end.

(** The id [_markBlocked] records for an id: itself when truthy. *)
Definition marked (i : option string) : gset string :=
  match i with
  | Some x => if id_truthy i then {[x]} else ∅
  | None => ∅
  end.

(** The ids of the attachments of [l] that are left out. *)
Fixpoint dropped_ids `{api : UrlApi} (s : State)
    (l : list (option attachment)) : gset string :=
  match l with
  | [] => ∅
  | att :: l' =>
      (if drops s att then marked (opt_id att_message_id att) else ∅)
      ∪ dropped_ids s l'
  end.

(** The ids the attachments of [l] carry. *)
Fixpoint carried_ids (l : list (option attachment)) : gset string :=
  match l with
  | [] => ∅
  | att :: l' => marked (opt_id att_message_id att) ∪ carried_ids l'
  end.

(** The embed [_shouldBlockEmbed] suppresses. *)
Definition embed_blocked `{api : UrlApi} (s : State) (e : option embed)
    (m : option message) : bool :=
  negb (set_has (temporarilyUnblockedMessageIds s) (opt_id message_id m))
  && (strict_eq_str (opt_field embed_type e) "gifv"
      || isGifUrl (embed_resolved_url e))
  && truthy (embed_resolved_url e)
  && matched (embed_resolved_url e) (patterns s).

(** A pattern that is a string. *)
Definition is_string (v : value) : bool :=
  match v with
  | VStr _ => true
  | _ => false
  end.

(** A pattern row that is blank: a string of whitespace only. *)
Definition blank (v : value) : bool :=
  match v with
  | VStr c => bool_decide (trim c = "")
  | _ => false
  end.

(** The stored pattern [c] matches the target [u], a value of any kind. *)
Definition hits `{api : UrlApi} (u : value) (c : string) : bool :=
  negb (bool_decide (trim c = ""))
  && same_value_zero (normalize (VStr (trim c))) (normalize u).

(** A URL field as the plugin's annotations have it: a string, or absent. *)
Definition string_or_absent (v : value) : bool :=
  match v with
  | VOther _ _ => false
  | _ => true
  end.

Definition attachment_typed (att : option attachment) : bool :=
  string_or_absent (opt_field att_url att)
  && string_or_absent (opt_field att_proxy_url att).

Definition embed_typed (e : option embed) : bool :=
  string_or_absent (opt_field embed_url e)
  && string_or_absent (opt_field media_url (e ≫= embed_image))
  && string_or_absent (opt_field media_url (e ≫= embed_thumbnail)).

(** The attachment contributes its URL to the collected set. *)
Definition attachment_collected `{api : UrlApi} (att : option attachment)
  : bool :=
  (strict_eq_str
     (match opt_field att_content_type att with
      | VStr t => VStr (toLowerCase t)
      | _ => VUndefined
      end) "image/gif"
   || isGifUrl (attachment_url att))
  && truthy (attachment_url att).

(** The embed contributes a URL to the collected set: its own for a
    [gifv] embed, the resolved one otherwise. *)
Definition embed_collected_url `{api : UrlApi} (e : option embed)
  : option value :=
  if strict_eq_str (opt_field embed_type e) "gifv"
  then (if truthy (opt_field embed_url e)
        then Some (opt_field embed_url e) else None)
  else (if isGifUrl (embed_resolved_url e) && truthy (embed_resolved_url e)
        then Some (embed_resolved_url e) else None).

(** An attachment on which the scan of [_collectGifUrlsFromMessage]
    throws. *)
Definition scan_faults (att : option attachment) : bool :=
  match opt_field att_content_type att with
  | VOther _ _ => true
  | _ => false
  end.

(** The elements a [for ... of] loop gets through before its body
    throws. *)
Fixpoint scanned {A} (fault : A → bool) (l : list A) : list A :=
  match l with
  | [] => []
  | x :: l' => if fault x then [] else x :: scanned fault l'
  end.

(** The attachments and the embeds the two loops of
    [_collectGifUrlsFromMessage] get through. *)
Definition visited_attachments (m : rendered_message)
  : list (option attachment) :=
  match iterate (rm_attachments m) with
  | Ok l => scanned scan_faults l
  | Throw _ => []
  end.

Definition visited_embeds (m : rendered_message) : list (option embed) :=
  match iterate (rm_embeds m) with
  | Ok l => l
  | Throw _ => []
  end.

(** The embed on which [equalsAnyUrl] is reached while a pattern is not a
    string, and so throws: in the [gifv] branch of [_shouldBlockEmbed]
    (line 180) or inside [_shouldBlockUrl] (line 164). *)
Definition embed_faults `{api : UrlApi} (s : State) (e : option embed)
    (m : option message) : bool :=
  negb (set_has (temporarilyUnblockedMessageIds s) (opt_id message_id m))
  && (strict_eq_str (opt_field embed_type e) "gifv"
      || isGifUrl (embed_resolved_url e))
  && truthy (embed_resolved_url e)
  && negb (forallb is_string (patterns s)).

(** An embed that is a GIF by its URL and not of type [gifv]. *)
Definition image_embed : embed :=
  {| embed_type := VStr "image";
     embed_url := VStr "https://t.co/x.gif";
     embed_image := None;
     embed_thumbnail := None |}.

(* ===================================================================== *)
(** ** Facts about the string primitives *)
(* ===================================================================== *)

Section StringFacts.

Lemma app_String c s t : String c s +:+ t = String c (s +:+ t).
Proof. reflexivity. Qed.

Lemma app_empty_l t : "" +:+ t = t.
Proof. reflexivity. Qed.

Lemma app_assoc' s t r : (s +:+ t) +:+ r = s +:+ t +:+ r.
Proof.
  induction s as [|c s IH]; [done|]. by rewrite !app_String, IH.
Qed.

Lemma trimStart_all_ws a :
  all_units is_whitespace a = true → trimStart a = "".
Proof.
  induction a as [|c a IH]; simpl; [done|].
  intros [Hc Ha]%andb_prop. rewrite Hc. auto.
Qed.

Lemma trimStart_ws a s :
  all_units is_whitespace a = true → trimStart (a +:+ s) = trimStart s.
Proof.
  induction a as [|c a IH]; [done|]. simpl.
  intros [Hc Ha]%andb_prop. rewrite Hc. auto.
Qed.

Lemma trimEnd_all_ws b :
  all_units is_whitespace b = true → trimEnd b = "".
Proof.
  induction b as [|c b IH]; simpl; [done|].
  intros [Hc Hb]%andb_prop. by rewrite IH, Hc.
Qed.

Lemma trimEnd_ws s b :
  all_units is_whitespace b = true → trimEnd (s +:+ b) = trimEnd s.
Proof.
  intros Hb. induction s as [|c s IH].
  - rewrite app_empty_l. by apply trimEnd_all_ws.
  - rewrite app_String. simpl. by rewrite IH.
Qed.

Lemma trim_ws_r s b :
  all_units is_whitespace b = true → trim (s +:+ b) = trim s.
Proof.
  intros Hb. unfold trim. induction s as [|c s IH].
  - rewrite app_empty_l. by rewrite (trimStart_all_ws b).
  - rewrite app_String. cbn [trimStart]. destruct (is_whitespace c); [done|].
    by rewrite <- app_String, trimEnd_ws.
Qed.

Lemma trim_padded a s b :
  all_units is_whitespace a = true →
  all_units is_whitespace b = true →
  trim (a +:+ s +:+ b) = trim s.
Proof.
  intros Ha Hb. unfold trim. rewrite trimStart_ws by done.
  by apply trim_ws_r.
Qed.

(** One trailing slash goes, and only when there is one. *)
Lemma replace_slash_at_end_id s :
  endsWith s "/" = false → replace_slash_at_end s = s.
Proof.
  induction s as [|c s IH]; simpl; [done|].
  intros [Hs Hrec]%orb_false_elim. apply bool_decide_eq_false in Hs.
  destruct (bool_decide (c = "/"%char) && bool_decide (s = "")) eqn:E.
  - by apply andb_prop in E as [->%bool_decide_eq_true ->%bool_decide_eq_true].
  - by rewrite IH.
Qed.

Lemma endsWith_cons_slash c s :
  endsWith (String c s) "/" = bool_decide (String c s = "/") || endsWith s "/".
Proof. reflexivity. Qed.

Lemma endsWith_replace_slash s :
  endsWith s "//" = false → endsWith (replace_slash_at_end s) "/" = false.
Proof.
  induction s as [|c s IH]; [done|].
  cbn [endsWith replace_slash_at_end].
  intros [Hs Hrec]%orb_false_elim. apply bool_decide_eq_false in Hs.
  destruct (bool_decide (c = "/"%char) && bool_decide (s = "")) eqn:E; [done|].
  rewrite endsWith_cons_slash, IH, orb_false_r by done.
  apply bool_decide_eq_false. intros [= -> Hr].
  destruct s as [|d s]; [done|].
  cbn [replace_slash_at_end] in Hr.
  destruct (bool_decide (d = "/"%char) && bool_decide (s = "")) eqn:E'; [|done].
  by apply andb_prop in E' as [->%bool_decide_eq_true ->%bool_decide_eq_true].
Qed.

Lemma has_unit_replace_slash c s :
  has_unit c s = false → has_unit c (replace_slash_at_end s) = false.
Proof.
  induction s as [|d s IH]; simpl; [done|].
  intros [Hd Hs]%orb_false_elim.
  destruct (_ && _); simpl; [done|]. by rewrite Hd, IH.
Qed.

End StringFacts.

(* ===================================================================== *)
(** ** normalize and equalsAnyUrl *)
(* ===================================================================== *)

Section MatchingFacts.
Context {api : UrlApi}.

Lemma normalize_parsed_eq r : normalize_parsed r = finished (cleared r).
Proof. reflexivity. Qed.

Lemma normalize_parses u r :
  URL_new u = Some r → normalize (VStr u) = VStr (finished (cleared r)).
Proof. intros H. unfold normalize. simpl. by rewrite H. Qed.

Lemma normalize_fallback u d :
  URL_new u = None → decodeURI u = Some d →
  normalize (VStr u) = VStr (replace_slash_at_end d).
Proof. intros H1 H2. unfold normalize. simpl. by rewrite H1, H2. Qed.

Lemma equalsAnyUrl_candidates u urls :
  equalsAnyUrl u urls
  = rbind (candidates urls) (fun c => Ok (includes c (normalize u))).
Proof.
  unfold equalsAnyUrl, candidates. by destruct (rmap call_trim urls).
Qed.

Lemma rmap_call_trim_strs (l : list string) :
  rmap call_trim (VStr <$> l) = Ok ((fun s => VStr (trim s)) <$> l).
Proof. induction l as [|x l IH]; csimpl; [done|]. by rewrite IH. Qed.

(** Padding leaves the candidates as they were. *)
Lemma candidates_padded l l' : padded l l' → candidates l' = candidates l.
Proof.
  unfold candidates.
  induction 1 as [|c l l' _ IH|a b s l l' Ha Hb _ IH|l l' _ IH]; simpl.
  - done.
  - destruct (call_trim c) as [t|e]; simpl; [|done].
    destruct (rmap call_trim l') as [ts'|e'], (rmap call_trim l) as [ts|e];
      simpl in *; try congruence.
    rewrite !filter_cons. destruct (decide _); simpl; congruence.
  - rewrite trim_padded by done.
    destruct (rmap call_trim l') as [ts'|e'], (rmap call_trim l) as [ts|e];
      simpl in *; try congruence.
    rewrite !filter_cons. destruct (decide _); simpl; congruence.
  - destruct (rmap call_trim l') as [ts'|e'], (rmap call_trim l) as [ts|e];
      simpl in *; try congruence.
    rewrite filter_cons. destruct (decide _) as [[]|]. congruence.
Qed.

End MatchingFacts.

Section NormalForms.
Context {api : UrlApi}.

Lemma normalize_VStr u : ∃ s, normalize (VStr u) = VStr s.
Proof.
  unfold normalize. simpl.
  destruct (URL_new u); [eauto|]. destruct (decodeURI u); eauto.
Qed.

Lemma same_value_zero_normalize c u :
  same_value_zero (normalize (VStr c)) (normalize (VStr u))
  = bool_decide (normalize (VStr c) = normalize (VStr u)).
Proof.
  destruct (normalize_VStr c) as [a ->], (normalize_VStr u) as [b ->].
  simpl. apply bool_decide_ext. split; [by intros ->|by intros [= ->]].
Qed.

(** [equalsAnyUrl] on a list of strings: some entry matches. *)
Lemma equalsAnyUrl_strs u (l : list string) :
  equalsAnyUrl (VStr u) (VStr <$> l) = Ok (existsb (matches u) l).
Proof.
  unfold equalsAnyUrl. rewrite rmap_call_trim_strs. simpl. f_equal.
  induction l as [|c l IH]; csimpl; [done|].
  rewrite filter_cons. unfold matches at 1.
  destruct (decide _) as [Ht|Ht]; simpl in Ht.
  - apply Is_true_true in Ht. rewrite Ht. simpl.
    by rewrite same_value_zero_normalize, IH.
  - apply Is_true_false in Ht. rewrite Ht. simpl. apply IH.
Qed.

Lemma equalsAnyUrl_self u :
  equalsAnyUrl (VStr u) [VStr u] = Ok (matches u u).
Proof.
  change [VStr u] with (VStr <$> [u]).
  rewrite equalsAnyUrl_strs. simpl. by rewrite orb_false_r.
Qed.

Lemma matches_trimmed u : trim u = u → u ≠ "" → matches u u = true.
Proof.
  intros Ht Hne. unfold matches. rewrite Ht.
  rewrite bool_decide_eq_false_2 by done. simpl.
  by apply bool_decide_eq_true.
Qed.

Lemma matches_normalize u c :
  trim c ≠ "" → normalize (VStr (trim c)) = normalize (VStr u) →
  matches u c = true.
Proof.
  intros Hne Heq. unfold matches.
  rewrite bool_decide_eq_false_2 by done. simpl.
  by apply bool_decide_eq_true.
Qed.

End NormalForms.

(* ===================================================================== *)
(** ** The reference implementation obeys the laws *)
(* ===================================================================== *)

Section RefFacts.

Lemma has_unit_drop_while c p s :
  has_unit c s = false → has_unit c (Ref.drop_while p s) = false.
Proof.
  induction s as [|d s IH]; simpl; [done|].
  intros H. destruct (p d); [|done].
  apply orb_false_elim in H as [_ H]. auto.
Qed.

Lemma has_unit_drop_end c p s :
  has_unit c s = false → has_unit c (Ref.drop_end p s) = false.
Proof.
  induction s as [|d s IH]; simpl; [done|].
  intros [Hd Hs]%orb_false_elim. specialize (IH Hs).
  destruct (Ref.drop_end p s) as [|e r].
  - destruct (p d); simpl; [done|]. by rewrite Hd.
  - simpl in *. by rewrite Hd, IH.
Qed.

Lemma has_unit_keep_units c p s :
  has_unit c s = false → has_unit c (Ref.keep_units p s) = false.
Proof.
  induction s as [|d s IH]; simpl; [done|].
  intros [Hd Hs]%orb_false_elim.
  destruct (p d); simpl; [by rewrite Hd, IH|auto].
Qed.

Lemma has_unit_span_rest c p s :
  has_unit c s = false → has_unit c (Ref.span p s).2 = false.
Proof.
  induction s as [|d s IH]; simpl; [done|].
  intros H. destruct (p d); [|done].
  apply orb_false_elim in H as [_ H]. specialize (IH H).
  by destruct (Ref.span p s).
Qed.

Lemma Ref_URL_new_no_colon s :
  has_unit ":" s = false → Ref.URL_new s = None.
Proof.
  intros H. unfold Ref.URL_new, Ref.parse.
  assert (has_unit ":" (Ref.span Ref.scheme_unit (Ref.clean s)).2 = false)
    as Hrest.
  { apply has_unit_span_rest. unfold Ref.clean.
    by apply has_unit_keep_units, has_unit_drop_end, has_unit_drop_while. }
  destruct (Ref.span _ _) as [sch rest]. simpl in Hrest.
  destruct sch as [|c0 sch]; [done|].
  destruct rest as [|c rest]; [done|].
  apply orb_false_elim in Hrest as [Hc _].
  by rewrite Hc.
Qed.

Lemma Ref_decodeURI_no_percent s :
  has_unit "%" s = false → Ref.decodeURI s = Some s.
Proof.
  induction s as [|c s IH]; [done|].
  intros [Hc Hs]%orb_false_elim. specialize (IH Hs).
  destruct c as [[] [] [] [] [] [] [] []];
    first [done | by (cbn [Ref.decodeURI]; rewrite IH)].
Qed.

Lemma RefUrl_laws : UrlLaws RefUrl.
Proof.
  split; [apply Ref_URL_new_no_colon|apply Ref_decodeURI_no_percent].
Qed.

End RefFacts.

(* ===================================================================== *)
(** ** Parsing what the serializer wrote *)
(* ===================================================================== *)

Section RoundTrip.

Lemma slice_0_m1_app_slash p : slice_0_m1 (p +:+ "/") = p.
Proof.
  induction p as [|c p IH]; [done|]. rewrite app_String. simpl.
  rewrite IH. by destruct p.
Qed.

Lemma all_units_app p a b :
  all_units p (a +:+ b) = all_units p a && all_units p b.
Proof.
  induction a as [|c a IH]; [done|]. simpl. by rewrite IH, andb_assoc.
Qed.

Lemma all_units_mono (p q : ascii → bool) s :
  (∀ c, p c = true → q c = true) →
  all_units p s = true → all_units q s = true.
Proof.
  intros Hpq. induction s as [|c s IH]; [done|]. simpl.
  intros [Hc Hs]%andb_prop. by rewrite (Hpq c Hc), IH.
Qed.

Lemma span_app p a b :
  all_units p a = true → Ref.stops_at p b = true →
  Ref.span p (a +:+ b) = (a, b).
Proof.
  intros Ha Hb. induction a as [|c a IH]; simpl in *.
  - destruct b as [|c b]; [done|]. simpl in *.
    apply negb_true_iff in Hb. by rewrite Hb.
  - apply andb_prop in Ha as [Hc Ha]. by rewrite Hc, IH.
Qed.

Lemma span_spec p s :
  s = (Ref.span p s).1 +:+ (Ref.span p s).2
  ∧ all_units p (Ref.span p s).1 = true
  ∧ Ref.stops_at p (Ref.span p s).2 = true.
Proof.
  induction s as [|c s (IH1 & IH2 & IH3)]; [done|]. simpl.
  destruct (p c) eqn:Hc.
  - destruct (Ref.span p s) as [a b]. simpl in *.
    by rewrite app_String, Hc, IH2, <- IH1.
  - simpl. by rewrite Hc.
Qed.

Lemma drop_while_stops p s :
  Ref.stops_at p s = true → Ref.drop_while p s = s.
Proof.
  destruct s as [|c s]; [done|]. simpl. by intros ->%negb_true_iff.
Qed.

Lemma drop_end_none p s :
  all_units (fun c => negb (p c)) s = true → Ref.drop_end p s = s.
Proof.
  induction s as [|c s IH]; [done|]. simpl.
  intros [Hc%negb_true_iff Hs]%andb_prop. rewrite IH, Hc by done.
  by destruct s.
Qed.

Lemma keep_units_all p s :
  all_units p s = true → Ref.keep_units p s = s.
Proof.
  induction s as [|c s IH]; [done|]. simpl.
  intros [Hc Hs]%andb_prop. by rewrite Hc, IH.
Qed.

Lemma visible_not_tab c :
  Ref.visible c = true → negb (Ref.tab_or_newline c) = true.
Proof. destruct c as [[] [] [] [] [] [] [] []]; by vm_compute. Qed.

Lemma clean_visible s : all_units Ref.visible s = true → Ref.clean s = s.
Proof.
  intros Hs. unfold Ref.clean.
  rewrite drop_while_stops.
  - rewrite drop_end_none by done.
    apply keep_units_all. eauto using all_units_mono, visible_not_tab.
  - destruct s as [|c s]; [done|]. simpl in *.
    by apply andb_prop in Hs as [Hc _].
Qed.

Ltac by_units c :=
  destruct c as [[] [] [] [] [] [] [] []]; vm_compute; congruence.

Lemma host_unit_printable c :
  Ref.host_unit c = true → Ref.printable c = true.
Proof. by_units c. Qed.

Lemma path_unit_printable c :
  Ref.path_unit c = true → Ref.printable c = true.
Proof. by_units c. Qed.

Lemma query_unit_printable c :
  Ref.query_unit c = true → Ref.printable c = true.
Proof. by_units c. Qed.

Lemma fragment_unit_printable c :
  Ref.fragment_unit c = true → Ref.printable c = true.
Proof. by_units c. Qed.

Lemma printable_visible c : Ref.printable c = true → Ref.visible c = true.
Proof. by_units c. Qed.

Lemma printable_not_whitespace c :
  Ref.printable c = true → negb (is_whitespace c) = true.
Proof. by_units c. Qed.

Lemma host_unit_not_delimiter c :
  Ref.host_unit c = true → negb (Ref.one_of "/\?#" c) = true.
Proof. by_units c. Qed.

Lemma path_unit_not_delimiter c :
  Ref.path_unit c = true → negb (Ref.one_of "?#" c) = true.
Proof. by_units c. Qed.

Lemma query_unit_not_hash c :
  Ref.query_unit c = true → negb (Ref.one_of "#" c) = true.
Proof. by_units c. Qed.

Lemma host_unit_not_slash c :
  Ref.host_unit c = true → negb (Ref.one_of "/\" c) = true.
Proof. by_units c. Qed.

Lemma lower_unit_idem c : lower_unit (lower_unit c) = lower_unit c.
Proof. by_units c. Qed.

Lemma host_unit_lower c : Ref.host_unit (lower_unit c) = Ref.host_unit c.
Proof. by_units c. Qed.

Lemma is_alpha_lower c : Ref.is_alpha (lower_unit c) = Ref.is_alpha c.
Proof. by_units c. Qed.

Lemma lower_unit_is_dot c :
  bool_decide (lower_unit c = "."%char) = bool_decide (c = "."%char).
Proof. by_units c. Qed.

Lemma toLowerCase_idem s : toLowerCase (toLowerCase s) = toLowerCase s.
Proof.
  induction s as [|c s IH]; [done|]. simpl. by rewrite lower_unit_idem, IH.
Qed.

Lemma all_units_lower p s :
  (∀ c, p (lower_unit c) = p c) →
  all_units p (toLowerCase s) = all_units p s.
Proof.
  intros Hp. induction s as [|c s IH]; [done|]. simpl. by rewrite Hp, IH.
Qed.

Lemma split_on_dot_lower s :
  Ref.split_on "." (toLowerCase s) = toLowerCase <$> Ref.split_on "." s.
Proof.
  induction s as [|c s IH]; [done|]. simpl.
  rewrite lower_unit_is_dot, IH.
  destruct (bool_decide (c = "."%char)); [done|].
  by destruct (Ref.split_on "." s).
Qed.

Lemma valid_host_lower h :
  Ref.valid_host h = true → Ref.valid_host (toLowerCase h) = true.
Proof.
  unfold Ref.valid_host.
  intros [[Hunits Hlabels]%andb_prop Hlast]%andb_prop.
  rewrite (all_units_lower _ _ host_unit_lower), Hunits, split_on_dot_lower.
  rewrite andb_true_l. apply andb_true_intro. split.
  - rewrite forallb_forall in Hlabels. apply forallb_forall.
    intros l' [l [-> Hl]]%list_elem_of_In%list_elem_of_fmap.
    apply list_elem_of_In, Hlabels in Hl. rewrite toLowerCase_idem.
    apply andb_prop in Hl as [Hne Hxn]. rewrite Hxn, andb_true_r.
    by destruct l.
  - rewrite fmap_last. destruct (last _) as [l|]; [|done]. cbn [fmap option_fmap option_map].
    by rewrite (all_units_lower _ _ is_alpha_lower).
Qed.

Lemma valid_host_head h :
  Ref.valid_host h = true →
  ∃ c h', h = String c h' ∧ Ref.host_unit c = true.
Proof.
  destruct h as [|c h]; [done|]. unfold Ref.valid_host. simpl.
  intros [[[Hc _]%andb_prop _]%andb_prop _]%andb_prop. eauto.
Qed.

Lemma startsWith_slash_head p :
  startsWith p "/" = true → ∃ p', p = String "/" p'.
Proof.
  destruct p as [|c p]; [done|]. simpl.
  intros [Hc%bool_decide_eq_true _]%andb_prop. subst. eauto.
Qed.

(** Query and fragment, as the serializer writes them. *)
Lemma parse_tail_written q f :
  all_units Ref.query_unit (default "" q) = true →
  Ref.parse_tail
    (match q with Some q => "?" +:+ q | None => "" end
     +:+ match f with Some f => "#" +:+ f | None => "" end)
  = (q, f).
Proof.
  intros Hq. unfold Ref.parse_tail. destruct q as [q|]; simpl in *.
  - rewrite (span_app _ q).
    + by destruct f.
    + eauto using all_units_mono, query_unit_not_hash.
    + by destruct f.
  - by destruct f.
Qed.

Lemma parse_special_written r tail :
  Ref.wf r = true →
  Ref.stops_at (fun c => negb (Ref.one_of "?#" c)) tail = true →
  Ref.parse_tail tail = (Ref.query r, Ref.fragment r) →
  Ref.parse_special (Ref.scheme r)
    ("//" +:+ Ref.hostname r +:+ Ref.path r +:+ tail)
  = Ref.Parsed r.
Proof.
  unfold Ref.wf.
  intros [[[[[[_ Hhost]%andb_prop Hlow]%andb_prop Hpath]%andb_prop
            Hslash]%andb_prop Hq]%andb_prop Hf]%andb_prop Htail Hparse.
  apply bool_decide_eq_true in Hlow.
  destruct (valid_host_head _ Hhost) as (c & h' & Hh & Hc).
  destruct (startsWith_slash_head _ Hslash) as (p' & Hp).
  unfold Ref.parse_special.
  change ("//" +:+ Ref.hostname r +:+ Ref.path r +:+ tail)
    with (String "/" (String "/" (Ref.hostname r +:+ Ref.path r +:+ tail))).
  cbn [Ref.drop_while]. change (Ref.one_of "/\" "/") with true. cbv iota.
  rewrite drop_while_stops.
  2:{ rewrite Hh, app_String. simpl. by apply host_unit_not_slash. }
  rewrite (span_app _ (Ref.hostname r)).
  2:{ unfold Ref.valid_host in Hhost.
      apply andb_prop in Hhost as [[Hunits _]%andb_prop _].
      eauto using all_units_mono, host_unit_not_delimiter. }
  2:{ by rewrite Hp, app_String. }
  rewrite bool_decide_eq_false_2 by by rewrite Hh.
  rewrite Hhost. cbv iota. simpl negb. cbv iota.
  rewrite (span_app _ (Ref.path r)); [|
    unfold Ref.plain_path in Hpath;
    apply andb_prop in Hpath as [Hunits _];
    eauto using all_units_mono, path_unit_not_delimiter | done].
  rewrite Hpath, Hparse, Hq, Hf. simpl.
  rewrite Hlow, bool_decide_eq_false_2 by by rewrite Hp.
  by destruct r.
Qed.

Lemma toString_printable r :
  Ref.wf r = true → all_units Ref.printable (Ref.toString r) = true.
Proof.
  unfold Ref.wf.
  intros [[[[[[Hs Hhost]%andb_prop _]%andb_prop Hpath]%andb_prop
            _]%andb_prop Hq]%andb_prop Hf]%andb_prop.
  unfold Ref.valid_host in Hhost.
  apply andb_prop in Hhost as [[Hhost _]%andb_prop _].
  unfold Ref.plain_path in Hpath. apply andb_prop in Hpath as [Hpath _].
  assert (all_units Ref.printable (Ref.scheme r) = true) as H1.
  { by apply orb_prop in Hs
      as [->%bool_decide_eq_true | ->%bool_decide_eq_true]. }
  assert (all_units Ref.printable (Ref.hostname r) = true) as H2
    by eauto using all_units_mono, host_unit_printable.
  assert (all_units Ref.printable (Ref.path r) = true) as H3
    by eauto using all_units_mono, path_unit_printable.
  assert (all_units Ref.printable
            match Ref.query r with Some q => "?" +:+ q | None => "" end
          = true) as H4.
  { destruct (Ref.query r); [|done]. simpl in *.
    eauto using all_units_mono, query_unit_printable. }
  assert (all_units Ref.printable
            match Ref.fragment r with Some f => "#" +:+ f | None => "" end
          = true) as H5.
  { destruct (Ref.fragment r); [|done]. simpl in *.
    eauto using all_units_mono, fragment_unit_printable. }
  unfold Ref.toString. by rewrite !all_units_app, H1, H2, H3, H4, H5.
Qed.

Lemma toString_visible r :
  Ref.wf r = true → all_units Ref.visible (Ref.toString r) = true.
Proof. eauto using all_units_mono, printable_visible, toString_printable. Qed.

Lemma trimEnd_none s :
  all_units (fun c => negb (is_whitespace c)) s = true → trimEnd s = s.
Proof.
  induction s as [|c s IH]; [done|]. simpl.
  intros [Hc%negb_true_iff Hs]%andb_prop. rewrite IH, Hc by done.
  by destruct s.
Qed.

Lemma trim_none s :
  all_units (fun c => negb (is_whitespace c)) s = true → trim s = s.
Proof.
  intros Hs. unfold trim.
  assert (trimStart s = s) as ->; [|by apply trimEnd_none].
  destruct s as [|c s]; [done|]. simpl in *.
  by apply andb_prop in Hs as [->%negb_true_iff _].
Qed.

(** The serialization of a record is not changed by [trim]. *)
Lemma trim_toString r :
  Ref.wf r = true →
  trim (Ref.toString r) = Ref.toString r ∧ Ref.toString r ≠ "".
Proof.
  intros Hwf. split.
  - apply trim_none.
    eauto using all_units_mono, printable_not_whitespace, toString_printable.
  - unfold Ref.wf in Hwf.
    apply andb_prop in Hwf as [[[[[[Hs _]%andb_prop _]%andb_prop _]%andb_prop
                                 _]%andb_prop _]%andb_prop _].
    unfold Ref.toString.
    by apply orb_prop in Hs
      as [->%bool_decide_eq_true | ->%bool_decide_eq_true].
Qed.

(** A well-formed record is parsed back from its serialization. *)
Lemma parse_toString r : Ref.wf r = true → Ref.parse (Ref.toString r) = Ref.Parsed r.
Proof.
  intros Hwf. unfold Ref.parse. rewrite clean_visible by by apply toString_visible.
  pose proof Hwf as Hwf'. unfold Ref.wf in Hwf'.
  apply andb_prop in Hwf' as [[[[[[Hs _]%andb_prop _]%andb_prop _]%andb_prop
                                 _]%andb_prop Hq]%andb_prop _].
  assert (Ref.parse_special (Ref.scheme r)
            ("//" +:+ Ref.hostname r +:+ Ref.path r
             +:+ match Ref.query r with Some q => "?" +:+ q | None => "" end
             +:+ match Ref.fragment r with Some f => "#" +:+ f | None => "" end)
          = Ref.Parsed r) as Hrest.
  { apply parse_special_written; [done| |by apply parse_tail_written].
    by destruct (Ref.query r), (Ref.fragment r). }
  unfold Ref.toString.
  apply orb_prop in Hs as [Hs%bool_decide_eq_true|Hs%bool_decide_eq_true];
    rewrite Hs in *; exact Hrest.
Qed.

Lemma path_head_slash c :
  Ref.one_of "/\?#" c = true → Ref.path_unit c = true → c = "/"%char.
Proof. by_units c. Qed.

Lemma parse_special_wf sch rest r :
  sch = "http" ∨ sch = "https" →
  Ref.parse_special sch rest = Ref.Parsed r → Ref.wf r = true.
Proof.
  intros Hsch. unfold Ref.parse_special.
  set (rest0 := Ref.drop_while _ rest).
  pose proof (span_spec (fun c => negb (Ref.one_of "/\?#" c)) rest0)
    as (_ & _ & Hstop).
  destruct (Ref.span _ rest0) as [auth rest1]. cbn [fst snd] in Hstop.
  destruct (bool_decide (auth = "")); [done|].
  destruct (Ref.valid_host auth) eqn:Hhost; [|done]. cbn [negb].
  pose proof (span_spec (fun c => negb (Ref.one_of "?#" c)) rest1)
    as (Hrest1 & Hunits & _).
  destruct (Ref.span _ rest1) as [pth rest2]. cbn [fst snd] in Hrest1, Hunits.
  destruct (Ref.plain_path pth) eqn:Hpath; [|done]. cbn [negb].
  destruct (Ref.parse_tail rest2) as [q f].
  destruct (all_units Ref.query_unit (default "" q)) eqn:Hq; [|done].
  destruct (all_units Ref.fragment_unit (default "" f)) eqn:Hf; [|done].
  cbn [negb]. intros [= <-]. unfold Ref.wf.
  cbn [Ref.scheme Ref.hostname Ref.path Ref.query Ref.fragment].
  rewrite valid_host_lower, toLowerCase_idem, Hq, Hf by done.
  rewrite (bool_decide_eq_true_2 (toLowerCase auth = toLowerCase auth)) by done.
  rewrite !andb_true_r.
  apply andb_true_intro. split; [apply andb_true_intro; split|].
  - by destruct Hsch as [-> | ->].
  - by case_bool_decide.
  - case_bool_decide as Hne; [done|].
    destruct pth as [|c pth]; [done|].
    rewrite Hrest1, app_String in Hstop. cbn [Ref.stops_at] in Hstop.
    apply negb_true_iff, negb_false_iff in Hstop.
    unfold Ref.plain_path in Hpath. cbn [all_units] in Hpath.
    apply andb_prop in Hpath as [[Hc _]%andb_prop _].
    by rewrite (path_head_slash c Hstop Hc).
Qed.

(** Whatever the parser returns is well formed. *)
Lemma parse_wf s r : Ref.parse s = Ref.Parsed r → Ref.wf r = true.
Proof.
  unfold Ref.parse. destruct (Ref.span _ _) as [sch rest].
  destruct sch as [|c0 sch]; [done|]. destruct rest as [|c rest]; [done|].
  destruct (negb (bool_decide (c = ":"%char))); [done|].
  destruct (negb (Ref.is_alpha c0)); [done|].
  destruct (negb _) eqn:Hs; [done|].
  apply negb_false_iff, orb_prop in Hs.
  apply parse_special_wf.
  destruct Hs as [Hs%bool_decide_eq_true | Hs%bool_decide_eq_true]; auto.
Qed.

(** *** The query as a list of pairs *)

Lemma has_unit_app c a b :
  has_unit c (a +:+ b) = has_unit c a || has_unit c b.
Proof.
  induction a as [|d a IH]; [done|].
  rewrite app_String. simpl. by rewrite IH, orb_assoc.
Qed.

Lemma all_units_not c s :
  all_units (fun d => negb (bool_decide (d = c))) s = true →
  has_unit c s = false.
Proof.
  induction s as [|d s IH]; [done|]. simpl.
  intros [Hd%negb_true_iff Hs]%andb_prop. by rewrite Hd, IH.
Qed.

Lemma split_on_no_sep sep x :
  has_unit sep x = false → Ref.split_on sep x = [x].
Proof.
  induction x as [|c x IH]; [done|]. simpl.
  intros [Hc Hx]%orb_false_elim. by rewrite Hc, IH.
Qed.

Lemma split_on_app sep x rest :
  has_unit sep x = false →
  Ref.split_on sep (x +:+ String sep rest) = x :: Ref.split_on sep rest.
Proof.
  induction x as [|c x IH].
  - intros _. rewrite app_empty_l. simpl. by rewrite bool_decide_eq_true_2.
  - simpl. intros [Hc Hx]%orb_false_elim.
    rewrite ?app_String. simpl. by rewrite Hc, IH.
Qed.

Lemma split_on_join xs :
  xs ≠ [] → Forall (fun x => has_unit "&" x = false) xs →
  Ref.split_on "&" (Ref.join "&" xs) = xs.
Proof.
  intros Hne Hxs. induction Hxs as [|x xs Hx Hxs IH]; [done|].
  destruct xs as [|y xs].
  - simpl. by apply split_on_no_sep.
  - change (Ref.join "&" (x :: y :: xs))
      with (x +:+ String "&" (Ref.join "&" (y :: xs))).
    rewrite split_on_app by done. by rewrite IH.
Qed.

Lemma split_on_pieces p sep s :
  all_units p s = true →
  Forall (fun x => has_unit sep x = false ∧ all_units p x = true)
         (Ref.split_on sep s).
Proof.
  induction s as [|c s IH]; simpl.
  - intros _. by repeat constructor.
  - intros [Hc Hs]%andb_prop. specialize (IH Hs).
    destruct (bool_decide_reflect (c = sep)) as [->|Hne].
    + by repeat constructor.
    + destruct (Ref.split_on sep s) as [|x xs].
      * constructor; [|constructor]. simpl.
        by rewrite bool_decide_eq_false_2, Hc by done.
      * apply Forall_cons in IH as [[Hx1 Hx2] IH].
        constructor; [|done]. simpl.
        by rewrite bool_decide_eq_false_2, Hx1, Hc, Hx2 by done.
Qed.

Lemma parse_pair_written n v :
  has_unit "=" n = false → Ref.parse_pair (n +:+ "=" +:+ v) = (n, v).
Proof.
  intros Hn. unfold Ref.parse_pair.
  rewrite (span_app _ n); [done| |done].
  clear v. induction n as [|c n IH]; [done|]. simpl in *.
  apply orb_false_elim in Hn as [Hc Hn]. by rewrite Hc, IH.
Qed.

Lemma parse_pair_ok seq :
  has_unit "&" seq = false → all_units Ref.query_unit seq = true →
  Ref.pair_ok (Ref.parse_pair seq) = true.
Proof.
  intros Hamp Hunits. unfold Ref.parse_pair.
  pose proof (span_spec (fun c => negb (bool_decide (c = "="%char))) seq)
    as (Hseq & Hname & _).
  destruct (Ref.span _ seq) as [n rest]. cbn [fst snd] in *.
  rewrite Hseq, has_unit_app in Hamp. rewrite Hseq, all_units_app in Hunits.
  apply orb_false_elim in Hamp as [Hamp1 Hamp2].
  apply andb_prop in Hunits as [Hu1 Hu2].
  apply all_units_not in Hname. unfold Ref.pair_ok.
  destruct rest as [|c v]; cbn [fst snd].
  - by rewrite Hu1, Hname, Hamp1.
  - simpl in Hamp2, Hu2. apply orb_false_elim in Hamp2 as [_ Hamp2].
    apply andb_prop in Hu2 as [_ Hu2].
    by rewrite Hu1, Hu2, Hname, Hamp1, Hamp2.
Qed.

Lemma parse_qs_ok q :
  all_units Ref.query_unit q = true → Forall (fun nv => Ref.pair_ok nv = true) (Ref.parse_qs q).
Proof.
  intros Hq. unfold Ref.parse_qs.
  pose proof (split_on_pieces _ "&" q Hq) as Hpieces.
  induction Hpieces as [|x xs [Hx1 Hx2] _ IH]; [constructor|].
  simpl. destruct (negb _); [|done].
  constructor; [by apply parse_pair_ok|done].
Qed.

Lemma pair_written_ok n v :
  Ref.pair_ok (n, v) = true →
  has_unit "&" (n +:+ "=" +:+ v) = false
  ∧ all_units Ref.query_unit (n +:+ "=" +:+ v) = true
  ∧ n +:+ "=" +:+ v ≠ ""
  ∧ has_unit "=" n = false.
Proof.
  unfold Ref.pair_ok. cbn [fst snd].
  intros [[[[Hn Hv]%andb_prop Heq%negb_true_iff]%andb_prop
           Hamp1%negb_true_iff]%andb_prop Hamp2%negb_true_iff]%andb_prop.
  rewrite !has_unit_app, !all_units_app, Hamp1, Hamp2, Hn, Hv.
  split; [reflexivity|]. split; [reflexivity|]. split; [by destruct n|done].
Qed.

Lemma parse_qs_serialize l :
  Forall (fun nv => Ref.pair_ok nv = true) l →
  Ref.parse_qs (default "" (Ref.query_of l)) = l.
Proof.
  intros Hl. destruct l as [|nv0 l0]; [done|].
  set (l := nv0 :: l0) in *. change (Ref.query_of l) with (Some (Ref.serialize_qs l)).
  cbn [from_option]. unfold id, Ref.parse_qs, Ref.serialize_qs.
  rewrite split_on_join.
  - clearbody l. induction Hl as [|[n v] l Hnv _ IH]; [done|].
    destruct (pair_written_ok n v Hnv) as (_ & _ & Hne & Heq).
    cbn [map List.filter]. rewrite bool_decide_eq_false_2 by done.
    cbn [negb map]. by rewrite parse_pair_written, IH.
  - done.
  - clearbody l. induction Hl as [|[n v] l Hnv _ IH]; constructor; [|done].
    by destruct (pair_written_ok n v Hnv) as (? & _).
Qed.

Lemma serialize_qs_units l :
  Forall (fun nv => Ref.pair_ok nv = true) l →
  all_units Ref.query_unit (default "" (Ref.query_of l)) = true.
Proof.
  intros Hl. destruct l as [|nv0 l0]; [done|].
  set (l := nv0 :: l0) in *.
  change (Ref.query_of l) with (Some (Ref.serialize_qs l)).
  cbn [from_option]. unfold id. clearbody l. unfold Ref.serialize_qs.
  induction Hl as [|[n v] l Hnv Hl IH]; [done|].
  destruct (pair_written_ok n v Hnv) as (_ & Hunits & _).
  destruct l as [|nv l]; [done|].
  change (Ref.join "&" (map _ ((n, v) :: nv :: l)))
    with ((n +:+ "=" +:+ v) +:+ "&"
          +:+ Ref.join "&" (map (fun '(n, v) => n +:+ "=" +:+ v) (nv :: l))).
  rewrite (all_units_app _ (n +:+ "=" +:+ v)), Hunits.
  by rewrite all_units_app, IH.
Qed.

Lemma without_ok k l :
  Forall (fun nv => Ref.pair_ok nv = true) l →
  Forall (fun nv => Ref.pair_ok nv = true) (Ref.without k l).
Proof.
  induction 1 as [|[n v] l Hnv _ IH]; [constructor|].
  unfold Ref.without. simpl. destruct (negb _); [by constructor|done].
Qed.

Lemma without_other P k l :
  Forall P l → Forall P (Ref.without k l).
Proof.
  induction 1 as [|[n v] l Hnv _ IH]; [constructor|].
  unfold Ref.without. simpl. destruct (negb _); [by constructor|done].
Qed.

Lemma without_named k l : Forall (fun nv => nv.1 ≠ k) (Ref.without k l).
Proof.
  induction l as [|[n v] l IH]; [constructor|].
  unfold Ref.without. simpl. case_bool_decide; simpl; [done|by constructor].
Qed.

Lemma without_absent k l :
  Forall (fun nv => nv.1 ≠ k) l → Ref.without k l = l.
Proof.
  induction 1 as [|[n v] l Hnv _ IH]; [done|].
  unfold Ref.without in *. simpl in *.
  by rewrite bool_decide_eq_false_2, IH.
Qed.

Lemma stripped_ok l :
  Forall (fun nv => Ref.pair_ok nv = true) l →
  Forall (fun nv => Ref.pair_ok nv = true) (Ref.stripped l).
Proof. intros H. unfold Ref.stripped. simpl. by repeat apply without_ok. Qed.

(** No tracking parameter is left to delete. *)
Lemma stripped_fixed k l :
  k ∈ tracking_params → Ref.without k (Ref.stripped l) = Ref.stripped l.
Proof.
  intros Hk. apply without_absent. unfold Ref.stripped. simpl.
  repeat (apply elem_of_cons in Hk as [->|Hk];
    [repeat first [apply without_named | apply without_other]|]).
  by apply elem_of_nil in Hk.
Qed.

Lemma stripped_idem l : Ref.stripped (Ref.stripped l) = Ref.stripped l.
Proof.
  unfold Ref.stripped at 1. simpl.
  rewrite !stripped_fixed; [done|set_solver..].
Qed.

(** *** The path without its trailing slash *)

Lemma endsWith_app a b : endsWith (a +:+ b) b = true.
Proof.
  induction a as [|c a IH].
  - rewrite app_empty_l. destruct b; simpl; [done|].
    by rewrite bool_decide_eq_true_2.
  - rewrite app_String. simpl. by rewrite IH, orb_true_r.
Qed.

Lemma endsWith_inv s p : endsWith s p = true → ∃ a, s = a +:+ p.
Proof.
  induction s as [|c s IH]; simpl.
  - intros [->%bool_decide_eq_true|?]%orb_prop; [by exists ""|done].
  - intros [<-%bool_decide_eq_true|H]%orb_prop; [by exists ""|].
    destruct (IH H) as [a ->]. by exists (String c a).
Qed.

Lemma split_on_nonempty sep s : Ref.split_on sep s ≠ [].
Proof.
  destruct s as [|c s]; [done|]. simpl.
  destruct (bool_decide _); [done|]. by destruct (Ref.split_on sep s).
Qed.

Lemma split_on_app_sep sep q :
  Ref.split_on sep (q +:+ String sep "") = Ref.split_on sep q ++ [""].
Proof.
  induction q as [|c q IH].
  - rewrite app_empty_l. simpl. by rewrite bool_decide_eq_true_2.
  - rewrite app_String. simpl. rewrite IH.
    destruct (bool_decide (c = sep)); [done|].
    pose proof (split_on_nonempty sep q).
    by destruct (Ref.split_on sep q).
Qed.

Lemma plain_path_app_slash q :
  Ref.plain_path (q +:+ "/") = true → Ref.plain_path q = true.
Proof.
  unfold Ref.plain_path. rewrite all_units_app, split_on_app_sep, forallb_app.
  intros [[-> _]%andb_prop [-> _]%andb_prop]%andb_prop. done.
Qed.

Lemma trimmed_path_cases p :
  startsWith p "/" = true →
  (Ref.trimmed_path p = p ∧ (p = "/" ∨ endsWith p "/" = false))
  ∨ (∃ q, p = String "/" q +:+ "/" ∧ Ref.trimmed_path p = String "/" q).
Proof.
  intros Hslash. unfold Ref.trimmed_path.
  destruct (bool_decide_reflect (p = "/")) as [->|Hne]; [left; auto|].
  destruct (endsWith p "/") eqn:Hend; [|left; auto]. right.
  destruct (endsWith_inv _ _ Hend) as [q ->].
  destruct (startsWith_slash_head _ Hslash) as [p' Hp].
  destruct q as [|d q]; [done|].
  rewrite app_String in Hp. injection Hp as -> _.
  exists q. split; [done|]. cbn [negb andb].
  by rewrite slice_0_m1_app_slash.
Qed.

Lemma trimmed_path_plain p :
  Ref.plain_path p = true → startsWith p "/" = true →
  Ref.plain_path (Ref.trimmed_path p) = true
  ∧ startsWith (Ref.trimmed_path p) "/" = true.
Proof.
  intros Hplain Hslash.
  destruct (trimmed_path_cases p Hslash) as [[Heq _]|(q & -> & ->)].
  - by rewrite Heq.
  - split; [by apply plain_path_app_slash|done].
Qed.

Lemma trimmed_path_idem p :
  startsWith p "/" = true → endsWith p "//" = false →
  Ref.trimmed_path (Ref.trimmed_path p) = Ref.trimmed_path p.
Proof.
  intros Hslash Hend.
  destruct (trimmed_path_cases p Hslash) as [[Heq _]|(q & -> & ->)];
    [by rewrite !Heq|].
  unfold Ref.trimmed_path.
  destruct (endsWith (String "/" q) "/") eqn:Hq; [|by rewrite andb_false_r].
  destruct (endsWith_inv _ _ Hq) as [a Ha].
  destruct a as [|c a].
  - rewrite app_empty_l in Ha. by rewrite Ha.
  - rewrite Ha, app_assoc' in Hend. change ("/" +:+ "/") with "//" in Hend.
    by rewrite (endsWith_app (String c a) "//") in Hend.
Qed.

(** *** The record [normalize] writes *)

Lemma with_query_same r : Ref.with_query (Ref.query r) r = r.
Proof. by destruct r. Qed.

Lemma delete_written k r l :
  Forall (fun nv => Ref.pair_ok nv = true) l →
  Ref.query r = Ref.query_of l →
  Ref.searchParams_delete k r
  = Ref.with_query (Ref.query_of (Ref.without k l)) r.
Proof.
  intros Hl Hq. unfold Ref.searchParams_delete, Ref.searchParams.
  by rewrite Hq, parse_qs_serialize.
Qed.

Lemma fold_delete_written ks :
  ∀ r l,
    Forall (fun nv => Ref.pair_ok nv = true) l →
    Ref.query r = Ref.query_of l →
    fold_left (fun p k => Ref.searchParams_delete k p) ks r
    = Ref.with_query
        (Ref.query_of (fold_left (fun l k => Ref.without k l) ks l)) r.
Proof.
  induction ks as [|k ks IH]; intros r l Hl Hq; simpl.
  - by rewrite <- Hq, with_query_same.
  - rewrite (delete_written k r l) by done.
    by rewrite (IH _ (Ref.without k l)); [|apply without_ok|].
Qed.

Lemma wf_fields r :
  Ref.wf r = true →
  Ref.valid_host (Ref.hostname r) = true
  ∧ toLowerCase (Ref.hostname r) = Ref.hostname r
  ∧ Ref.plain_path (Ref.path r) = true
  ∧ startsWith (Ref.path r) "/" = true
  ∧ all_units Ref.query_unit (default "" (Ref.query r)) = true.
Proof.
  unfold Ref.wf.
  intros [[[[[[_ Hhost]%andb_prop Hlow%bool_decide_eq_true]%andb_prop
              Hpath]%andb_prop Hslash]%andb_prop Hq]%andb_prop _]%andb_prop.
  done.
Qed.

Lemma fold_delete_parsed k ks (r : Ref.url) :
  all_units Ref.query_unit (default "" (Ref.query r)) = true →
  fold_left (fun p k => @searchParams_delete RefUrl k p) (k :: ks) r
  = Ref.with_query
      (Ref.query_of
         (fold_left (fun l k => Ref.without k l) (k :: ks) (Ref.searchParams r)))
      r.
Proof.
  intros Hq. cbn [fold_left].
  change (fold_left (fun p k => @searchParams_delete RefUrl k p) ks)
    with (fold_left (fun p k => Ref.searchParams_delete k p) ks).
  by rewrite (fold_delete_written ks _ (Ref.without k (Ref.searchParams r)));
    [|apply without_ok, parse_qs_ok|].
Qed.

(** Deleting the tracking parameters and the fragment. *)
Lemma cleared_ref r :
  Ref.wf r = true →
  @cleared RefUrl r
  = {| Ref.scheme := Ref.scheme r; Ref.hostname := Ref.hostname r;
       Ref.path := Ref.path r;
       Ref.query := Ref.query_of (Ref.stripped (Ref.searchParams r));
       Ref.fragment := None |}.
Proof.
  intros (_ & _ & _ & _ & Hq)%wf_fields.
  unfold cleared, tracking_params. by rewrite fold_delete_parsed.
Qed.

Lemma finished_cleared_ref r :
  Ref.wf r = true →
  @finished RefUrl (@cleared RefUrl r) = Ref.toString (Ref.normal_form r).
Proof.
  intros Hwf. rewrite cleared_ref by done.
  destruct (wf_fields r Hwf) as (Hhost & Hlow & Hplain & Hslash & _).
  destruct (trimmed_path_plain _ Hplain Hslash) as [Hplain' Hslash'].
  unfold finished. cbn [pathname set_pathname host set_host toString RefUrl].
  cbn [Ref.path Ref.hostname].
  assert (∀ x : Ref.url,
            Ref.hostname x = Ref.hostname r →
            Ref.set_host (toLowerCase (Ref.hostname x)) x = x) as Hset_host.
  { intros [] E. simpl in E. subst. unfold Ref.set_host. simpl.
    by rewrite Hlow, Hhost, Hlow. }
  unfold Ref.normal_form, Ref.trimmed_path in *.
  destruct (negb (bool_decide (Ref.path r = "/")) && endsWith (Ref.path r) "/").
  - unfold Ref.set_pathname. rewrite Hslash', Hplain'.
    by rewrite Hset_host.
  - by rewrite Hset_host.
Qed.

Lemma normal_form_wf r : Ref.wf r = true → Ref.wf (Ref.normal_form r) = true.
Proof.
  intros Hwf. pose proof Hwf as Hwf'. unfold Ref.wf in Hwf'.
  apply andb_prop in Hwf' as [[[[[[Hs _]%andb_prop _]%andb_prop _]%andb_prop
                                 _]%andb_prop _]%andb_prop _].
  destruct (wf_fields r Hwf) as (Hhost & Hlow & Hplain & Hslash & Hq).
  destruct (trimmed_path_plain _ Hplain Hslash) as [Hplain' Hslash'].
  unfold Ref.wf, Ref.normal_form.
  cbn [Ref.scheme Ref.hostname Ref.path Ref.query Ref.fragment].
  rewrite Hs, Hhost, Hlow, Hplain', Hslash'.
  rewrite serialize_qs_units by by apply stripped_ok, parse_qs_ok.
  by rewrite bool_decide_eq_true_2.
Qed.

Lemma normal_form_idem r :
  Ref.wf r = true → endsWith (Ref.path r) "//" = false →
  Ref.normal_form (Ref.normal_form r) = Ref.normal_form r.
Proof.
  intros Hwf Hend.
  destruct (wf_fields r Hwf) as (_ & _ & _ & Hslash & Hq).
  unfold Ref.normal_form at 1. unfold Ref.searchParams.
  cbn [Ref.normal_form Ref.scheme Ref.hostname Ref.path Ref.query].
  rewrite parse_qs_serialize by by apply stripped_ok, parse_qs_ok.
  by rewrite stripped_idem, trimmed_path_idem.
Qed.

(** On a URL the reference parser accepts, [normalize] writes the normal
    form of the parsed record. *)
Lemma normalize_ref_parsed u r :
  Ref.parse u = Ref.Parsed r →
  @normalize RefUrl (VStr u) = VStr (Ref.toString (Ref.normal_form r)).
Proof.
  intros Hu. unfold normalize. cbn [ToString URL_new RefUrl].
  unfold Ref.URL_new. rewrite Hu.
  by rewrite normalize_parsed_eq, finished_cleared_ref by by eapply parse_wf.
Qed.

Lemma normalize_ref_idempotent u r :
  Ref.parse u = Ref.Parsed r →
  endsWith (Ref.path r) "//" = false →
  @normalize RefUrl (@normalize RefUrl (VStr u)) = @normalize RefUrl (VStr u).
Proof.
  intros Hu Hend. pose proof (parse_wf _ _ Hu) as Hwf.
  rewrite (normalize_ref_parsed u r Hu).
  rewrite (normalize_ref_parsed _ (Ref.normal_form r))
    by by apply parse_toString, normal_form_wf.
  by rewrite normal_form_idem.
Qed.

(** Two records with the same normal form match each other. *)
Lemma equalsAnyUrl_same_normal_form r r' :
  Ref.wf r = true → Ref.wf r' = true →
  Ref.normal_form r = Ref.normal_form r' →
  @equalsAnyUrl RefUrl (VStr (Ref.toString r)) [VStr (Ref.toString r')]
  = Ok true.
Proof.
  intros Hwf Hwf' Hsame. destruct (trim_toString r' Hwf') as [Htrim Hne].
  change [VStr (Ref.toString r')] with (VStr <$> [Ref.toString r']).
  rewrite equalsAnyUrl_strs. simpl. rewrite orb_false_r. f_equal.
  apply matches_normalize; rewrite Htrim; [done|].
  rewrite (normalize_ref_parsed (Ref.toString r) r),
          (normalize_ref_parsed (Ref.toString r') r')
    by by apply parse_toString.
  by rewrite Hsame.
Qed.

Lemma with_path_slash_wf r :
  Ref.wf r = true →
  Ref.wf (Ref.with_path (Ref.path r +:+ "/") r) = true.
Proof.
  intros Hwf. pose proof Hwf as Hwf'. unfold Ref.wf in Hwf' |- *.
  destruct (wf_fields r Hwf) as (_ & _ & Hplain & Hslash & _).
  cbn [Ref.with_path Ref.scheme Ref.hostname Ref.path Ref.query Ref.fragment].
  apply andb_prop in Hwf' as [[[[[[-> ->]%andb_prop ->]%andb_prop _]%andb_prop
                                 _]%andb_prop ->]%andb_prop ->].
  destruct (startsWith_slash_head _ Hslash) as [p' Hp].
  rewrite Hp at 2. rewrite app_String. cbn [startsWith].
  rewrite bool_decide_eq_true_2, !andb_true_r by done. cbn [andb].
  unfold Ref.plain_path in *. apply andb_prop in Hplain as [Hunits Hsegs].
  by rewrite all_units_app, split_on_app_sep, forallb_app, Hunits, Hsegs.
Qed.

Lemma with_path_slash_normal_form r :
  Ref.wf r = true → endsWith (Ref.path r) "/" = false →
  Ref.normal_form (Ref.with_path (Ref.path r +:+ "/") r) = Ref.normal_form r.
Proof.
  intros Hwf Hend. destruct (wf_fields r Hwf) as (_ & _ & _ & Hslash & _).
  destruct (startsWith_slash_head _ Hslash) as [p' Hp].
  unfold Ref.normal_form, Ref.searchParams.
  cbn [Ref.with_path Ref.scheme Ref.hostname Ref.path Ref.query]. f_equal.
  unfold Ref.trimmed_path. rewrite Hend, andb_false_r, endsWith_app.
  rewrite bool_decide_eq_false_2; [by rewrite slice_0_m1_app_slash|].
  rewrite Hp, app_String. by destruct p'.
Qed.

Lemma with_query_wf r q :
  Ref.wf r = true → all_units Ref.query_unit q = true →
  Ref.wf (Ref.with_query (Some q) r) = true.
Proof.
  intros Hwf Hq. unfold Ref.wf in *.
  cbn [Ref.with_query Ref.scheme Ref.hostname Ref.path Ref.query Ref.fragment].
  apply andb_prop in Hwf as [[[[[[-> ->]%andb_prop ->]%andb_prop ->]%andb_prop
                                ->]%andb_prop _]%andb_prop ->].
  cbn [from_option]. unfold id. by rewrite Hq.
Qed.

End RoundTrip.

(* ===================================================================== *)
(** ** Idempotence of normalize (C5) *)
(* ===================================================================== *)

(** C5, as stated, fails on both paths of [normalize]. The string [a//] has
    no scheme, is returned by [decodeURI] as it is and loses one slash per
    call; [%2541] is decoded once per call, to [%41] and then to [A]; the
    URL [https://x.com/a//] parses and its path loses one slash per call. *)
Lemma normalize_not_idempotent :
  @normalize RefUrl (@normalize RefUrl (VStr "a//"))
    ≠ @normalize RefUrl (VStr "a//")
  ∧ @normalize RefUrl (@normalize RefUrl (VStr "%2541"))
    ≠ @normalize RefUrl (VStr "%2541")
  ∧ @normalize RefUrl (@normalize RefUrl (VStr "https://x.com/a//"))
    ≠ @normalize RefUrl (VStr "https://x.com/a//").
Proof. repeat split; vm_compute; discriminate. Qed.

Section Idempotent.
Context {api : UrlApi}.

Lemma normalize_returns_argument u :
  URL_new u = None → decodeURI u = None →
  normalize (normalize (VStr u)) = normalize (VStr u).
Proof.
  intros Hu Hd.
  assert (normalize (VStr u) = VStr u) as Hn.
  { unfold normalize. simpl. by rewrite Hu, Hd. }
  by rewrite !Hn.
Qed.

Lemma normalize_fallback_idempotent (laws : UrlLaws api) u :
  has_unit ":" u = false →
  has_unit "%" u = false →
  endsWith u "//" = false →
  normalize (normalize (VStr u)) = normalize (VStr u).
Proof.
  intros Hcolon Hpct Hslash.
  rewrite (normalize_fallback u u)
    by auto using URL_new_no_colon, decodeURI_no_percent.
  rewrite (normalize_fallback (replace_slash_at_end u) (replace_slash_at_end u))
    by auto using URL_new_no_colon, decodeURI_no_percent,
                  has_unit_replace_slash.
  f_equal. by apply replace_slash_at_end_id, endsWith_replace_slash.
Qed.

End Idempotent.

(** C5 (amended): [normalize(normalize(u)) == normalize(u)] holds for a
    string that neither parses nor decodes ([normalize] returns it as it
    is); for a string without a colon and without a percent sign that does
    not end in two slashes (it takes the fallback path, and so does its
    normal form); and, on the reference implementation, for every URL that
    parses and whose path does not end in two slashes. *)
Theorem normalize_idempotent_where :
  (∀ (api : UrlApi) u,
     URL_new u = None → decodeURI u = None →
     normalize (normalize (VStr u)) = normalize (VStr u))
  ∧ (∀ (api : UrlApi), UrlLaws api → ∀ u,
       has_unit ":" u = false →
       has_unit "%" u = false →
       endsWith u "//" = false →
       normalize (normalize (VStr u)) = normalize (VStr u))
  ∧ (∀ u r,
       @URL_new RefUrl u = Some r →
       endsWith (@pathname RefUrl r) "//" = false →
       @normalize RefUrl (@normalize RefUrl (VStr u))
       = @normalize RefUrl (VStr u)).
Proof.
  split; [exact @normalize_returns_argument|].
  split; [exact @normalize_fallback_idempotent|].
  intros u r Hu Hend. apply normalize_ref_idempotent with r; [|done].
  cbn [URL_new RefUrl] in Hu. unfold Ref.URL_new in Hu.
  destruct (Ref.parse u); by simplify_eq.
Qed.

Lemma normalize_idempotent_where_witness :
  @normalize RefUrl (@normalize RefUrl (VStr "%zz"))
  = @normalize RefUrl (VStr "%zz")
  ∧ @normalize RefUrl (@normalize RefUrl (VStr "media/cat.gif/"))
    = @normalize RefUrl (VStr "media/cat.gif/")
  ∧ @normalize RefUrl
      (@normalize RefUrl (VStr "https://EX.com/a/?utm_source=x#f"))
    = @normalize RefUrl (VStr "https://EX.com/a/?utm_source=x#f")
  ∧ @normalize RefUrl (VStr "https://EX.com/a/?utm_source=x#f")
    = VStr "https://ex.com/a".
Proof.
  destruct normalize_idempotent_where as (Hsame & Hfallback & Hparsed).
  split; [by apply (Hsame RefUrl)|].
  split; [by apply (Hfallback RefUrl RefUrl_laws)|].
  split; [|reflexivity].
  by eapply Hparsed.
Defined.

(* ===================================================================== *)
(** ** Candidates are trimmed, the target is not (C10) *)
(* ===================================================================== *)

(** C10: whitespace around candidates and empty candidates never change the
    answer of [equalsAnyUrl]; whitespace in front of the target can: some
    [u] matches itself while [" " + u] does not. *)
Theorem equalsAnyUrl_trims_candidates_only `{api : UrlApi}
    (laws : UrlLaws api) :
  (∀ u l l', padded l l' → equalsAnyUrl u l' = equalsAnyUrl u l)
  ∧ ∃ u, equalsAnyUrl (VStr u) [VStr u] = Ok true
         ∧ equalsAnyUrl (VStr (" " +:+ u)) [VStr u] = Ok false.
Proof.
  split.
  - intros u l l' Hpad.
    by rewrite !equalsAnyUrl_candidates, (candidates_padded l l').
  - exists "a". split.
    + rewrite equalsAnyUrl_self. f_equal. by apply matches_trimmed.
    + change [VStr "a"] with (VStr <$> ["a"]).
      rewrite equalsAnyUrl_strs. simpl. f_equal. rewrite orb_false_r.
      unfold matches. change (trim "a") with "a". simpl.
      apply bool_decide_eq_false.
      rewrite (normalize_fallback "a" "a"), (normalize_fallback " a" " a")
        by auto using URL_new_no_colon, decodeURI_no_percent.
      discriminate.
Qed.

Lemma equalsAnyUrl_trims_candidates_only_witness :
  @equalsAnyUrl RefUrl (VStr "https://x.com/a.gif")
    [VStr ""; VStr "  https://x.com/a.gif "; VNull]
  = @equalsAnyUrl RefUrl (VStr "https://x.com/a.gif")
      [VStr "https://x.com/a.gif"; VNull]
  ∧ @equalsAnyUrl RefUrl (VStr "https://x.com/a.gif")
      [VStr ""; VStr "  https://x.com/a.gif "]
    = Ok true
  ∧ @equalsAnyUrl RefUrl (VStr "a") [VStr "a"] = Ok true
  ∧ @equalsAnyUrl RefUrl (VStr " a") [VStr "a"] = Ok false.
Proof.
  split; [|by vm_compute].
  apply (proj1 (equalsAnyUrl_trims_candidates_only RefUrl_laws)).
  apply padded_empty. apply (padded_ws "  " " "); [reflexivity..|].
  apply padded_same, padded_nil.
Defined.

(* ===================================================================== *)
(** ** Reflexivity and insensitivity of equalsAnyUrl (C7) *)
(* ===================================================================== *)

Section Insensitive.
Context {api : UrlApi}.

Lemma endsWith_app_slash p : endsWith (p +:+ "/") "/" = true.
Proof.
  induction p as [|c p IH]; [done|]. simpl. rewrite IH. apply orb_true_r.
Qed.

Lemma app_slash_not_root p : p ≠ "" → p +:+ "/" ≠ "/".
Proof. destruct p as [|c [|d p]]; done. Qed.

Lemma finished_no_slash r :
  endsWith (pathname r) "/" = false →
  finished r = toString (set_host (toLowerCase (host r)) r).
Proof. intros H. unfold finished. by rewrite H, andb_false_r. Qed.

(** The URL with the extra slash is brought back to the one without. *)
Lemma finished_slash_variant r r' :
  slash_variant r r' → finished (cleared r') = finished (cleared r).
Proof.
  intros (Hne & Hend & Hpath & Hset).
  rewrite (finished_no_slash (cleared r)) by done.
  unfold finished. rewrite Hpath, endsWith_app_slash.
  rewrite bool_decide_eq_false_2 by by apply app_slash_not_root.
  simpl. by rewrite slice_0_m1_app_slash, Hset.
Qed.

Lemma cleared_tracking_variant r r' :
  tracking_variant r r' → cleared r = cleared r'.
Proof. unfold tracking_variant, cleared. by intros ->. Qed.

End Insensitive.

(** C7, as stated, fails: [https://x.com/a//] is [https://x.com/a/] with
    one more trailing slash in the path, and the two are not equal, one
    slash being removed from each. *)
Lemma equalsAnyUrl_trailing_slash_sensitive :
  @equalsAnyUrl RefUrl (VStr "https://x.com/a/") [VStr "https://x.com/a//"]
  = Ok false.
Proof. reflexivity. Qed.

(** C7 (amended): [equalsAnyUrl(u, [u])] holds exactly when [u] trimmed is
    not empty and has the normal form of [u], so for every non-empty [u]
    without surrounding whitespace. [equalsAnyUrl(u, [u'])] holds when [u]
    and the trimmed [u'], which is not empty, both parse and, the tracking
    parameters and the fragment removed from both, the path of one is not
    empty and does not end in a slash, the path of the other is that path
    followed by one slash, and the pathname setter, given the first path,
    turns the other URL into the first: they differ in nothing else and the
    setter takes effect; or when the two are the same URL once the five
    tracking parameters are deleted from both. On the reference
    implementation: a URL whose path does not end in a slash and the same
    URL with a slash appended to the path match each other, and so do two
    URLs whose queries leave the same parameters once the tracking
    parameters are deleted. *)
Theorem equalsAnyUrl_reflexive_insensitive :
  (∀ (api : UrlApi) u,
     equalsAnyUrl (VStr u) [VStr u] = Ok true
     ↔ trim u ≠ "" ∧ normalize (VStr (trim u)) = normalize (VStr u))
  ∧ (∀ (api : UrlApi) u,
       trim u = u → u ≠ "" → equalsAnyUrl (VStr u) [VStr u] = Ok true)
  ∧ (∀ (api : UrlApi) u u' r r',
       URL_new u = Some r → URL_new (trim u') = Some r' → trim u' ≠ "" →
       slash_variant r r' ∨ slash_variant r' r ∨ tracking_variant r r' →
       equalsAnyUrl (VStr u) [VStr u'] = Ok true)
  ∧ (∀ r,
       Ref.wf r = true → endsWith (Ref.path r) "/" = false →
       let r' := Ref.with_path (Ref.path r +:+ "/") r in
       @equalsAnyUrl RefUrl (VStr (Ref.toString r)) [VStr (Ref.toString r')]
       = Ok true
       ∧ @equalsAnyUrl RefUrl (VStr (Ref.toString r')) [VStr (Ref.toString r)]
         = Ok true)
  ∧ (∀ r q,
       Ref.wf r = true → all_units Ref.query_unit q = true →
       Ref.stripped (Ref.parse_qs q) = Ref.stripped (Ref.searchParams r) →
       let r' := Ref.with_query (Some q) r in
       @equalsAnyUrl RefUrl (VStr (Ref.toString r)) [VStr (Ref.toString r')]
       = Ok true
       ∧ @equalsAnyUrl RefUrl (VStr (Ref.toString r')) [VStr (Ref.toString r)]
         = Ok true).
Proof.
  split; [|split; [|split; [|split]]].
  - intros api u. rewrite equalsAnyUrl_self. unfold matches. split.
    + intros [= [Hne Heq]%andb_prop].
      apply negb_true_iff, bool_decide_eq_false in Hne.
      by apply bool_decide_eq_true in Heq.
    + intros [Hne Heq]. f_equal. by apply matches_normalize.
  - intros api u Ht Hne. rewrite equalsAnyUrl_self. f_equal.
    by apply matches_trimmed.
  - intros api u u' r r' Hu Hu' Hne Hvar.
    change [VStr u'] with (VStr <$> [u']).
    rewrite equalsAnyUrl_strs. simpl. rewrite orb_false_r. f_equal.
    apply matches_normalize; [done|].
    rewrite (normalize_parses _ _ Hu), (normalize_parses _ _ Hu'). f_equal.
    destruct Hvar as [H|[H|H]].
    + by apply finished_slash_variant.
    + symmetry. by apply finished_slash_variant.
    + by rewrite (cleared_tracking_variant r r').
  - intros r Hwf Hend r'.
    pose proof (with_path_slash_wf r Hwf) as Hwf'.
    pose proof (with_path_slash_normal_form r Hwf Hend) as Hsame.
    split; by apply equalsAnyUrl_same_normal_form.
  - intros r q Hwf Hq Hsame r'.
    pose proof (with_query_wf r q Hwf Hq) as Hwf'.
    assert (Ref.normal_form r' = Ref.normal_form r) as Hnf.
    { unfold Ref.normal_form, Ref.searchParams. simpl. by rewrite Hsame. }
    split; by apply equalsAnyUrl_same_normal_form.
Qed.

Lemma equalsAnyUrl_reflexive_insensitive_witness :
  @equalsAnyUrl RefUrl (VStr "https://x.com/a.gif") [VStr "https://x.com/a.gif"]
  = Ok true
  ∧ @equalsAnyUrl RefUrl (VStr "https://x.com/a") [VStr " https://x.com/a/ "]
    = Ok true
  ∧ @equalsAnyUrl RefUrl (VStr "https://x.com/a/") [VStr "https://x.com/a"]
    = Ok true
  ∧ @equalsAnyUrl RefUrl (VStr "https://x.com/a?b=2")
      [VStr "https://x.com/a?utm_source=1&b=2&utm_term=z"]
    = Ok true
  ∧ @equalsAnyUrl RefUrl (VStr "https://media.tenor.com/v/cat.gif#t")
      [VStr "https://media.tenor.com/v/cat.gif/#t"]
    = Ok true
  ∧ @equalsAnyUrl RefUrl (VStr "https://media.tenor.com/v/cat.gif?utm_medium=m")
      [VStr "https://media.tenor.com/v/cat.gif?utm_source=s&utm_term=t"]
    = Ok true.
Proof.
  destruct equalsAnyUrl_reflexive_insensitive
    as (_ & Hrefl & Hvar & Hslash & Htrack).
  split; [by apply (Hrefl RefUrl)|].
  split; [|split; [|split; [|split]]].
  - eapply (Hvar RefUrl); [reflexivity..|discriminate|]. left. by vm_compute.
  - eapply (Hvar RefUrl); [reflexivity..|discriminate|].
    right; left. by vm_compute.
  - eapply (Hvar RefUrl); [reflexivity..|discriminate|].
    right; right. by vm_compute.
  - apply (Hslash {| Ref.scheme := "https"; Ref.hostname := "media.tenor.com";
                     Ref.path := "/v/cat.gif"; Ref.query := None;
                     Ref.fragment := Some "t" |}); reflexivity.
  - apply (Htrack {| Ref.scheme := "https"; Ref.hostname := "media.tenor.com";
                     Ref.path := "/v/cat.gif";
                     Ref.query := Some "utm_medium=m";
                     Ref.fragment := None |}
                  "utm_source=s&utm_term=t"); reflexivity.
Defined.

(* ===================================================================== *)
(** ** Merging URLs into the pattern list (C4) *)
(* ===================================================================== *)

Section Merge.
Context {api : UrlApi}.

Lemma existsb_matches_app u l l' :
  existsb (matches u) l = true → existsb (matches u) (l ++ l') = true.
Proof. intros H. by rewrite existsb_app, H. Qed.

Lemma mergeUrls_step u (merged rest : list string) :
  mergeUrls (VStr <$> merged) (u :: rest)
  = mergeUrls (VStr <$> (if existsb (matches u) merged then merged
                         else merged ++ [u])) rest.
Proof.
  cbn [mergeUrls]. rewrite equalsAnyUrl_strs. cbn [rbind].
  destruct (existsb _ _); [done|]. by rewrite fmap_app.
Qed.

(** What one pass appends, in the order of the loop. *)
Lemma mergeUrls_strs (new existing : list string) :
  ∃ added,
    mergeUrls (VStr <$> existing) new = Ok (VStr <$> (existing ++ added))
    ∧ sublist added new
    ∧ (∀ pre u post, added = pre ++ u :: post →
         existsb (matches u) (existing ++ pre) = false)
    ∧ (∀ u, u ∈ new →
         u ∈ added ∨ existsb (matches u) (existing ++ added) = true).
Proof.
  revert existing. induction new as [|u rest IH]; intros existing.
  - exists []. rewrite app_nil_r. repeat split; [done| |].
    + by intros [|??] ???.
    + by intros ? ?%elem_of_nil.
  - rewrite mergeUrls_step.
    destruct (existsb (matches u) existing) eqn:Hu.
    + destruct (IH existing) as (added & Hm & Hsub & Hfresh & Hcov).
      exists added. repeat split; [done|by apply sublist_cons|done|].
      intros v [->|Hv]%elem_of_cons; [|auto].
      right. by apply existsb_matches_app.
    + destruct (IH (existing ++ [u])) as (added & Hm & Hsub & Hfresh & Hcov).
      exists (u :: added). rewrite <- app_assoc in Hm.
      repeat split; [done|by apply sublist_skip| |].
      * intros [|w pre] v post [= ].
        -- subst. by rewrite app_nil_r.
        -- subst. change (w :: pre) with ([w] ++ pre).
           rewrite app_assoc. eauto.
      * intros v [->|Hv]%elem_of_cons; [left; by left|].
        destruct (Hcov v Hv) as [?|Hin]; [left; by right|right].
        by rewrite <- app_assoc in Hin.
Qed.

(** A pass over URLs that are all matched already appends nothing. *)
Lemma mergeUrls_all_present (new merged : list string) :
  (∀ u, u ∈ new → existsb (matches u) merged = true) →
  mergeUrls (VStr <$> merged) new = Ok (VStr <$> merged).
Proof.
  induction new as [|u rest IH]; intros H; [done|].
  rewrite mergeUrls_step, H by by left.
  apply IH. intros v Hv. apply H. by right.
Qed.

End Merge.

(** C4, as stated, fails: a URL that does not match itself is appended
    again by a second merge. The empty string never matches, empty
    candidates being dropped; [" cat.gif"] does not match itself, the
    candidate being trimmed and the target not. *)
Lemma mergeUrls_not_idempotent :
  @mergeUrls RefUrl [] [""] = Ok [VStr ""]
  ∧ @mergeUrls RefUrl [VStr ""] [""] = Ok [VStr ""; VStr ""]
  ∧ @mergeUrls RefUrl [] [" cat.gif"] = Ok [VStr " cat.gif"]
  ∧ @mergeUrls RefUrl [VStr " cat.gif"] [" cat.gif"]
    = Ok [VStr " cat.gif"; VStr " cat.gif"].
Proof. repeat split. Qed.

(** C4 (amended): [mergeUrls(existing, newUrls)] keeps [existing] as a
    prefix and appends a subsequence of [newUrls]; an element is appended
    exactly when nothing before it in the list matches it under normalized
    equality; every element of [newUrls] is appended or matched by the
    result; and when every element of [newUrls] matches itself
    ([equalsAnyUrl(u, [u])]), a second merge of [newUrls] appends nothing. *)
Theorem mergeUrls_appends_absent `{api : UrlApi} (existing new : list string) :
  ∃ added,
    mergeUrls (VStr <$> existing) new = Ok (VStr <$> (existing ++ added))
    ∧ sublist added new
    ∧ (∀ pre u post, added = pre ++ u :: post →
         equalsAnyUrl (VStr u) (VStr <$> (existing ++ pre)) = Ok false)
    ∧ (∀ u, u ∈ new →
         u ∈ added
         ∨ equalsAnyUrl (VStr u) (VStr <$> (existing ++ added)) = Ok true)
    ∧ ((∀ u, u ∈ new → equalsAnyUrl (VStr u) [VStr u] = Ok true) →
       mergeUrls (VStr <$> (existing ++ added)) new
       = Ok (VStr <$> (existing ++ added))).
Proof.
  destruct (mergeUrls_strs new existing) as (added & Hm & Hsub & Hfresh & Hcov).
  exists added. repeat split; [done|done| | |].
  - intros pre u post E. rewrite equalsAnyUrl_strs. f_equal. eauto.
  - intros u Hu. rewrite equalsAnyUrl_strs.
    destruct (Hcov u Hu) as [?|Hin]; [by left|right; by rewrite Hin].
  - intros Hrefl. apply mergeUrls_all_present. intros u Hu.
    destruct (Hcov u Hu) as [Hin|?]; [|done].
    apply existsb_exists. exists u. split.
    + apply list_elem_of_In, elem_of_app. by right.
    + specialize (Hrefl u Hu). rewrite equalsAnyUrl_self in Hrefl.
      by injection Hrefl.
Qed.

Lemma mergeUrls_appends_absent_witness :
  @mergeUrls RefUrl [VStr "a"] ["a"; "b"] = Ok [VStr "a"; VStr "b"]
  ∧ @mergeUrls RefUrl [VStr "a"; VStr "b"] ["a"; "b"]
    = Ok [VStr "a"; VStr "b"].
Proof.
  destruct (@mergeUrls_appends_absent RefUrl ["a"] ["a"; "b"])
    as (added & Hm & _ & _ & _ & Hidem).
  assert (added = ["b"]) as ->.
  { vm_compute in Hm. destruct added as [|x [|y added]]; by simplify_eq. }
  split; [exact Hm|].
  apply Hidem. intros u [->|[->|[]%elem_of_nil]%elem_of_cons]%elem_of_cons;
    reflexivity.
Defined.

(* ===================================================================== *)
(** ** isGifUrl (C2) *)
(* ===================================================================== *)

Section GifUrl.
Context {api : UrlApi}.

Lemma lower_unit_dot d : lower_unit d = "."%char → d = "."%char.
Proof.
  destruct d as [[] [] [] [] [] [] [] []]; vm_compute; congruence.
Qed.

Lemma test_gif_regex_cons c s :
  test_gif_regex (String c s) = gif_here (String c s) || test_gif_regex s.
Proof. reflexivity. Qed.

Lemma gif_here_matches s : gif_here s = true → matches_gif_regex s.
Proof.
  destruct s as [|d [|g [|i [|f rest]]]]; try done. simpl.
  intros [[[[Hd Hg]%andb_prop Hi]%andb_prop Hf]%andb_prop Hrest]%andb_prop.
  exists "", (String d (String g (String i (String f "")))), rest.
  apply bool_decide_eq_true in Hd, Hg, Hi, Hf. subst d.
  split; [done|]. split.
  - simpl. by rewrite Hg, Hi, Hf.
  - destruct rest as [|q rest]; [by left|right].
    apply bool_decide_eq_true in Hrest. subst. eauto.
Qed.

Lemma matches_here ext post :
  toLowerCase ext = ".gif" →
  (post = "" ∨ ∃ r, post = String "?" r) →
  gif_here (ext +:+ post) = true.
Proof.
  destruct ext as [|d [|g [|i [|f [|x ext]]]]]; try done. simpl.
  intros [= Hd%lower_unit_dot Hg Hi Hf] Hpost. subst d.
  rewrite Hg, Hi, Hf. simpl.
  destruct Hpost as [->|[r ->]]; done.
Qed.

(** The regular expression, as a statement about the string. *)
Lemma test_gif_regex_spec s : test_gif_regex s = true ↔ matches_gif_regex s.
Proof.
  split.
  - induction s as [|c s IH]; [done|].
    rewrite test_gif_regex_cons. intros [H|H]%orb_prop.
    + by apply gif_here_matches.
    + destruct (IH H) as (pre & ext & post & -> & Hext & Hpost).
      by exists (String c pre), ext, post.
  - intros (pre & ext & post & -> & Hext & Hpost).
    induction pre as [|c pre IH].
    + rewrite app_empty_l.
      pose proof (matches_here ext post Hext Hpost) as Hh.
      destruct (ext +:+ post) as [|c s]; [done|].
      by rewrite test_gif_regex_cons, Hh.
    + rewrite app_String, test_gif_regex_cons, IH. apply orb_true_r.
Qed.

Lemma isGifUrl_parsed s r :
  s ≠ "" → URL_new s = Some r →
  isGifUrl (VStr s) = true
  ↔ endsWith (toLowerCase (pathname r)) ".gif" = true
    ∨ searchParams_get "animated" r = Some "true"
    ∨ matches_gif_regex s.
Proof.
  intros Hne Hr. unfold isGifUrl. simpl.
  rewrite bool_decide_eq_false_2, Hr by done. simpl.
  rewrite <- test_gif_regex_spec.
  destruct (endsWith _ _); [intuition congruence|].
  destruct (bool_decide_reflect (searchParams_get "animated" r = Some "true"));
    intuition congruence.
Qed.

Lemma isGifUrl_unparsed s :
  s ≠ "" → URL_new s = None →
  isGifUrl (VStr s) = true ↔ matches_gif_regex s.
Proof.
  intros Hne Hr. unfold isGifUrl. simpl.
  rewrite bool_decide_eq_false_2, Hr by done. simpl.
  by rewrite <- test_gif_regex_spec.
Qed.

End GifUrl.

(** C2, as stated, fails: [https://x.com/a.png#.gif] and
    [https://x.com/view?file=a.gif] parse, their paths do not end in [.gif]
    and they have no [animated] parameter, yet [isGifUrl] answers true, the
    regular expression being tried on the whole string after the two tests
    on the parsed URL. *)
Lemma isGifUrl_regex_after_parse :
  (∃ r, @URL_new RefUrl "https://x.com/a.png#.gif" = Some r
        ∧ endsWith (toLowerCase (@pathname RefUrl r)) ".gif" = false
        ∧ @searchParams_get RefUrl "animated" r = None
        ∧ @isGifUrl RefUrl (VStr "https://x.com/a.png#.gif") = true)
  ∧ (∃ r, @URL_new RefUrl "https://x.com/view?file=a.gif" = Some r
          ∧ endsWith (toLowerCase (@pathname RefUrl r)) ".gif" = false
          ∧ @searchParams_get RefUrl "animated" r = None
          ∧ @isGifUrl RefUrl (VStr "https://x.com/view?file=a.gif") = true).
Proof. split; (eexists; split; [reflexivity|by vm_compute]). Qed.

(** C2 (amended): for a non-empty string that parses as a URL, [isGifUrl]
    is true exactly when the parsed path, lowercased, ends in [.gif], or the
    [animated] parameter is ["true"], or the string itself matches
    [/\.gif(?:\?|$)/i]; for a non-empty string that does not parse, exactly
    when it matches the regular expression. It is false for an absent or
    empty argument and for [https://x.com/a.png]. *)
Theorem isGifUrl_characterised :
  (∀ (api : UrlApi) s r,
     s ≠ "" → URL_new s = Some r →
     isGifUrl (VStr s) = true
     ↔ endsWith (toLowerCase (pathname r)) ".gif" = true
       ∨ searchParams_get "animated" r = Some "true"
       ∨ matches_gif_regex s)
  ∧ (∀ (api : UrlApi) s,
       s ≠ "" → URL_new s = None →
       isGifUrl (VStr s) = true ↔ matches_gif_regex s)
  ∧ (∀ api : UrlApi,
       isGifUrl VUndefined = false ∧ isGifUrl VNull = false
       ∧ isGifUrl (VStr "") = false)
  ∧ @isGifUrl RefUrl (VStr "https://x.com/a.png") = false.
Proof.
  split; [exact @isGifUrl_parsed|].
  split; [exact @isGifUrl_unparsed|].
  split; [done|reflexivity].
Qed.

Lemma isGifUrl_characterised_witness :
  @isGifUrl RefUrl (VStr "https://x.com/a.GIF") = true
  ∧ @isGifUrl RefUrl (VStr "https://x.com/a.png?animated=true") = true
  ∧ @isGifUrl RefUrl (VStr "clip.gif?size=2") = true.
Proof.
  destruct isGifUrl_characterised as (Hparsed & Hunparsed & _).
  split; [|split].
  - eapply (Hparsed RefUrl); [discriminate|reflexivity|]. by left.
  - eapply (Hparsed RefUrl); [discriminate|reflexivity|]. right. by left.
  - apply (Hunparsed RefUrl); [discriminate|reflexivity|].
    by exists "clip", ".gif", "?size=2"; eauto.
Defined.

(* ===================================================================== *)
(** ** What the methods leave alone *)
(* ===================================================================== *)

Section Frames.
Context {api : UrlApi}.
Variable P : State → State → Prop.
Hypothesis P_refl : ∀ s, P s s.
Hypothesis P_trans : ∀ s1 s2 s3, P s1 s2 → P s2 s3 → P s1 s3.
Hypothesis P_logged : ∀ msg, preserves P (logger_error msg).

Lemma preserves_ret {A} (a : A) : preserves P (ret a).
Proof. intros s. apply P_refl. Qed.

Lemma preserves_lift {A} (r : result A) : preserves P (lift r).
Proof. intros s. apply P_refl. Qed.

Lemma preserves_gets {A} (f : State → A) : preserves P (gets f).
Proof. intros s. apply P_refl. Qed.

Lemma preserves_bind {A B} (m : M A) (k : A → M B) :
  preserves P m → (∀ a, preserves P (k a)) → preserves P (bind m k).
Proof.
  intros Hm Hk s. unfold bind. specialize (Hm s).
  destruct (m s) as [[a|e] s']; simpl in *; [|done].
  eapply P_trans; [done|apply Hk].
Qed.

Lemma preserves_try_catch {A} (m : M A) (h : string → M A) :
  preserves P m → (∀ e, preserves P (h e)) → preserves P (try_catch m h).
Proof.
  intros Hm Hh s. unfold try_catch. specialize (Hm s).
  destruct (m s) as [[a|e] s']; simpl in *; [done|].
  eapply P_trans; [done|apply Hh].
Qed.

Lemma preserves_filterM {A} (f : A → M bool) (l : list A) :
  (∀ x, x ∈ l → preserves P (f x)) → preserves P (filterM f l).
Proof.
  induction l as [|x l IH]; intros Hf; simpl; [apply preserves_ret|].
  apply preserves_bind; [apply Hf; by left|]. intros keep.
  apply preserves_bind; [|intros; apply preserves_ret].
  apply IH. intros y Hy. apply Hf. by right.
Qed.

Lemma preserves_shouldBlockUrl u : preserves P (_shouldBlockUrl u).
Proof.
  unfold _shouldBlockUrl.
  destruct (negb (truthy u)); [apply preserves_ret|].
  destruct (negb (isGifUrl u)); [apply preserves_ret|].
  apply preserves_try_catch.
  - apply preserves_bind; [apply preserves_gets|].
    intros; apply preserves_lift.
  - intros e. apply preserves_bind; [apply P_logged|].
    intros; apply preserves_ret.
Qed.

Lemma preserves_shouldBlockEmbed e m :
  preserves P (_markBlocked (opt_id message_id m)) →
  preserves P (_shouldBlockEmbed e m).
Proof.
  intros Hmark. unfold _shouldBlockEmbed, shouldBlockEmbed_try.
  apply preserves_try_catch.
  - apply preserves_bind; [apply preserves_gets|]. intros unblocked.
    destruct unblocked; [apply preserves_ret|].
    destruct (negb _); [apply preserves_ret|].
    apply preserves_bind.
    + destruct (strict_eq_str _ _); [|apply preserves_shouldBlockUrl].
      destruct (truthy _); [|apply preserves_ret].
      apply preserves_bind; [apply preserves_gets|].
      intros; apply preserves_lift.
    + intros shouldBlock. apply preserves_bind; [|intros; apply preserves_ret].
      destruct shouldBlock; [done|apply preserves_ret].
  - intros err. apply preserves_bind; [apply P_logged|].
    intros; apply preserves_ret.
Qed.

Lemma preserves_keep_attachment att :
  preserves P (_markBlocked (opt_id att_message_id att)) →
  preserves P (keep_attachment att).
Proof.
  intros Hmark. unfold keep_attachment.
  apply preserves_bind; [apply preserves_gets|]. intros unblocked.
  destruct unblocked; [apply preserves_ret|].
  apply preserves_bind; [apply preserves_lift|]. intros lowered.
  destruct (negb _); [apply preserves_ret|].
  apply preserves_bind; [apply preserves_shouldBlockUrl|].
  intros shouldBlock. apply preserves_bind; [|intros; apply preserves_ret].
  destruct shouldBlock; [done|apply preserves_ret].
Qed.

Lemma preserves_filterAttachments arr :
  (∀ l att, arr = IsArray l → att ∈ l →
     preserves P (_markBlocked (opt_id att_message_id att))) →
  preserves P (_filterAttachments arr).
Proof.
  intros Hmark. unfold _filterAttachments, filterAttachments_try.
  apply preserves_try_catch.
  - destruct arr as [v|l]; [apply preserves_ret|].
    apply preserves_bind; [|intros; apply preserves_ret].
    apply preserves_filterM. intros att Hatt.
    apply preserves_keep_attachment. by eapply Hmark.
  - intros err. apply preserves_bind; [apply P_logged|].
    intros; apply preserves_ret.
Qed.

End Frames.

(* ===================================================================== *)
(** ** The blocked set only grows (C8) *)
(* ===================================================================== *)

Section Monotonic.
Context {api : UrlApi}.

Lemma blocked_grows_refl s : blocked_grows s s.
Proof. unfold blocked_grows. set_solver. Qed.

Lemma blocked_grows_trans s1 s2 s3 :
  blocked_grows s1 s2 → blocked_grows s2 s3 → blocked_grows s1 s3.
Proof. unfold blocked_grows. set_solver. Qed.

Lemma blocked_grows_logged msg : preserves blocked_grows (logger_error msg).
Proof. intros s. unfold blocked_grows. simpl. set_solver. Qed.

Lemma blocked_grows_markBlocked i : preserves blocked_grows (_markBlocked i).
Proof.
  intros s. unfold _markBlocked, blocked_grows.
  destruct i as [x|]; [|done]. destruct (id_truthy _); [|done].
  simpl. set_solver.
Qed.

Lemma step_blocked_grows s o s' : step s o s' → blocked_grows s s'.
Proof.
  destruct 1.
  - apply (preserves_shouldBlockEmbed blocked_grows blocked_grows_refl
             blocked_grows_trans blocked_grows_logged).
    apply blocked_grows_markBlocked.
  - apply (preserves_filterAttachments blocked_grows blocked_grows_refl
             blocked_grows_trans blocked_grows_logged).
    intros. apply blocked_grows_markBlocked.
  - by unfold blocked_grows.
  - by unfold blocked_grows.
  - unfold _addUrlsToBlocklistAndRefresh, bind, gets, lift, blocked_grows.
    simpl. by destruct (mergeUrls _ _).
  - by unfold blocked_grows.
  - by unfold blocked_grows.
  - by unfold blocked_grows.
Qed.

End Monotonic.

(** C8: over any sequence of operations of a session (classifying embeds,
    filtering attachments, reveal, hide again, block these, edits of the
    pattern list) every id in [blockedMessageIds] stays there. *)
Theorem blockedMessageIds_monotonic `{api : UrlApi} s ops s' :
  steps s ops s' → blockedMessageIds s ⊆ blockedMessageIds s'.
Proof.
  induction 1 as [s|s o s1 os s2 Hstep _ IH]; [done|].
  apply step_blocked_grows in Hstep. unfold blocked_grows in Hstep.
  set_solver.
Qed.

Lemma blockedMessageIds_monotonic_witness :
  ∃ s',
    @steps RefUrl
      (@_shouldBlockEmbed RefUrl (Some tco_embed) (Some m1) tco_state).2
      [Reveal "m1"; ClassifyEmbed (Some tco_embed) (Some m1);
       EditRemove 0; HideAgain "m1"; BlockThese ["https://t.co/y.gif"];
       FilterAttachments (IsArray [])]
      s'
    ∧ "m1" ∈ blockedMessageIds s'.
Proof.
  eexists. split.
  - repeat (eapply steps_cons; [constructor|]). apply steps_nil.
  - eapply (blockedMessageIds_monotonic
              (@_shouldBlockEmbed RefUrl (Some tco_embed) (Some m1) tco_state).2
              [Reveal "m1"; ClassifyEmbed (Some tco_embed) (Some m1);
               EditRemove 0; HideAgain "m1"; BlockThese ["https://t.co/y.gif"];
               FilterAttachments (IsArray [])]).
    + repeat (eapply steps_cons; [constructor|]). apply steps_nil.
    + by vm_compute.
Defined.

(* ===================================================================== *)
(** ** Attachments without a message id (C9) *)
(* ===================================================================== *)

Section NoMessageId.
Context {api : UrlApi}.

Lemma markBlocked_falsy i s :
  id_truthy i = false → _markBlocked i s = (Ok tt, s).
Proof. intros H. unfold _markBlocked. destruct i; by rewrite ?H. Qed.

Lemma blocked_same_refl s : blocked_same s s.
Proof. done. Qed.

Lemma blocked_same_trans s1 s2 s3 :
  blocked_same s1 s2 → blocked_same s2 s3 → blocked_same s1 s3.
Proof. unfold blocked_same. congruence. Qed.

Lemma blocked_same_logged msg : preserves blocked_same (logger_error msg).
Proof. by intros s. Qed.

Lemma blocked_same_markBlocked i :
  id_truthy i = false → preserves blocked_same (_markBlocked i).
Proof. intros H s. by rewrite markBlocked_falsy. Qed.

End NoMessageId.

(** C9: [_markBlocked] does nothing for an absent or empty id; so the
    filter callback leaves [blockedMessageIds] as it was on an attachment
    without a message id, and so does [_filterAttachments] on an array of
    such attachments, also when attachments are removed, as the GIF of
    [gif_attachment None] is. *)
Theorem filterAttachments_without_message_id :
  (∀ i s, id_truthy i = false → _markBlocked i s = (Ok tt, s))
  ∧ (∀ (api : UrlApi) att s,
       id_truthy (opt_id att_message_id att) = false →
       blockedMessageIds (keep_attachment att s).2 = blockedMessageIds s)
  ∧ (∀ (api : UrlApi) l s,
       (∀ att, att ∈ l → id_truthy (opt_id att_message_id att) = false) →
       blockedMessageIds (_filterAttachments (IsArray l) s).2
       = blockedMessageIds s)
  ∧ (@_filterAttachments RefUrl (IsArray [Some (gif_attachment None)])
       (xcom_state ∅)).1
    = Ok (IsArray []).
Proof.
  split; [exact markBlocked_falsy|]. split; [|split; [|reflexivity]].
  - intros api att s Hatt.
    apply (preserves_keep_attachment blocked_same blocked_same_refl
             blocked_same_trans blocked_same_logged).
    by apply blocked_same_markBlocked.
  - intros api l s Hl.
    apply (preserves_filterAttachments blocked_same blocked_same_refl
             blocked_same_trans blocked_same_logged).
    intros l' att [= <-] Hatt. by apply blocked_same_markBlocked, Hl.
Qed.

Lemma filterAttachments_without_message_id_witness :
  blockedMessageIds
    (@_filterAttachments RefUrl
       (IsArray [Some (gif_attachment None); None;
                 Some (gif_attachment (Some ""))])
       (xcom_state ∅)).2
  = ∅
  ∧ (@_filterAttachments RefUrl
       (IsArray [Some (gif_attachment None); None;
                 Some (gif_attachment (Some ""))])
       (xcom_state ∅)).1
    = Ok (IsArray [None]).
Proof.
  split; [|reflexivity].
  apply (proj1 (proj2 (proj2 filterAttachments_without_message_id)) RefUrl).
  intros att Hatt.
  repeat (apply elem_of_cons in Hatt as [->|Hatt]; [reflexivity|]).
  by apply elem_of_nil in Hatt.
Defined.

(* ===================================================================== *)
(** ** The temporary unblock (C1) *)
(* ===================================================================== *)

Section Bypass.
Context {api : UrlApi}.

Lemma settings_same_refl s : settings_same s s.
Proof. done. Qed.

Lemma settings_same_trans s1 s2 s3 :
  settings_same s1 s2 → settings_same s2 s3 → settings_same s1 s3.
Proof. unfold settings_same. intros [] []. split; congruence. Qed.

Lemma settings_same_logged msg : preserves settings_same (logger_error msg).
Proof. by intros s. Qed.

Lemma settings_same_markBlocked i : preserves settings_same (_markBlocked i).
Proof.
  intros s. unfold _markBlocked.
  destruct i; [|done]. by destruct (id_truthy _).
Qed.

Lemma settings_same_keep_attachment att :
  preserves settings_same (keep_attachment att).
Proof.
  apply (preserves_keep_attachment settings_same settings_same_refl
           settings_same_trans settings_same_logged).
  apply settings_same_markBlocked.
Qed.

Lemma shouldBlockEmbed_unblocked e m id s :
  message_id m = Some id →
  id ∈ temporarilyUnblockedMessageIds s →
  _shouldBlockEmbed e (Some m) s = (Ok false, s).
Proof.
  intros Hid Hin.
  unfold _shouldBlockEmbed, shouldBlockEmbed_try, try_catch, bind, gets.
  simpl. rewrite Hid. simpl. by rewrite bool_decide_eq_true_2.
Qed.

Lemma keep_attachment_unblocked att id s :
  att_message_id att = Some id → id ≠ "" →
  id ∈ temporarilyUnblockedMessageIds s →
  keep_attachment (Some att) s = (Ok true, s).
Proof.
  intros Hid Hne Hin. unfold keep_attachment, bind, gets. simpl.
  rewrite Hid. simpl.
  by rewrite bool_decide_eq_false_2, bool_decide_eq_true_2.
Qed.

(** Whatever [filter] returns contains the attachments of an unblocked
    message. *)
Lemma filterM_keeps_unblocked att id l :
  att_message_id att = Some id → id ≠ "" → Some att ∈ l →
  ∀ s out s',
    id ∈ temporarilyUnblockedMessageIds s →
    filterM keep_attachment l s = (Ok out, s') →
    Some att ∈ out.
Proof.
  intros Hid Hne. induction l as [|x l IH]; intros Hin s out s' Hs Hrun.
  - by apply elem_of_nil in Hin.
  - cbn [filterM] in Hrun. unfold bind at 1 in Hrun.
    pose proof (settings_same_keep_attachment x s) as [Hsame _].
    destruct (keep_attachment x s) as [[keep|e] s1] eqn:Hx; [|done].
    simpl in Hsame. unfold bind at 1 in Hrun.
    destruct (filterM keep_attachment l s1) as [[out'|e] s2] eqn:Hl; [|done].
    unfold ret in Hrun. injection Hrun as <- <-.
    apply elem_of_cons in Hin as [<-|Hin].
    + rewrite (keep_attachment_unblocked att id s) in Hx by done.
      injection Hx as <- <-. by left.
    + assert (Some att ∈ out') as Hout.
      { eapply IH; [done| |done]. by rewrite Hsame. }
      destruct keep; [by right|done].
Qed.

End Bypass.

(** C1, as stated, fails for the empty id: with [""] in
    [temporarilyUnblockedMessageIds], the attachment of message [""] whose
    URL is in the pattern list is removed by [_filterAttachments], the test
    [att?.message_id && ...] being false for an empty id. *)
Lemma filterAttachments_empty_id_not_bypassed :
  "" ∈ temporarilyUnblockedMessageIds (xcom_state {[ "" ]})
  ∧ att_message_id (gif_attachment (Some "")) = Some ""
  ∧ (@_filterAttachments RefUrl (IsArray [Some (gif_attachment (Some ""))])
       (xcom_state {[ "" ]})).1
    = Ok (IsArray []).
Proof. split; [by vm_compute|]. split; [reflexivity|by vm_compute]. Qed.

(** C1 (amended): for every id in [temporarilyUnblockedMessageIds],
    [_shouldBlockEmbed] returns false for every embed of that message and
    changes nothing; for every such id other than the empty string,
    [_filterAttachments] returns an array that contains every attachment of
    the input carrying that id; whatever the pattern list holds. *)
Theorem unblocked_message_bypasses `{api : UrlApi} (id : string) (s : State) :
  id ∈ temporarilyUnblockedMessageIds s →
  (∀ e m, message_id m = Some id →
     _shouldBlockEmbed e (Some m) s = (Ok false, s))
  ∧ (id ≠ "" →
     ∀ l att, Some att ∈ l → att_message_id att = Some id →
       ∃ out, (_filterAttachments (IsArray l) s).1 = Ok (IsArray out)
              ∧ Some att ∈ out).
Proof.
  intros Hin. split.
  - intros e m Hid. by apply shouldBlockEmbed_unblocked with id.
  - intros Hne l att Hatt Hid.
    unfold _filterAttachments, filterAttachments_try, try_catch.
    unfold bind at 1.
    destruct (filterM keep_attachment l s) as [[out|e] s'] eqn:Hrun.
    + exists out. split; [done|].
      by eapply filterM_keeps_unblocked.
    + by exists l.
Qed.

Lemma unblocked_message_bypasses_witness :
  @_shouldBlockEmbed RefUrl (Some tco_embed) (Some m1)
       (xcom_state {[ "m1" ]})
  = (Ok false, xcom_state {[ "m1" ]})
  ∧ ∃ out,
      (@_filterAttachments RefUrl
         (IsArray [Some (gif_attachment (Some "m2"));
                   Some (gif_attachment (Some "m1"))])
         (xcom_state {[ "m1" ]})).1
      = Ok (IsArray out)
      ∧ Some (gif_attachment (Some "m1")) ∈ out.
Proof.
  assert ("m1" ∈ temporarilyUnblockedMessageIds (xcom_state {[ "m1" ]}))
    as Hin by (by vm_compute).
  destruct (@unblocked_message_bypasses RefUrl "m1" _ Hin) as [Hembed Hatt].
  split; [by apply Hembed|].
  apply Hatt; [discriminate|by right; left|reflexivity].
Defined.

(* ===================================================================== *)
(** ** gifv embeds (C3) *)
(* ===================================================================== *)

Section Gifv.
Context {api : UrlApi}.

(** The URL [_shouldBlockEmbed] resolves for an embed (line 174). *)
Lemma resolved_url_first e :
  truthy (embed_url e) = true →
  or_else (embed_url e)
    (or_else (opt_field media_url (embed_image e))
             (opt_field media_url (embed_thumbnail e)))
  = embed_url e.
Proof. intros H. unfold or_else at 1. by rewrite H. Qed.

Lemma markBlocked_returns i s : ∃ s', _markBlocked i s = (Ok tt, s').
Proof.
  unfold _markBlocked. destruct i; [|by eexists].
  destruct (id_truthy _); by eexists.
Qed.

Lemma shouldBlockEmbed_gifv e m s :
  embed_type e = VStr "gifv" →
  set_has (temporarilyUnblockedMessageIds s) (opt_id message_id m) = false →
  let u :=
    or_else (embed_url e)
      (or_else (opt_field media_url (embed_image e))
               (opt_field media_url (embed_thumbnail e))) in
  (_shouldBlockEmbed (Some e) m s).1
  = Ok (if truthy u
        then match equalsAnyUrl u (patterns s) with
             | Ok b => b
             | Throw _ => false
             end
        else false).
Proof.
  intros Htype Hset u.
  unfold _shouldBlockEmbed, shouldBlockEmbed_try, try_catch.
  unfold bind at 1, gets at 1. rewrite Hset. simpl. rewrite Htype. simpl.
  fold u. destruct (truthy u); [|done].
  unfold bind, gets, lift. simpl.
  destruct (equalsAnyUrl u (patterns s)) as [[|]|err]; simpl; [|done..].
  by destruct (markBlocked_returns (opt_id message_id m) s) as [s' ->].
Qed.

End Gifv.

(** C3, as stated, fails: a [gifv] embed without a [url] but with an
    [image.url] that is in the pattern list is blocked. *)
Lemma gifv_without_url_blocked :
  embed_url image_only_embed = VUndefined
  ∧ (@_shouldBlockEmbed RefUrl (Some image_only_embed) (Some m1) tco_state).1
    = Ok true.
Proof. split; [reflexivity|by vm_compute]. Qed.

(** C3 (amended): for a [gifv] embed of a message that is not temporarily
    unblocked, [_shouldBlockEmbed] answers [equalsAnyUrl(url, patterns)]
    for the first non-empty of [embed.url], [embed.image.url] and
    [embed.thumbnail.url] (false should the comparison throw); that is
    [embed.url] when it is present; the answer is false when none of the
    three is present. *)
Theorem gifv_embed_decided_by_resolved_url `{api : UrlApi} e m s :
  embed_type e = VStr "gifv" →
  set_has (temporarilyUnblockedMessageIds s) (opt_id message_id m) = false →
  let u :=
    or_else (embed_url e)
      (or_else (opt_field media_url (embed_image e))
               (opt_field media_url (embed_thumbnail e))) in
  (_shouldBlockEmbed (Some e) m s).1
  = Ok (if truthy u
        then match equalsAnyUrl u (patterns s) with
             | Ok b => b
             | Throw _ => false
             end
        else false)
  ∧ (truthy (embed_url e) = true → u = embed_url e)
  ∧ (truthy u = false → (_shouldBlockEmbed (Some e) m s).1 = Ok false).
Proof.
  intros Htype Hset u. split; [by apply shouldBlockEmbed_gifv|]. split.
  - apply resolved_url_first.
  - intros Hu. rewrite shouldBlockEmbed_gifv by done. fold u. by rewrite Hu.
Qed.

Lemma gifv_embed_decided_by_resolved_url_witness :
  (@_shouldBlockEmbed RefUrl (Some tco_embed) (Some m1) tco_state).1
  = Ok true
  ∧ (@_shouldBlockEmbed RefUrl (Some tco_embed) (Some m1)
       (xcom_state ∅)).1
    = Ok false.
Proof.
  split.
  - exact (proj1 (@gifv_embed_decided_by_resolved_url RefUrl tco_embed
                    (Some m1) tco_state eq_refl eq_refl)).
  - exact (proj1 (@gifv_embed_decided_by_resolved_url RefUrl tco_embed
                    (Some m1) (xcom_state ∅) eq_refl eq_refl)).
Defined.

(* ===================================================================== *)
(** * Further properties of the plugin *)
(* ===================================================================== *)

(* ===================================================================== *)
(** ** equalsAnyUrl on any pattern list *)
(* ===================================================================== *)

Section AnyPatterns.
Context {api : UrlApi}.

Lemma strings_only l :
  forallb is_string l = true → ∃ ss : list string, l = VStr <$> ss.
Proof.
  induction l as [|v l IH]; [by exists []|]. simpl.
  intros [Hv Hl]%andb_prop. destruct (IH Hl) as [ss ->].
  destruct v as [| |c|]; try done. by exists (c :: ss).
Qed.

Lemma forallb_is_string_fmap (ss : list string) :
  forallb is_string (VStr <$> ss) = true.
Proof. by induction ss. Qed.

Lemma rmap_call_trim_throws l :
  forallb is_string l = false → rmap call_trim l = Throw "TypeError".
Proof.
  induction l as [|v l IH]; [done|]. simpl.
  destruct v as [| |c|]; try done. simpl. intros Hl. by rewrite IH.
Qed.

Lemma equalsAnyUrl_hits u (ss : list string) :
  equalsAnyUrl u (VStr <$> ss) = Ok (existsb (hits u) ss).
Proof.
  unfold equalsAnyUrl. rewrite rmap_call_trim_strs. simpl. f_equal.
  induction ss as [|c ss IH]; csimpl; [done|].
  rewrite filter_cons. unfold hits at 1.
  destruct (decide _) as [Ht|Ht]; simpl in Ht.
  - apply Is_true_true in Ht. rewrite Ht. simpl. by rewrite IH.
  - apply Is_true_false in Ht. rewrite Ht. simpl. apply IH.
Qed.

Lemma equalsAnyUrl_throws u l :
  forallb is_string l = false → equalsAnyUrl u l = Throw "TypeError".
Proof.
  intros Hl. unfold equalsAnyUrl. by rewrite rmap_call_trim_throws.
Qed.

Lemma matched_hits u (ss : list string) :
  matched u (VStr <$> ss) = existsb (hits u) ss.
Proof. unfold matched. by rewrite equalsAnyUrl_hits. Qed.

Lemma matched_throws u l : forallb is_string l = false → matched u l = false.
Proof. intros Hl. unfold matched. by rewrite equalsAnyUrl_throws. Qed.

Lemma existsb_Permutation {A} (f : A → bool) l l' :
  l ≡ₚ l' → existsb f l = existsb f l'.
Proof.
  induction 1 as [|x l l' _ IH|x y l|l1 l2 l3 _ IH1 _ IH2]; simpl.
  - done.
  - by rewrite IH.
  - by rewrite !orb_assoc, (orb_comm (f y)).
  - congruence.
Qed.

Lemma forallb_Permutation {A} (f : A → bool) l l' :
  l ≡ₚ l' → forallb f l = forallb f l'.
Proof.
  induction 1 as [|x l l' _ IH|x y l|l1 l2 l3 _ IH1 _ IH2]; simpl.
  - done.
  - by rewrite IH.
  - by rewrite !andb_assoc, (andb_comm (f y)).
  - congruence.
Qed.

Lemma equalsAnyUrl_strings u l :
  forallb is_string l = true →
  equalsAnyUrl u l
  = Ok (existsb (fun v => match v with VStr c => hits u c | _ => false end) l).
Proof.
  intros [ss ->]%strings_only. rewrite equalsAnyUrl_hits. f_equal.
  induction ss as [|c ss IH]; csimpl; [done|]. by rewrite IH.
Qed.

Lemma equalsAnyUrl_Permutation u l l' :
  l ≡ₚ l' → equalsAnyUrl u l = equalsAnyUrl u l'.
Proof.
  intros Hp. pose proof (forallb_Permutation is_string _ _ Hp) as Hs.
  destruct (forallb is_string l) eqn:Hl.
  - rewrite !equalsAnyUrl_strings by done. f_equal.
    by apply existsb_Permutation.
  - by rewrite !equalsAnyUrl_throws.
Qed.

Lemma matched_app u l l' :
  forallb is_string (l ++ l') = true →
  matched u (l ++ l') = matched u l || matched u l'.
Proof.
  intros Hs. pose proof Hs as Hs'. rewrite forallb_app in Hs'.
  apply andb_prop in Hs' as [Hl Hl']. unfold matched.
  rewrite !equalsAnyUrl_strings by done. apply existsb_app.
Qed.

End AnyPatterns.

(** X1: [equalsAnyUrl] throws a TypeError exactly when the pattern list
    holds an entry that is not a string, whatever the target and whatever
    the other entries match; on a list of strings it returns. *)
Theorem equalsAnyUrl_throws_on_non_string `{api : UrlApi} u l :
  (forallb is_string l = false → equalsAnyUrl u l = Throw "TypeError")
  ∧ (forallb is_string l = true → ∃ b, equalsAnyUrl u l = Ok b).
Proof.
  split; [apply equalsAnyUrl_throws|].
  intros Hl. rewrite equalsAnyUrl_strings by done. eauto.
Qed.

Lemma equalsAnyUrl_throws_on_non_string_witness :
  @equalsAnyUrl RefUrl (VStr "https://t.co/x.gif")
    [VStr "https://t.co/x.gif"; VNull]
  = Throw "TypeError"
  ∧ ∃ b, @equalsAnyUrl RefUrl (VStr "https://t.co/x.gif")
           [VStr "https://t.co/x.gif"; VStr ""] = Ok b.
Proof.
  split.
  - by apply (@equalsAnyUrl_throws_on_non_string RefUrl).
  - by apply (@equalsAnyUrl_throws_on_non_string RefUrl).
Defined.

(** X2: the answer of [equalsAnyUrl] does not depend on the order of the
    patterns, and on lists of strings a concatenation matches exactly when
    one of its parts does. *)
Theorem equalsAnyUrl_order_irrelevant `{api : UrlApi} u l l' :
  (l ≡ₚ l' → equalsAnyUrl u l = equalsAnyUrl u l')
  ∧ (forallb is_string (l ++ l') = true →
     equalsAnyUrl u (l ++ l')
     = Ok (matched u l || matched u l')).
Proof.
  split; [apply equalsAnyUrl_Permutation|].
  intros Hs. rewrite <- matched_app by done. unfold matched.
  rewrite (equalsAnyUrl_strings u (l ++ l')) by done. done.
Qed.

Lemma equalsAnyUrl_order_irrelevant_witness :
  @equalsAnyUrl RefUrl (VStr "https://x.com/a.gif")
    [VStr "https://t.co/x.gif"; VStr "https://x.com/a.gif/"]
  = @equalsAnyUrl RefUrl (VStr "https://x.com/a.gif")
      [VStr "https://x.com/a.gif/"; VStr "https://t.co/x.gif"]
  ∧ @equalsAnyUrl RefUrl (VStr "https://x.com/a.gif")
      ([VStr "https://t.co/x.gif"] ++ [VStr "https://x.com/a.gif/"])
    = Ok true.
Proof.
  split.
  - apply (@equalsAnyUrl_order_irrelevant RefUrl). apply Permutation_swap.
  - by apply (@equalsAnyUrl_order_irrelevant RefUrl).
Defined.

(* ===================================================================== *)
(** ** What the filters decide *)
(* ===================================================================== *)

Section Decisions.
Context {api : UrlApi}.

Lemma markBlocked_run i s :
  ∃ s', _markBlocked i s = (Ok tt, s')
        ∧ blockedMessageIds s' = blockedMessageIds s ∪ marked i
        ∧ settings_same s s'.
Proof.
  unfold _markBlocked, marked. destruct i as [x|].
  - destruct (id_truthy (Some x)).
    + eexists. split; [done|]. split; [|done]. simpl. apply (comm_L (∪)).
    + exists s. split; [done|]. split; [|done]. by rewrite (right_id_L ∅ (∪)).
  - exists s. split; [done|]. split; [|done]. by rewrite (right_id_L ∅ (∪)).
Qed.

(** [_shouldBlockUrl] returns, and changes the log at most. *)
Lemma shouldBlockUrl_run u s :
  ∃ s', _shouldBlockUrl u s
        = (Ok (truthy u && isGifUrl u && matched u (patterns s)), s')
        ∧ blockedMessageIds s' = blockedMessageIds s
        ∧ settings_same s s'
        ∧ (forallb is_string (patterns s) = true → s' = s).
Proof.
  unfold _shouldBlockUrl, matched.
  destruct (truthy u); simpl; [|by exists s].
  destruct (isGifUrl u); simpl; [|by exists s].
  unfold try_catch, bind, gets, lift. simpl.
  destruct (equalsAnyUrl u (patterns s)) as [b|e] eqn:He.
  - by exists s.
  - eexists. split; [done|]. split; [done|]. split; [done|].
    intros Hs. rewrite equalsAnyUrl_strings in He by done. done.
Qed.

Lemma settings_same_sym s s' : settings_same s s' → settings_same s' s.
Proof. intros [H1 H2]. by split. Qed.

Lemma bypassed_same s s' i :
  settings_same s s' → bypassed s' i = bypassed s i.
Proof. intros [Hu _]. unfold bypassed. by rewrite Hu. Qed.


Lemma drops_same s s' att : settings_same s s' → drops s' att = drops s att.
Proof.
  intros Hs. unfold drops. rewrite (bypassed_same s s') by done.
  destruct Hs as [_ ->]. done.
Qed.

Lemma faults_same s s' att :
  settings_same s s' → faults s' att = faults s att.
Proof. intros Hs. unfold faults. by rewrite (bypassed_same s s'). Qed.

Lemma embed_blocked_same s s' e m :
  settings_same s s' → embed_blocked s' e m = embed_blocked s e m.
Proof. intros [Hu Hp]. unfold embed_blocked. by rewrite Hu, Hp. Qed.

Lemma existsb_same {A} (f g : A → bool) l :
  (∀ a, f a = g a) → existsb f l = existsb g l.
Proof. intros H. induction l as [|a l IH]; simpl; [done|]. by rewrite H, IH. Qed.

Lemma keep_attachment_fault att s :
  faults s att = true → keep_attachment att s = (Throw "TypeError", s).
Proof.
  unfold faults, bypassed, keep_attachment, bind, gets, lift.
  intros [Hb Ht]%andb_prop. apply negb_true_iff in Hb. rewrite Hb.
  by destruct (opt_field att_content_type att).
Qed.

Lemma keep_attachment_run att s :
  faults s att = false →
  ∃ s', keep_attachment att s = (Ok (negb (drops s att)), s')
        ∧ blockedMessageIds s'
          = blockedMessageIds s
            ∪ (if drops s att then marked (opt_id att_message_id att) else ∅)
        ∧ settings_same s s'.
Proof.
  unfold faults, drops, bypassed, keep_attachment, attachment_url.
  unfold bind at 1, gets at 1.
  destruct (id_truthy _ && set_has _ _) eqn:Hb; simpl.
  { intros _. exists s. split; [done|]. split; [|done].
    by rewrite (right_id_L ∅ (∪)). }
  set (u := or_else _ _).
  intros Ht. unfold bind at 1, lift at 1.
  assert (∃ lowered, opt_call_toLowerCase (opt_field att_content_type att)
                     = Ok lowered
                     ∧ (strict_eq_str lowered "image/gif" || isGifUrl u
                        = false → isGifUrl u = false)) as (lo & -> & Hlo).
  { destruct (opt_field att_content_type att); try done; simpl;
      eexists; (split; [done|]); by intros [_ ?]%orb_false_elim. }
  destruct (strict_eq_str lo "image/gif" || isGifUrl u) eqn:Hg; simpl.
  2:{ rewrite (Hlo eq_refl), andb_false_r. simpl. exists s.
      split; [done|]. split; [|done]. by rewrite (right_id_L ∅ (∪)). }
  unfold bind at 1.
  destruct (shouldBlockUrl_run u s) as (s1 & -> & Hb1 & Hs1 & _).
  destruct (truthy u && isGifUrl u && matched u (patterns s)) eqn:Hd.
  - simpl. unfold bind at 1.
    destruct (markBlocked_run (opt_id att_message_id att) s1)
      as (s2 & -> & Hb2 & Hs2).
    exists s2. split; [done|]. split; [by rewrite Hb2, Hb1|].
    destruct Hs1, Hs2. split; congruence.
  - simpl. exists s1. split; [done|]. split; [|done].
    by rewrite Hb1, (right_id_L ∅ (∪)).
Qed.

Lemma filterM_keep_run l : ∀ s,
  existsb (faults s) l = false →
  ∃ s', filterM keep_attachment l s
        = (Ok (List.filter (λ att, negb (drops s att)) l), s')
        ∧ blockedMessageIds s' = blockedMessageIds s ∪ dropped_ids s l
        ∧ settings_same s s'.
Proof.
  induction l as [|att l IH]; intros s Hf.
  - exists s. split; [done|]. split; [|done]. simpl.
    by rewrite (right_id_L ∅ (∪)).
  - simpl in Hf. apply orb_false_elim in Hf as [Hf1 Hf2].
    destruct (keep_attachment_run att s Hf1) as (s1 & Hk & Hb1 & Hs1).
    destruct (IH s1) as (s2 & Hr & Hb2 & Hs2).
    { rewrite <- Hf2. apply existsb_same. intros a.
      by apply faults_same. }
    exists s2. split; [|split].
    + cbn [filterM]. unfold bind at 1. rewrite Hk.
      unfold bind at 1. rewrite Hr. unfold ret. cbn [List.filter].
      f_equal. f_equal.
      assert (List.filter (λ a, negb (drops s1 a)) l
              = List.filter (λ a, negb (drops s a)) l) as ->.
      { apply filter_ext. intros a. by rewrite (drops_same s s1). }
      done.
    + rewrite Hb2, Hb1. cbn [dropped_ids].
      assert (dropped_ids s1 l = dropped_ids s l) as ->.
      { clear -Hs1. induction l as [|a l IHl]; [done|].
        cbn [dropped_ids]. by rewrite IHl, (drops_same s s1). }
      by rewrite (assoc_L (∪)).
    + destruct Hs1, Hs2. split; congruence.
Qed.

Lemma dropped_ids_same s s' l :
  settings_same s s' → dropped_ids s' l = dropped_ids s l.
Proof.
  intros Hs. induction l as [|a l IHl]; [done|].
  cbn [dropped_ids]. by rewrite IHl, (drops_same s s').
Qed.

(** The filter throws at the first attachment that faults; the ids marked
    before it stay marked. *)
Lemma filterM_keep_fault l1 att l2 : ∀ s,
  existsb (faults s) l1 = false →
  faults s att = true →
  ∃ s', filterM keep_attachment (l1 ++ att :: l2) s = (Throw "TypeError", s')
        ∧ blockedMessageIds s' = blockedMessageIds s ∪ dropped_ids s l1
        ∧ settings_same s s'.
Proof.
  induction l1 as [|a l1 IH]; intros s Hf Ha.
  - exists s. split; [|split; [|done]].
    + cbn [app filterM]. unfold bind at 1.
      by rewrite keep_attachment_fault.
    + simpl. by rewrite (right_id_L ∅ (∪)).
  - simpl in Hf. apply orb_false_elim in Hf as [Hf1 Hf2].
    destruct (keep_attachment_run a s Hf1) as (s1 & Hk & Hb1 & Hs1).
    destruct (IH s1) as (s2 & Hr & Hb2 & Hs2).
    { rewrite <- Hf2. apply existsb_same. intros x. by apply faults_same. }
    { by rewrite (faults_same s s1). }
    exists s2. split; [|split].
    + cbn [app filterM]. unfold bind at 1. rewrite Hk.
      unfold bind at 1. by rewrite Hr.
    + rewrite Hb2, Hb1. cbn [dropped_ids].
      by rewrite (dropped_ids_same s s1), (assoc_L (∪)).
    + destruct Hs1, Hs2. split; congruence.
Qed.

Lemma existsb_first {A} (f : A → bool) l :
  existsb f l = true →
  ∃ l1 a l2, l = l1 ++ a :: l2 ∧ existsb f l1 = false ∧ f a = true.
Proof.
  induction l as [|x l IH]; [done|]. simpl.
  destruct (f x) eqn:Hx.
  - intros _. by exists [], x, l.
  - intros (l1 & a & l2 & -> & H1 & H2)%IH.
    exists (x :: l1), a, l2. simpl. by rewrite Hx.
Qed.

Lemma filterAttachments_run_ok l s :
  existsb (faults s) l = false →
  ∃ s', _filterAttachments (IsArray l) s
        = (Ok (IsArray (List.filter (λ att, negb (drops s att)) l)), s')
        ∧ blockedMessageIds s' = blockedMessageIds s ∪ dropped_ids s l
        ∧ settings_same s s'.
Proof.
  intros Hf. destruct (filterM_keep_run l s Hf) as (s' & Hr & Hb & Hs).
  exists s'. split; [|done].
  unfold _filterAttachments, try_catch, filterAttachments_try.
  unfold bind at 1. by rewrite Hr.
Qed.

Lemma filterAttachments_run_fault l1 att l2 s :
  existsb (faults s) l1 = false →
  faults s att = true →
  ∃ s', _filterAttachments (IsArray (l1 ++ att :: l2)) s
        = (Ok (IsArray (l1 ++ att :: l2)), s')
        ∧ blockedMessageIds s' = blockedMessageIds s ∪ dropped_ids s l1
        ∧ settings_same s s'
        ∧ last (logged s') = Some "Error in _filterAttachments".
Proof.
  intros Hf Ha.
  destruct (filterM_keep_fault l1 att l2 s Hf Ha) as (s' & Hr & Hb & Hs).
  eexists. split; [|split; [|split]].
  - unfold _filterAttachments, try_catch, filterAttachments_try.
    unfold bind at 1. rewrite Hr. reflexivity.
  - done.
  - done.
  - simpl. by rewrite last_snoc.
Qed.

End Decisions.

Section FilterFacts.
Context {api : UrlApi}.

Lemma filter_drops_sublist s (l : list (option attachment)) :
  List.filter (λ att, negb (drops s att)) l `sublist_of` l.
Proof.
  induction l as [|a l IH]; [done|]. cbn [List.filter].
  destruct (negb (drops s a)); by constructor.
Qed.

Lemma elem_of_filter_drops s (l : list (option attachment)) att :
  att ∈ List.filter (λ att, negb (drops s att)) l
  ↔ att ∈ l ∧ drops s att = false.
Proof.
  rewrite !list_elem_of_In, List.filter_In.
  by rewrite negb_true_iff.
Qed.

Lemma marked_dropped_ids s (l : list (option attachment)) att :
  att ∈ l → drops s att = true →
  marked (opt_id att_message_id att) ⊆ dropped_ids s l.
Proof.
  induction 1 as [a l|a b l _ IH]; intros Hd; cbn [dropped_ids].
  - rewrite Hd. apply union_subseteq_l.
  - etrans; [by apply IH|]. apply union_subseteq_r.
Qed.

Lemma dropped_ids_carried s (l : list (option attachment)) :
  dropped_ids s l ⊆ carried_ids l.
Proof.
  induction l as [|a l IH]; [done|]. cbn [dropped_ids carried_ids].
  apply union_mono; [|done]. destruct (drops s a); [done|].
  apply empty_subseteq.
Qed.

Lemma dropped_ids_app s (l l' : list (option attachment)) :
  dropped_ids s (l ++ l') = dropped_ids s l ∪ dropped_ids s l'.
Proof.
  induction l as [|a l IH]; cbn [app dropped_ids].
  - by rewrite (left_id_L ∅ (∪)).
  - by rewrite IH, (assoc_L (∪)).
Qed.

Lemma dropped_ids_kept s (l : list (option attachment)) :
  dropped_ids s (List.filter (λ att, negb (drops s att)) l) = ∅.
Proof.
  induction l as [|a l IH]; [done|]. cbn [List.filter].
  destruct (drops s a) eqn:Hd; simpl; [done|].
  by rewrite Hd, IH, (left_id_L ∅ (∪)).
Qed.

Lemma filter_drops_idem s (l : list (option attachment)) :
  List.filter (λ att, negb (drops s att))
    (List.filter (λ att, negb (drops s att)) l)
  = List.filter (λ att, negb (drops s att)) l.
Proof.
  induction l as [|a l IH]; [done|]. cbn [List.filter].
  destruct (drops s a) eqn:Hd; simpl; [done|]. by rewrite Hd, IH.
Qed.

Lemma existsb_faults_kept s (l : list (option attachment)) :
  existsb (faults s) l = false →
  existsb (faults s) (List.filter (λ att, negb (drops s att)) l) = false.
Proof.
  induction l as [|a l IH]; [done|]. simpl.
  intros [Ha Hl]%orb_false_elim.
  destruct (drops s a); simpl; [by apply IH|]. by rewrite Ha, IH.
Qed.

(** Whatever the array holds, the filter returns, and what it did is one of
    two things. *)
Lemma filterAttachments_cases l s :
  (existsb (faults s) l = false
   ∧ ∃ s', _filterAttachments (IsArray l) s
           = (Ok (IsArray (List.filter (λ att, negb (drops s att)) l)), s')
           ∧ blockedMessageIds s' = blockedMessageIds s ∪ dropped_ids s l
           ∧ settings_same s s')
  ∨ (∃ l1 att l2 s',
       l = l1 ++ att :: l2
       ∧ existsb (faults s) l1 = false ∧ faults s att = true
       ∧ _filterAttachments (IsArray l) s = (Ok (IsArray l), s')
       ∧ blockedMessageIds s' = blockedMessageIds s ∪ dropped_ids s l1
       ∧ settings_same s s').
Proof.
  destruct (existsb (faults s) l) eqn:Hf.
  - right. destruct (existsb_first _ _ Hf) as (l1 & att & l2 & -> & H1 & H2).
    destruct (filterAttachments_run_fault l1 att l2 s H1 H2)
      as (s' & Hr & Hb & Hs & _).
    by exists l1, att, l2, s'.
  - left. split; [done|]. by apply filterAttachments_run_ok.
Qed.

End FilterFacts.

(** X3: when no attachment has a [content_type] that is neither a string
    nor nullish (unless its message is revealed), [_filterAttachments]
    returns exactly the attachments that are not revealed-exempt GIF URLs on
    the blocklist, in their order, marks exactly the truthy message ids of
    those it left out, and changes neither the patterns nor the revealed
    set. *)
Theorem filterAttachments_is_a_filter `{api : UrlApi} l s :
  existsb (faults s) l = false →
  ∃ s', _filterAttachments (IsArray l) s
        = (Ok (IsArray (List.filter (λ att, negb (drops s att)) l)), s')
        ∧ blockedMessageIds s' = blockedMessageIds s ∪ dropped_ids s l
        ∧ settings_same s s'.
Proof. apply filterAttachments_run_ok. Qed.

Lemma filterAttachments_is_a_filter_witness :
  ∃ s', @_filterAttachments RefUrl
          (IsArray [Some png_attachment; Some (gif_attachment (Some "m1"));
                    None])
          (xcom_state ∅)
        = (Ok (IsArray [Some png_attachment; None]), s')
        ∧ blockedMessageIds s' = {[ "m1" ]}
        ∧ settings_same (xcom_state ∅) s'.
Proof.
  destruct (@filterAttachments_is_a_filter RefUrl
              [Some png_attachment; Some (gif_attachment (Some "m1")); None]
              (xcom_state ∅)) as (s' & Hr & Hb & Hs).
  { vm_compute. reflexivity. }
  exists s'. split; [rewrite Hr; vm_compute; reflexivity|].
  split; [|exact Hs]. rewrite Hb. vm_compute. reflexivity.
Defined.

(** X4: when an attachment makes the filter throw, [_filterAttachments]
    logs and returns the whole array, yet the messages of the attachments
    it had already decided to leave out stay marked as blocked. *)
Theorem filterAttachments_fault_keeps_marks `{api : UrlApi} l1 att l2 s :
  existsb (faults s) l1 = false →
  faults s att = true →
  ∃ s', _filterAttachments (IsArray (l1 ++ att :: l2)) s
        = (Ok (IsArray (l1 ++ att :: l2)), s')
        ∧ blockedMessageIds s' = blockedMessageIds s ∪ dropped_ids s l1
        ∧ settings_same s s'
        ∧ last (logged s') = Some "Error in _filterAttachments".
Proof. apply filterAttachments_run_fault. Qed.

Lemma filterAttachments_fault_keeps_marks_witness :
  ∃ s', @_filterAttachments RefUrl
          (IsArray ([Some (gif_attachment (Some "m1"))]
                    ++ Some odd_attachment :: []))
          (xcom_state ∅)
        = (Ok (IsArray ([Some (gif_attachment (Some "m1"))]
                        ++ Some odd_attachment :: [])), s')
        ∧ blockedMessageIds s' = {[ "m1" ]}
        ∧ settings_same (xcom_state ∅) s'
        ∧ last (logged s') = Some "Error in _filterAttachments".
Proof.
  destruct (@filterAttachments_fault_keeps_marks RefUrl
              [Some (gif_attachment (Some "m1"))] (Some odd_attachment) []
              (xcom_state ∅)) as (s' & Hr & Hb & Hs & Hl).
  { vm_compute. reflexivity. }
  { vm_compute. reflexivity. }
  exists s'. split; [exact Hr|]. split; [|by split].
  rewrite Hb. vm_compute. reflexivity.
Defined.

(** X5: [_filterAttachments] never throws and never adds or reorders; an
    attachment it leaves out has a truthy URL that [isGifUrl] accepts and
    that [equalsAnyUrl] finds among the patterns, and its message is not
    revealed. A GIF by [content_type] alone is never left out. *)
Theorem filterAttachments_leaves_out_only_listed_gif_urls
    `{api : UrlApi} l s :
  ∃ out s',
    _filterAttachments (IsArray l) s = (Ok (IsArray out), s')
    ∧ out `sublist_of` l
    ∧ ∀ att, att ∈ l → att ∉ out →
        bypassed s (opt_id att_message_id att) = false
        ∧ truthy (attachment_url att) = true
        ∧ isGifUrl (attachment_url att) = true
        ∧ equalsAnyUrl (attachment_url att) (patterns s) = Ok true.
Proof.
  destruct (filterAttachments_cases l s)
    as [(_ & s' & Hr & _)|(l1 & att & l2 & s' & -> & _ & _ & Hr & _)].
  - eexists _, s'. split; [exact Hr|]. split; [apply filter_drops_sublist|].
    intros att Hin Hout.
    destruct (drops s att) eqn:Hd.
    + unfold drops in Hd.
      apply andb_prop in Hd as [[[Hb Ht]%andb_prop Hg]%andb_prop Hm].
      apply negb_true_iff in Hb. repeat split; try done.
      unfold matched in Hm.
      destruct (equalsAnyUrl (attachment_url att) (patterns s)); [|done].
      by rewrite Hm.
    + destruct Hout. by apply elem_of_filter_drops.
  - eexists _, s'. split; [exact Hr|]. split; [done|].
    intros a Hin Hout. by destruct Hout.
Qed.

(** X6: filtering is idempotent: [_filterAttachments] applied to its own
    output, in the state it left, returns that output again and marks
    nothing new. *)
Theorem filterAttachments_idempotent `{api : UrlApi} arr s :
  ∃ out s' s'',
    _filterAttachments arr s = (Ok out, s')
    ∧ _filterAttachments out s' = (Ok out, s'')
    ∧ blockedMessageIds s'' = blockedMessageIds s'
    ∧ settings_same s' s''.
Proof.
  destruct arr as [v|l].
  { by exists (NotArray v), s, s. }
  destruct (filterAttachments_cases l s)
    as [(Hf & s' & Hr & Hb & Hs)
       |(l1 & att & l2 & s' & -> & Hf & Ha & Hr & Hb & Hs)].
  - set (out := List.filter (λ att, negb (drops s att)) l) in *.
    destruct (filterAttachments_run_ok out s') as (s'' & Hr' & Hb' & Hs').
    { rewrite (existsb_same _ (faults s)) by (intros a; by apply faults_same).
      by apply existsb_faults_kept. }
    exists (IsArray out), s', s''. split; [done|]. split; [|split; [|done]].
    + rewrite Hr'. do 3 f_equal.
      rewrite (List.filter_ext _ (λ att, negb (drops s att)))
        by (intros a; by rewrite (drops_same s s')).
      apply filter_drops_idem.
    + rewrite Hb', (dropped_ids_same s s') by done.
      unfold out. by rewrite dropped_ids_kept, (right_id_L ∅ (∪)).
  - destruct (filterAttachments_run_fault l1 att l2 s')
      as (s'' & Hr' & Hb' & Hs' & _).
    { rewrite (existsb_same _ (faults s)) by (intros a; by apply faults_same).
      done. }
    { by rewrite (faults_same s s'). }
    exists (IsArray (l1 ++ att :: l2)), s', s''.
    split; [done|]. split; [done|]. split; [|done].
    rewrite Hb', (dropped_ids_same s s'), Hb by done.
    by rewrite <- (assoc_L (∪)), (idemp_L (∪)).
Qed.

(** X7: [_filterAttachments] marks as blocked only messages whose id one of
    the attachments carries, and marks the message of every attachment it
    leaves out (when that id is truthy); marks already there stay. *)
Theorem filterAttachments_marks `{api : UrlApi} l s :
  ∃ out s',
    _filterAttachments (IsArray l) s = (Ok (IsArray out), s')
    ∧ blockedMessageIds s ⊆ blockedMessageIds s'
    ∧ blockedMessageIds s' ⊆ blockedMessageIds s ∪ carried_ids l
    ∧ ∀ att, att ∈ l → att ∉ out →
        marked (opt_id att_message_id att) ⊆ blockedMessageIds s'.
Proof.
  destruct (filterAttachments_cases l s)
    as [(_ & s' & Hr & Hb & _)|(l1 & att & l2 & s' & -> & _ & _ & Hr & Hb & _)].
  - eexists _, s'. split; [exact Hr|]. rewrite Hb.
    split; [apply union_subseteq_l|]. split.
    + apply union_mono; [done|]. apply dropped_ids_carried.
    + intros att Hin Hout. etrans; [|apply union_subseteq_r].
      apply marked_dropped_ids; [done|].
      destruct (drops s att) eqn:Hd; [done|].
      destruct Hout. by apply elem_of_filter_drops.
  - eexists _, s'. split; [exact Hr|]. rewrite Hb.
    split; [apply union_subseteq_l|]. split.
    + apply union_mono; [done|]. etrans; [|apply dropped_ids_carried].
      rewrite dropped_ids_app. apply union_subseteq_l.
    + intros a Hin Hout. by destruct Hout.
Qed.

Section EmbedFacts.
Context {api : UrlApi}.

Lemma shouldBlockEmbed_run e m s :
  ∃ s', _shouldBlockEmbed e m s = (Ok (embed_blocked s e m), s')
        ∧ blockedMessageIds s'
          = blockedMessageIds s
            ∪ (if embed_blocked s e m then marked (opt_id message_id m) else ∅)
        ∧ settings_same s s'.
Proof.
  unfold _shouldBlockEmbed, try_catch, shouldBlockEmbed_try, embed_blocked,
    embed_resolved_url.
  unfold bind at 1, gets at 1.
  destruct (set_has _ _); simpl.
  { exists s. split; [done|]. split; [|done]. by rewrite (right_id_L ∅ (∪)). }
  set (u := or_else _ _).
  destruct (strict_eq_str (opt_field embed_type e) "gifv") eqn:Hg; simpl.
  - destruct (truthy u) eqn:Ht; simpl.
    + unfold bind at 1. unfold bind at 1, gets at 1, lift. unfold matched.
      destruct (equalsAnyUrl u (patterns s)) as [[]|err]; simpl.
      * unfold bind at 1.
        destruct (markBlocked_run (opt_id message_id m) s)
          as (s2 & -> & Hb2 & Hs2).
        by exists s2.
      * exists s. split; [done|]. split; [|done].
        by rewrite (right_id_L ∅ (∪)).
      * eexists. split; [done|]. split; [|done]. simpl.
        by rewrite (right_id_L ∅ (∪)).
    + exists s. split; [done|]. split; [|done].
      by rewrite (right_id_L ∅ (∪)).
  - destruct (isGifUrl u) eqn:Hu; simpl.
    2:{ exists s. split; [done|]. split; [|done].
        by rewrite (right_id_L ∅ (∪)). }
    unfold bind at 1.
    destruct (shouldBlockUrl_run u s) as (s1 & -> & Hb1 & Hs1 & _).
    rewrite Hu, andb_true_r.
    destruct (truthy u && matched u (patterns s)); simpl.
    + unfold bind at 1.
      destruct (markBlocked_run (opt_id message_id m) s1)
        as (s2 & -> & Hb2 & Hs2).
      exists s2. split; [done|]. split; [by rewrite Hb2, Hb1|].
      destruct Hs1, Hs2. split; congruence.
    + exists s1. split; [done|]. split; [|done].
      by rewrite Hb1, (right_id_L ∅ (∪)).
Qed.

End EmbedFacts.

(* ===================================================================== *)
(** ** The URLs collected from a message *)
(* ===================================================================== *)

Section Collecting.
Context {api : UrlApi}.

Lemma same_value_zero_eq a b : same_value_zero a b = true → a = b.
Proof.
  destruct a, b; simpl; try done. by intros ->%bool_decide_eq_true.
Qed.

Lemma includes_elem_of l v : includes l v = true → v ∈ l.
Proof.
  unfold includes. intros (c & Hc & ->%same_value_zero_eq)%existsb_exists.
  by apply list_elem_of_In.
Qed.

Lemma elem_of_set_add found w v : v ∈ set_add found w ↔ v ∈ found ∨ v = w.
Proof.
  unfold set_add. destruct (includes found w) eqn:Hi.
  - split; [by left|]. intros [?| ->]; [done|]. by apply includes_elem_of.
  - rewrite elem_of_app, list_elem_of_singleton. done.
Qed.

Lemma scan_attachment_fault found att :
  scan_faults att = true → scan_attachment found att = Throw "TypeError".
Proof.
  unfold scan_faults, scan_attachment.
  by destruct (opt_field att_content_type att).
Qed.

Lemma scan_attachment_ok found att :
  scan_faults att = false →
  scan_attachment found att
  = Ok (if attachment_collected att
        then set_add found (attachment_url att) else found).
Proof.
  unfold scan_faults, scan_attachment, attachment_collected.
  by destruct (opt_field att_content_type att).
Qed.

Lemma scan_embed_ok found e :
  scan_embed found e
  = Ok (match embed_collected_url e with
        | Some v => set_add found v
        | None => found
        end).
Proof.
  unfold scan_embed, embed_collected_url.
  destruct (strict_eq_str _ _).
  - by destruct (truthy _).
  - by destruct (isGifUrl _ && truthy _).
Qed.

Lemma for_of_scan_attachment l : ∀ found v,
  v ∈ (for_of scan_attachment found l).1
  ↔ v ∈ found
    ∨ ∃ att, att ∈ scanned scan_faults l
             ∧ attachment_collected att = true ∧ attachment_url att = v.
Proof.
  induction l as [|a l IH]; intros found v; cbn [for_of scanned].
  - split; [by left|]. intros [?|(? & []%elem_of_nil & _)]. done.
  - destruct (scan_faults a) eqn:Hf.
    + rewrite scan_attachment_fault by done. simpl.
      split; [by left|]. intros [?|(? & []%elem_of_nil & _)]. done.
    + rewrite scan_attachment_ok by done. rewrite IH.
      destruct (attachment_collected a) eqn:Hc.
      * rewrite elem_of_set_add. split.
        -- intros [[?| ->]|(att & Hin & ?)]; [by left| |].
           ++ right. exists a. split; [by left|done].
           ++ right. exists att. split; [by right|done].
        -- intros [?|(att & [->|Hin]%elem_of_cons & Hatt & <-)].
           ++ by left; left.
           ++ by left; right.
           ++ right. by exists att.
      * split.
        -- intros [?|(att & Hin & ?)]; [by left|].
           right. exists att. split; [by right|done].
        -- intros [?|(att & [->|Hin]%elem_of_cons & Hatt & <-)];
             [by left|congruence|].
           right. by exists att.
Qed.

Lemma for_of_scan_embed l : ∀ found v,
  v ∈ (for_of scan_embed found l).1
  ↔ v ∈ found ∨ ∃ e, e ∈ l ∧ embed_collected_url e = Some v.
Proof.
  induction l as [|a l IH]; intros found v; cbn [for_of].
  - split; [by left|]. intros [?|(? & []%elem_of_nil & _)]. done.
  - rewrite scan_embed_ok, IH.
    destruct (embed_collected_url a) as [w|] eqn:Hc.
    + rewrite elem_of_set_add. split.
      * intros [[?| ->]|(e & Hin & ?)]; [by left| |].
        -- right. exists a. split; [by left|done].
        -- right. exists e. split; [by right|done].
      * intros [?|(e & [->|Hin]%elem_of_cons & He)].
        -- by left; left.
        -- left; right. congruence.
        -- right. by exists e.
    + split.
      * intros [?|(e & Hin & ?)]; [by left|].
        right. exists e. split; [by right|done].
      * intros [?|(e & [->|Hin]%elem_of_cons & He)];
          [by left|congruence|].
        right. by exists e.
Qed.

Lemma collect_elem_of msg v :
  v ∈ _collectGifUrlsFromMessage (Some msg)
  ↔ (∃ att, att ∈ visited_attachments msg
            ∧ attachment_collected att = true ∧ attachment_url att = v)
    ∨ (∃ e, e ∈ visited_embeds msg ∧ embed_collected_url e = Some v).
Proof.
  unfold _collectGifUrlsFromMessage, visited_attachments, visited_embeds.
  destruct (iterate (rm_embeds msg)) as [le|err].
  - rewrite for_of_scan_embed.
    destruct (iterate (rm_attachments msg)) as [la|err].
    + rewrite for_of_scan_attachment, elem_of_nil. tauto.
    + rewrite elem_of_nil. split.
      * intros [[]|?]; by right.
      * intros [(? & []%elem_of_nil & _)|?]; by right.
  - destruct (iterate (rm_attachments msg)) as [la|err'].
    + rewrite for_of_scan_attachment, elem_of_nil. split.
      * intros [[]|?]; by left.
      * intros [?|(? & []%elem_of_nil & _)]; by right.
    + rewrite elem_of_nil. split; [done|].
      intros [(? & []%elem_of_nil & _)|(? & []%elem_of_nil & _)].
Qed.

Lemma includes_strs (us : list string) u :
  includes (VStr <$> us) (VStr u) = bool_decide (u ∈ us).
Proof.
  unfold includes. induction us as [|w us IH]; csimpl; [done|].
  rewrite IH. destruct (decide (w = u)) as [->|Hne].
  - rewrite bool_decide_eq_true_2 by done. simpl. symmetry.
    apply bool_decide_eq_true_2. by left.
  - rewrite (bool_decide_eq_false_2 (w = u)) by done. simpl.
    apply bool_decide_ext. rewrite elem_of_cons.
    split; [by right|]. by intros [->|?].
Qed.

Lemma set_add_strs (us : list string) u :
  NoDup us → "" ∉ us → u ≠ "" →
  ∃ us', set_add (VStr <$> us) (VStr u) = VStr <$> us'
         ∧ NoDup us' ∧ "" ∉ us'.
Proof.
  intros Hnd He Hu. unfold set_add. rewrite includes_strs.
  destruct (decide (u ∈ us)) as [Hin|Hin].
  - rewrite bool_decide_eq_true_2 by done. by exists us.
  - rewrite bool_decide_eq_false_2 by done. exists (us ++ [u]).
    rewrite fmap_app. split; [done|]. split.
    + apply NoDup_app. split; [done|]. split; [|apply NoDup_singleton].
      by intros x Hx ->%list_elem_of_singleton.
    + rewrite elem_of_app, list_elem_of_singleton. by intros [?|?].
Qed.

Lemma truthy_string_or_absent v :
  truthy v = true → string_or_absent v = true → ∃ u, v = VStr u ∧ u ≠ "".
Proof.
  destruct v as [| |u|]; try done. simpl. intros Hu _. exists u.
  split; [done|]. intros ->. done.
Qed.

Lemma or_else_string_or_absent a b :
  string_or_absent a = true → string_or_absent b = true →
  string_or_absent (or_else a b) = true.
Proof. unfold or_else. by destruct (truthy a). Qed.

Lemma attachment_collected_str att :
  attachment_typed att = true → attachment_collected att = true →
  ∃ u, attachment_url att = VStr u ∧ u ≠ "".
Proof.
  unfold attachment_typed, attachment_collected.
  intros [H1 H2]%andb_prop [_ Ht]%andb_prop.
  apply truthy_string_or_absent; [done|].
  by apply or_else_string_or_absent.
Qed.

Lemma embed_collected_str e v :
  embed_typed e = true → embed_collected_url e = Some v →
  ∃ u, v = VStr u ∧ u ≠ "".
Proof.
  unfold embed_typed, embed_collected_url.
  intros [[H1 H2]%andb_prop H3]%andb_prop.
  destruct (strict_eq_str _ _).
  - destruct (truthy (opt_field embed_url e)) eqn:Ht; [|done].
    intros [= <-]. by apply truthy_string_or_absent.
  - destruct (isGifUrl _ && truthy _) eqn:Hc; [|done].
    apply andb_prop in Hc as [_ Ht]. intros [= <-].
    apply truthy_string_or_absent; [done|].
    unfold embed_resolved_url.
    by repeat apply or_else_string_or_absent.
Qed.

Lemma for_of_scan_attachment_strs l : ∀ us,
  (∀ att, att ∈ scanned scan_faults l → attachment_typed att = true) →
  NoDup us → "" ∉ us →
  ∃ us', (for_of scan_attachment (VStr <$> us) l).1 = VStr <$> us'
         ∧ NoDup us' ∧ "" ∉ us'.
Proof.
  induction l as [|a l IH]; intros us Ht Hnd He; cbn [for_of scanned] in *.
  - by exists us.
  - destruct (scan_faults a) eqn:Hf.
    + rewrite scan_attachment_fault by done. by exists us.
    + rewrite scan_attachment_ok by done.
      destruct (attachment_collected a) eqn:Hc.
      * destruct (attachment_collected_str a) as (u & -> & Hu);
          [apply Ht; by left|done|].
        destruct (set_add_strs us u) as (us1 & -> & Hnd1 & He1); [done..|].
        apply IH; [|done..]. intros att Hatt. apply Ht. by right.
      * apply IH; [|done..]. intros att Hatt. apply Ht. by right.
Qed.

Lemma for_of_scan_embed_strs l : ∀ us,
  (∀ e, e ∈ l → embed_typed e = true) →
  NoDup us → "" ∉ us →
  ∃ us', (for_of scan_embed (VStr <$> us) l).1 = VStr <$> us'
         ∧ NoDup us' ∧ "" ∉ us'.
Proof.
  induction l as [|a l IH]; intros us Ht Hnd He; cbn [for_of].
  - by exists us.
  - rewrite scan_embed_ok.
    destruct (embed_collected_url a) as [v|] eqn:Hc.
    + destruct (embed_collected_str a v) as (u & -> & Hu);
        [apply Ht; by left|done|].
      destruct (set_add_strs us u) as (us1 & -> & Hnd1 & He1); [done..|].
      apply IH; [|done..]. intros e Hin. apply Ht. by right.
    + apply IH; [|done..]. intros e Hin. apply Ht. by right.
Qed.

Lemma collect_strs msg :
  (∀ att, att ∈ visited_attachments msg → attachment_typed att = true) →
  (∀ e, e ∈ visited_embeds msg → embed_typed e = true) →
  ∃ us, _collectGifUrlsFromMessage (Some msg) = VStr <$> us
        ∧ NoDup us ∧ "" ∉ us.
Proof.
  unfold _collectGifUrlsFromMessage, visited_attachments, visited_embeds.
  intros Ha He.
  assert (∃ us, match iterate (rm_attachments msg) with
                | Ok l => (for_of scan_attachment [] l).1
                | Throw _ => []
                end = VStr <$> us ∧ NoDup us ∧ "" ∉ us)
    as (us & -> & Hnd & Hne).
  { destruct (iterate (rm_attachments msg)) as [la|err].
    - apply (for_of_scan_attachment_strs la []); [done|constructor|].
      by intros ?%elem_of_nil.
    - exists []. split; [done|]. split; [constructor|].
      by intros ?%elem_of_nil. }
  destruct (iterate (rm_embeds msg)) as [le|err].
  - by apply for_of_scan_embed_strs.
  - by exists us.
Qed.

End Collecting.

(** X8: what [_collectGifUrlsFromMessage] returns holds exactly the URLs
    of the attachments it reaches before one with a non-string
    [content_type] that are GIFs by type or by URL, the own URLs of the
    [gifv] embeds and the resolved GIF URLs of the other embeds; the embeds
    are searched also when the attachments made the first loop throw, a
    nullish message gives nothing, and every value returned is truthy. *)
Theorem collectGifUrls_characterised `{api : UrlApi} m v :
  (v ∈ _collectGifUrlsFromMessage m
   ↔ ∃ msg, m = Some msg
       ∧ ((∃ att, att ∈ visited_attachments msg
                  ∧ attachment_collected att = true
                  ∧ attachment_url att = v)
          ∨ (∃ e, e ∈ visited_embeds msg ∧ embed_collected_url e = Some v)))
  ∧ (v ∈ _collectGifUrlsFromMessage m → truthy v = true).
Proof.
  assert (v ∈ _collectGifUrlsFromMessage m
   ↔ ∃ msg, m = Some msg
       ∧ ((∃ att, att ∈ visited_attachments msg
                  ∧ attachment_collected att = true
                  ∧ attachment_url att = v)
          ∨ (∃ e, e ∈ visited_embeds msg ∧ embed_collected_url e = Some v)))
    as Hiff.
  { destruct m as [msg|].
    - rewrite collect_elem_of. split; [eauto|]. by intros (? & [= <-] & ?).
    - split; [by intros ?%elem_of_nil|]. by intros (? & [=] & _). }
  split; [done|]. rewrite Hiff.
  intros (msg & _ & [(att & _ & Hc & <-)|(e & _ & Hc)]).
  - unfold attachment_collected in Hc. by apply andb_prop in Hc as [_ ?].
  - unfold embed_collected_url in Hc. destruct (strict_eq_str _ _).
    + destruct (truthy (opt_field embed_url e)) eqn:Ht; [|done]. congruence.
    + destruct (isGifUrl _ && truthy _) eqn:Ht; [|done].
      apply andb_prop in Ht as [_ Ht]. congruence.
Qed.

(** X9: for a message whose URL fields are strings or absent, as the
    plugin's annotations have them, [_collectGifUrlsFromMessage] returns
    distinct non-empty strings. *)
Theorem collectGifUrls_distinct_strings `{api : UrlApi} msg :
  (∀ att, att ∈ visited_attachments msg → attachment_typed att = true) →
  (∀ e, e ∈ visited_embeds msg → embed_typed e = true) →
  ∃ us, _collectGifUrlsFromMessage (Some msg) = VStr <$> us
        ∧ NoDup us ∧ "" ∉ us.
Proof. apply collect_strs. Qed.

(* ===================================================================== *)
(** ** The popover button *)
(* ===================================================================== *)

Section PopoverFacts.
Context {api : UrlApi}.

Lemma array_some_strings pats urls :
  forallb is_string pats = true →
  array_some (λ u, equalsAnyUrl u pats) urls
  = Ok (existsb (λ u, matched u pats) urls).
Proof.
  intros Hp. induction urls as [|u urls IH]; [done|]. cbn [array_some existsb].
  unfold matched at 1. rewrite (equalsAnyUrl_strings u pats Hp). cbn [rbind].
  destruct (existsb _ pats); [done|]. by rewrite IH.
Qed.

Lemma array_some_throws pats u urls :
  forallb is_string pats = false →
  array_some (λ u, equalsAnyUrl u pats) (u :: urls) = Throw "TypeError".
Proof. intros Hp. cbn [array_some]. by rewrite equalsAnyUrl_throws. Qed.

(** The three buttons. *)
Lemma popover_strings msg s :
  _collectGifUrlsFromMessage (Some msg) ≠ [] →
  forallb is_string (patterns s) = true →
  renderMessagePopoverButton (Some msg) s
  = (Ok (Some
       (if existsb (λ u, matched u (patterns s))
             (_collectGifUrlsFromMessage (Some msg))
        then (if set_has (temporarilyUnblockedMessageIds s) (rm_id msg)
              then {| button_label := "Hide GIF";
                      button_onClick := ToggleTemporaryUnblock false |}
              else {| button_label := "Show GIF";
                      button_onClick := ToggleTemporaryUnblock true |})
        else {| button_label := "Hide GIFs";
                button_onClick :=
                  AddUrlsToBlocklistAndRefresh
                    (_collectGifUrlsFromMessage (Some msg)) |})), s).
Proof.
  intros Hne Hp. unfold renderMessagePopoverButton.
  destruct (_collectGifUrlsFromMessage (Some msg)) as [|u urls] eqn:Hc;
    [done|].
  unfold bind, gets, lift. rewrite array_some_strings by done.
  destruct (set_has (temporarilyUnblockedMessageIds s) (rm_id msg));
    by destruct (existsb _ (u :: urls)).
Qed.

Lemma popover_throws m s :
  _collectGifUrlsFromMessage m ≠ [] →
  forallb is_string (patterns s) = false →
  renderMessagePopoverButton m s = (Throw "TypeError", s).
Proof.
  intros Hne Hp. unfold renderMessagePopoverButton.
  destruct (_collectGifUrlsFromMessage m) as [|u urls] eqn:Hc; [done|].
  destruct m as [msg|]; [|done].
  unfold bind, gets, lift. by rewrite array_some_throws.
Qed.

Lemma popover_null m s :
  _collectGifUrlsFromMessage m = [] →
  renderMessagePopoverButton m s = (Ok None, s).
Proof. intros Hc. unfold renderMessagePopoverButton. by rewrite Hc. Qed.

Lemma matched_all_strings u l : matched u l = true → forallb is_string l = true.
Proof.
  intros Hm. destruct (forallb is_string l) eqn:Hl; [done|].
  by rewrite matched_throws in Hm.
Qed.

Lemma existsb_elem_of {A} (f : A → bool) l x :
  x ∈ l → f x = true → existsb f l = true.
Proof.
  intros Hin Hf. apply existsb_exists. exists x.
  split; [by apply list_elem_of_In|done].
Qed.

Lemma popover_show_gif msg s v :
  v ∈ _collectGifUrlsFromMessage (Some msg) →
  matched v (patterns s) = true →
  set_has (temporarilyUnblockedMessageIds s) (rm_id msg) = false →
  renderMessagePopoverButton (Some msg) s
  = (Ok (Some {| button_label := "Show GIF";
                 button_onClick := ToggleTemporaryUnblock true |}), s).
Proof.
  intros Hin Hm Hu. rewrite popover_strings.
  - rewrite (existsb_elem_of _ _ v) by done. by rewrite Hu.
  - intros Hc. rewrite Hc in Hin. by apply elem_of_nil in Hin.
  - by apply (matched_all_strings v).
Qed.

End PopoverFacts.

(** X10: [renderMessagePopoverButton] never changes the state; it returns
    no button exactly when no GIF URL is collected; with URLs collected and
    a pattern that is not a string it throws, nothing catching the
    TypeError of [equalsAnyUrl]; otherwise it offers [Show GIF] when a
    collected URL is on the list and the message is not revealed,
    [Hide GIF] when it is revealed, and [Hide GIFs] with the collected URLs
    when none is on the list. *)
Theorem renderMessagePopoverButton_cases `{api : UrlApi} m s :
  (renderMessagePopoverButton m s).2 = s
  ∧ (_collectGifUrlsFromMessage m = [] ↔
     (renderMessagePopoverButton m s).1 = Ok None)
  ∧ (_collectGifUrlsFromMessage m ≠ [] →
     forallb is_string (patterns s) = false →
     (renderMessagePopoverButton m s).1 = Throw "TypeError")
  ∧ (_collectGifUrlsFromMessage m ≠ [] →
     forallb is_string (patterns s) = true →
     ∃ msg, m = Some msg
       ∧ (renderMessagePopoverButton m s).1
         = Ok (Some
             (if existsb (λ u, matched u (patterns s))
                   (_collectGifUrlsFromMessage m)
              then (if set_has (temporarilyUnblockedMessageIds s) (rm_id msg)
                    then {| button_label := "Hide GIF";
                            button_onClick := ToggleTemporaryUnblock false |}
                    else {| button_label := "Show GIF";
                            button_onClick := ToggleTemporaryUnblock true |})
              else {| button_label := "Hide GIFs";
                      button_onClick :=
                        AddUrlsToBlocklistAndRefresh
                          (_collectGifUrlsFromMessage m) |}))).
Proof.
  assert (_collectGifUrlsFromMessage m ≠ [] →
          forallb is_string (patterns s) = true →
          ∃ msg, m = Some msg
            ∧ renderMessagePopoverButton m s
              = (Ok (Some
                  (if existsb (λ u, matched u (patterns s))
                        (_collectGifUrlsFromMessage m)
                   then (if set_has (temporarilyUnblockedMessageIds s)
                                    (rm_id msg)
                         then {| button_label := "Hide GIF";
                                 button_onClick :=
                                   ToggleTemporaryUnblock false |}
                         else {| button_label := "Show GIF";
                                 button_onClick :=
                                   ToggleTemporaryUnblock true |})
                   else {| button_label := "Hide GIFs";
                           button_onClick :=
                             AddUrlsToBlocklistAndRefresh
                               (_collectGifUrlsFromMessage m) |})), s))
    as Hbuttons.
  { intros Hne Hp. destruct m as [msg|]; [|done].
    exists msg. split; [done|]. by apply popover_strings. }
  destruct (decide (_collectGifUrlsFromMessage m = [])) as [Hc|Hc].
  { rewrite popover_null by done. by repeat split. }
  destruct (forallb is_string (patterns s)) eqn:Hp.
  - destruct (Hbuttons Hc eq_refl) as (msg & -> & Hr). rewrite Hr.
    split; [done|]. split; [|split; [done|]].
    + split; [done|]. simpl.
      destruct (existsb _ _); [by destruct (set_has _ _)|done].
    + intros _ _. by exists msg.
  - rewrite popover_throws by done. split; [done|].
    split; [by split|]. by split.
Qed.

Lemma renderMessagePopoverButton_cases_witness :
  ∃ msg, Some gif_message = Some msg
    ∧ (@renderMessagePopoverButton RefUrl (Some gif_message)
         (xcom_state ∅)).1
      = Ok (Some
          (if existsb (λ u, @matched RefUrl u (patterns (xcom_state ∅)))
                (@_collectGifUrlsFromMessage RefUrl (Some gif_message))
           then (if set_has (temporarilyUnblockedMessageIds (xcom_state ∅))
                            (rm_id msg)
                 then {| button_label := "Hide GIF";
                         button_onClick := ToggleTemporaryUnblock false |}
                 else {| button_label := "Show GIF";
                         button_onClick := ToggleTemporaryUnblock true |})
           else {| button_label := "Hide GIFs";
                   button_onClick :=
                     AddUrlsToBlocklistAndRefresh
                       (@_collectGifUrlsFromMessage RefUrl
                          (Some gif_message)) |})).
Proof.
  apply (proj2 (proj2 (proj2
    (@renderMessagePopoverButton_cases RefUrl (Some gif_message)
       (xcom_state ∅))))).
  - vm_compute. discriminate.
  - vm_compute. reflexivity.
Defined.

(** X11: whatever the filters suppress can be revealed: when an attachment
    the message shows is left out by [_filterAttachments], or an embed is
    blocked by [_shouldBlockEmbed] that is not a [gifv] embed lacking a
    [url] of its own, the popover of a message that is not revealed offers
    [Show GIF]. A message of [gifv] embeds without a [url] gets no button
    at all. *)
Theorem suppressed_content_offers_show_gif `{api : UrlApi} msg s :
  (set_has (temporarilyUnblockedMessageIds s) (rm_id msg) = false →
   (∃ att, att ∈ visited_attachments msg ∧ drops s att = true)
   ∨ (∃ e m, e ∈ visited_embeds msg ∧ embed_blocked s e m = true
        ∧ (strict_eq_str (opt_field embed_type e) "gifv" = false
           ∨ truthy (opt_field embed_url e) = true)) →
   renderMessagePopoverButton (Some msg) s
   = (Ok (Some {| button_label := "Show GIF";
                  button_onClick := ToggleTemporaryUnblock true |}), s))
  ∧ (visited_attachments msg = [] →
     (∀ e, e ∈ visited_embeds msg →
        strict_eq_str (opt_field embed_type e) "gifv" = true
        ∧ truthy (opt_field embed_url e) = false) →
     renderMessagePopoverButton (Some msg) s = (Ok None, s)).
Proof.
  split.
  - intros Hu [(att & Hin & Hd)|(e & m & Hin & Hb & Hown)].
    + unfold drops in Hd.
      apply andb_prop in Hd as [[[_ Ht]%andb_prop Hg]%andb_prop Hm].
      apply (popover_show_gif msg s (attachment_url att)); [|done..].
      apply collect_elem_of. left. exists att. split; [done|].
      split; [|done]. unfold attachment_collected.
      by rewrite Hg, Ht, orb_true_r.
    + unfold embed_blocked in Hb.
      apply andb_prop in Hb as [[[_ Hg]%andb_prop Ht]%andb_prop Hm].
      apply (popover_show_gif msg s (embed_resolved_url e)); [|done..].
      apply collect_elem_of. right. exists e. split; [done|].
      unfold embed_collected_url.
      destruct (strict_eq_str (opt_field embed_type e) "gifv") eqn:Hty.
      * destruct Hown as [?|Hown]; [done|]. rewrite Hown.
        unfold embed_resolved_url, or_else. by rewrite Hown.
      * simpl in Hg. by rewrite Hg, Ht.
  - intros Ha He. apply popover_null.
    destruct (_collectGifUrlsFromMessage (Some msg)) as [|v l] eqn:Hc;
      [done|].
    assert (v ∈ _collectGifUrlsFromMessage (Some msg)) as Hv
      by (rewrite Hc; by left).
    apply collect_elem_of in Hv as [(att & Hin & _)|(e & Hin & Hcol)].
    + rewrite Ha in Hin. by apply elem_of_nil in Hin.
    + destruct (He e Hin) as [Hty Hown].
      unfold embed_collected_url in Hcol. by rewrite Hty, Hown in Hcol.
Qed.

Lemma suppressed_content_offers_show_gif_witness :
  @renderMessagePopoverButton RefUrl (Some gif_message) (xcom_state ∅)
  = (Ok (Some {| button_label := "Show GIF";
                 button_onClick := ToggleTemporaryUnblock true |}),
     xcom_state ∅)
  ∧ @renderMessagePopoverButton RefUrl (Some image_only_message) tco_state
    = (Ok None, tco_state).
Proof.
  split.
  - apply (proj1 (@suppressed_content_offers_show_gif RefUrl gif_message
                    (xcom_state ∅))).
    + vm_compute. reflexivity.
    + left. exists (Some (gif_attachment (Some "m1"))).
      split; [|vm_compute; reflexivity]. by left.
  - apply (proj2 (@suppressed_content_offers_show_gif RefUrl
                    image_only_message tco_state)).
    + reflexivity.
    + intros e Hin. apply list_elem_of_singleton in Hin as ->.
      split; reflexivity.
Defined.

(** X12: the popover round trip: for a message with a collected URL on the
    list that is not revealed the button is [Show GIF]; after its click
    ([_toggleTemporaryUnblock] with [true]) the button is [Hide GIF]; after
    the click of that one the state is the one the round started from. *)
Theorem popover_toggle_round_trip `{api : UrlApi} msg id v s :
  rm_id msg = Some id →
  id ∉ temporarilyUnblockedMessageIds s →
  v ∈ _collectGifUrlsFromMessage (Some msg) →
  matched v (patterns s) = true →
  renderMessagePopoverButton (Some msg) s
  = (Ok (Some {| button_label := "Show GIF";
                 button_onClick := ToggleTemporaryUnblock true |}), s)
  ∧ renderMessagePopoverButton (Some msg)
      (_toggleTemporaryUnblock id true s).2
    = (Ok (Some {| button_label := "Hide GIF";
                   button_onClick := ToggleTemporaryUnblock false |}),
       (_toggleTemporaryUnblock id true s).2)
  ∧ (_toggleTemporaryUnblock id false
       (_toggleTemporaryUnblock id true s).2).2 = s.
Proof.
  intros Hid Hnot Hv Hm. split; [|split].
  - apply (popover_show_gif msg s v); [done..|].
    rewrite Hid. simpl. by apply bool_decide_eq_false_2.
  - rewrite popover_strings.
    + simpl. rewrite (existsb_elem_of _ _ v) by done.
      rewrite Hid. simpl. rewrite bool_decide_eq_true_2; [done|].
      apply elem_of_union_l. by apply elem_of_singleton.
    + intros Hc. rewrite Hc in Hv. by apply elem_of_nil in Hv.
    + by apply (matched_all_strings v).
  - unfold _toggleTemporaryUnblock, modify, set_unblocked. simpl.
    destruct s as [b u p lg]. simpl in *. f_equal.
    apply set_eq. intros x.
    rewrite elem_of_difference, elem_of_union, elem_of_singleton.
    split; [by intros [[?|?] ?]|].
    intros Hx. split; [by right|]. by intros ->.
Qed.

Lemma popover_toggle_round_trip_witness :
  @renderMessagePopoverButton RefUrl (Some gif_message) (xcom_state ∅)
  = (Ok (Some {| button_label := "Show GIF";
                 button_onClick := ToggleTemporaryUnblock true |}),
     xcom_state ∅)
  ∧ @renderMessagePopoverButton RefUrl (Some gif_message)
      (_toggleTemporaryUnblock "m1" true (xcom_state ∅)).2
    = (Ok (Some {| button_label := "Hide GIF";
                   button_onClick := ToggleTemporaryUnblock false |}),
       (_toggleTemporaryUnblock "m1" true (xcom_state ∅)).2)
  ∧ (_toggleTemporaryUnblock "m1" false
       (_toggleTemporaryUnblock "m1" true (xcom_state ∅)).2).2
    = xcom_state ∅.
Proof.
  apply (@popover_toggle_round_trip RefUrl gif_message "m1"
           (VStr "https://x.com/a.gif") (xcom_state ∅)).
  - reflexivity.
  - apply not_elem_of_empty.
  - vm_compute. by left.
  - vm_compute. reflexivity.
Defined.

Lemma collectGifUrls_distinct_strings_witness :
  ∃ us, @_collectGifUrlsFromMessage RefUrl (Some gif_message) = VStr <$> us
        ∧ NoDup us ∧ "" ∉ us.
Proof.
  apply (@collectGifUrls_distinct_strings RefUrl gif_message).
  - intros att Hin. unfold visited_attachments in Hin. simpl in Hin.
    repeat (apply elem_of_cons in Hin as [->|Hin]; [reflexivity|]).
    by apply elem_of_nil in Hin.
  - intros e Hin. unfold visited_embeds in Hin. simpl in Hin.
    repeat (apply elem_of_cons in Hin as [->|Hin]; [reflexivity|]).
    by apply elem_of_nil in Hin.
Defined.

(* ===================================================================== *)
(** ** Adding the collected URLs to the blocklist *)
(* ===================================================================== *)

Section Blocklist.
Context {api : UrlApi}.

Lemma isGifUrl_truthy u : isGifUrl u = true → truthy u = true.
Proof. unfold isGifUrl. by destruct (truthy u). Qed.

Lemma hits_matches u c : hits (VStr u) c = matches u c.
Proof. unfold hits, matches. by rewrite same_value_zero_normalize. Qed.

Lemma mergeUrls_throws pats u us :
  forallb is_string pats = false →
  mergeUrls pats (u :: us) = Throw "TypeError".
Proof. intros Hp. cbn [mergeUrls]. by rewrite equalsAnyUrl_throws. Qed.

Lemma addUrls_throws us s :
  forallb is_string (patterns s) = false → us ≠ [] →
  _addUrlsToBlocklistAndRefresh us s = (Throw "TypeError", s).
Proof.
  intros Hp Hus. destruct us as [|u us]; [done|].
  unfold _addUrlsToBlocklistAndRefresh, bind, gets, lift.
  by rewrite mergeUrls_throws.
Qed.

Lemma addUrls_run us s :
  forallb is_string (patterns s) = true →
  ∃ added,
    _addUrlsToBlocklistAndRefresh us s
    = (Ok tt, set_patterns (patterns s ++ (VStr <$> added)) s)
    ∧ sublist added us
    ∧ (∀ v, matched v (patterns s) = true →
            matched v (patterns s ++ (VStr <$> added)) = true)
    ∧ (∀ u, u ∈ us → matches u u = true →
            matched (VStr u) (patterns s ++ (VStr <$> added)) = true).
Proof.
  intros Hp. destruct (strings_only _ Hp) as [ss Hss].
  destruct (mergeUrls_strs us ss) as (added & Hm & Hsub & _ & Hcov).
  exists added. split; [|split; [done|split]].
  - unfold _addUrlsToBlocklistAndRefresh, bind, gets, lift, modify.
    rewrite Hss, Hm. by rewrite fmap_app.
  - intros v Hv. rewrite matched_app, Hv; [done|].
    rewrite forallb_app, Hp. apply forallb_is_string_fmap.
  - intros u Hu Hself. rewrite Hss, <- fmap_app, matched_hits.
    destruct (Hcov u Hu) as [Hin|Hin].
    + apply (existsb_elem_of _ _ u); [|by rewrite hits_matches].
      apply elem_of_app. by right.
    + rewrite <- Hin. apply existsb_same. intros c. apply hits_matches.
Qed.

End Blocklist.

(** X13: [_addUrlsToBlocklistAndRefresh] throws, and writes nothing, when
    there are URLs to add and a pattern that is not a string; otherwise it
    appends some of the URLs, in their order, to the patterns and changes
    nothing else; what matched before still matches, and every added URL
    that matches itself matches afterwards. *)
Theorem addUrlsToBlocklist_effect `{api : UrlApi} (us : list string) s :
  (forallb is_string (patterns s) = false → us ≠ [] →
   _addUrlsToBlocklistAndRefresh us s = (Throw "TypeError", s))
  ∧ (forallb is_string (patterns s) = true →
     ∃ added,
       _addUrlsToBlocklistAndRefresh us s
       = (Ok tt, set_patterns (patterns s ++ (VStr <$> added)) s)
       ∧ sublist added us
       ∧ (∀ v, equalsAnyUrl v (patterns s) = Ok true →
               equalsAnyUrl v (patterns s ++ (VStr <$> added)) = Ok true)
       ∧ (∀ u, u ∈ us → equalsAnyUrl (VStr u) [VStr u] = Ok true →
               equalsAnyUrl (VStr u) (patterns s ++ (VStr <$> added))
               = Ok true)).
Proof.
  split; [apply addUrls_throws|]. intros Hp.
  destruct (addUrls_run us s Hp) as (added & Hr & Hsub & Hold & Hnew).
  assert (∀ v, matched v (patterns s ++ (VStr <$> added)) = true →
            equalsAnyUrl v (patterns s ++ (VStr <$> added)) = Ok true)
    as Hback.
  { intros v. unfold matched.
    destruct (equalsAnyUrl v _) as [b|]; [by intros ->|done]. }
  exists added. split; [done|]. split; [done|]. split.
  - intros v Hv. apply Hback, Hold. unfold matched. by rewrite Hv.
  - intros u Hu Hself. apply Hback, Hnew; [done|].
    rewrite equalsAnyUrl_self in Hself. by injection Hself.
Qed.

Lemma addUrlsToBlocklist_effect_witness :
  @_addUrlsToBlocklistAndRefresh RefUrl ["https://x.com/a.gif"]
    null_pattern_state
  = (Throw "TypeError", null_pattern_state)
  ∧ ∃ added,
      @_addUrlsToBlocklistAndRefresh RefUrl
        ["https://x.com/a.gif"; "https://t.co/x.gif"] tco_state
      = (Ok tt, set_patterns (patterns tco_state ++ (VStr <$> added))
                  tco_state)
      ∧ sublist added ["https://x.com/a.gif"; "https://t.co/x.gif"]
      ∧ (∀ v, @equalsAnyUrl RefUrl v (patterns tco_state) = Ok true →
              @equalsAnyUrl RefUrl v
                (patterns tco_state ++ (VStr <$> added)) = Ok true)
      ∧ (∀ u, u ∈ ["https://x.com/a.gif"; "https://t.co/x.gif"] →
              @equalsAnyUrl RefUrl (VStr u) [VStr u] = Ok true →
              @equalsAnyUrl RefUrl (VStr u)
                (patterns tco_state ++ (VStr <$> added)) = Ok true).
Proof.
  split.
  - apply (proj1 (@addUrlsToBlocklist_effect RefUrl ["https://x.com/a.gif"]
                    null_pattern_state)).
    + reflexivity.
    + discriminate.
  - apply (proj2 (@addUrlsToBlocklist_effect RefUrl
                    ["https://x.com/a.gif"; "https://t.co/x.gif"]
                    tco_state)).
    reflexivity.
Defined.

(** X14: the click of [Hide GIFs] hides: when the URLs collected from a
    message are strings of which one matches itself, then after
    [_addUrlsToBlocklistAndRefresh] with them the popover of the message
    offers [Show GIF] (or [Hide GIF], if the message is revealed) and no
    longer [Hide GIFs]; and [_filterAttachments] then leaves out every
    attachment the message shows whose URL [isGifUrl] accepts and which
    matches itself, unless its message is revealed. *)
Theorem hide_gifs_click_hides `{api : UrlApi} msg (us : list string) s :
  _collectGifUrlsFromMessage (Some msg) = VStr <$> us →
  forallb is_string (patterns s) = true →
  ∃ s', _addUrlsToBlocklistAndRefresh us s = (Ok tt, s')
    ∧ ((∃ u, u ∈ us ∧ equalsAnyUrl (VStr u) [VStr u] = Ok true) →
       renderMessagePopoverButton (Some msg) s'
       = (Ok (Some
            (if set_has (temporarilyUnblockedMessageIds s) (rm_id msg)
             then {| button_label := "Hide GIF";
                     button_onClick := ToggleTemporaryUnblock false |}
             else {| button_label := "Show GIF";
                     button_onClick := ToggleTemporaryUnblock true |})), s'))
    ∧ (∀ att u, att ∈ visited_attachments msg →
         attachment_url att = VStr u →
         isGifUrl (VStr u) = true →
         equalsAnyUrl (VStr u) [VStr u] = Ok true →
         bypassed s (opt_id att_message_id att) = false →
         drops s' att = true).
Proof.
  intros Hc Hp.
  destruct (addUrls_run us s Hp) as (added & Hr & Hsub & Hold & Hnew).
  eexists. split; [exact Hr|]. split.
  - intros (u & Hu & Hself). rewrite equalsAnyUrl_self in Hself.
    injection Hself as Hself.
    rewrite popover_strings.
    + rewrite (existsb_elem_of _ _ (VStr u)); [done| |].
      * rewrite Hc. apply list_elem_of_fmap. by exists u.
      * simpl. by apply Hnew.
    + rewrite Hc. destruct us; [by apply elem_of_nil in Hu|done].
    + simpl. rewrite forallb_app, Hp. apply forallb_is_string_fmap.
  - intros att u Hin Hurl Hgif Hself Hby.
    rewrite equalsAnyUrl_self in Hself. injection Hself as Hself.
    assert (u ∈ us) as Hu.
    { assert (VStr u ∈ _collectGifUrlsFromMessage (Some msg)) as Hv.
      { apply collect_elem_of. left. exists att. split; [done|].
        split; [|done]. unfold attachment_collected.
        rewrite Hurl, Hgif, orb_true_r. by apply isGifUrl_truthy. }
      rewrite Hc in Hv. apply list_elem_of_fmap in Hv as (u' & [= ->] & ?).
      done. }
    assert (bypassed (set_patterns (patterns s ++ (VStr <$> added)) s)
              (opt_id att_message_id att) = false) as Hby' by done.
    unfold drops. rewrite Hby', Hurl, Hgif, (isGifUrl_truthy _ Hgif).
    simpl. by apply Hnew.
Qed.

Lemma hide_gifs_click_hides_witness :
  ∃ s', @_addUrlsToBlocklistAndRefresh RefUrl
          ["https://x.com/a.gif"; "https://t.co/x.gif"] tco_state
        = (Ok tt, s')
    ∧ @renderMessagePopoverButton RefUrl (Some gif_message) s'
      = (Ok (Some {| button_label := "Show GIF";
                     button_onClick := ToggleTemporaryUnblock true |}), s')
    ∧ @drops RefUrl s' (Some (gif_attachment (Some "m1"))) = true.
Proof.
  destruct (@hide_gifs_click_hides RefUrl gif_message
              ["https://x.com/a.gif"; "https://t.co/x.gif"] tco_state)
    as (s' & Hr & Hbutton & Hdrops).
  - vm_compute. reflexivity.
  - reflexivity.
  - exists s'. split; [exact Hr|]. split.
    + apply Hbutton. exists "https://t.co/x.gif".
      split; [by right; left|vm_compute; reflexivity].
    + apply (Hdrops _ "https://x.com/a.gif").
      * by left.
      * reflexivity.
      * vm_compute. reflexivity.
      * vm_compute. reflexivity.
      * reflexivity.
Defined.

(* ===================================================================== *)
(** ** The settings editor *)
(* ===================================================================== *)

Section Editor.
Context {api : UrlApi}.

Lemma equalsAnyUrl_blank_cons u v l :
  blank v = true → equalsAnyUrl u (v :: l) = equalsAnyUrl u l.
Proof.
  destruct v as [| |c|]; try done. simpl.
  intros Hc%bool_decide_eq_true. unfold equalsAnyUrl. cbn [rmap call_trim rbind].
  rewrite Hc. destruct (rmap call_trim l) as [trimmed|err]; [|done].
  cbn [rbind]. by rewrite filter_cons_False by (simpl; by intros []).
Qed.

Lemma equalsAnyUrl_blank_snoc u v l :
  blank v = true → equalsAnyUrl u (l ++ [v]) = equalsAnyUrl u l.
Proof.
  intros Hv. rewrite <- (equalsAnyUrl_blank_cons u v l Hv).
  apply equalsAnyUrl_Permutation. by rewrite Permutation_app_comm.
Qed.

Lemma equalsAnyUrl_blank_delete u i v l :
  l !! i = Some v → blank v = true →
  equalsAnyUrl u (delete i l) = equalsAnyUrl u l.
Proof.
  intros Hi Hv. rewrite <- (equalsAnyUrl_blank_cons u v (delete i l) Hv).
  apply equalsAnyUrl_Permutation. symmetry. by apply delete_Permutation.
Qed.

Lemma equalsAnyUrl_all_blank u l :
  forallb blank l = true → equalsAnyUrl u l = Ok false.
Proof.
  induction l as [|v l IH]; [done|]. simpl. intros [Hv Hl]%andb_prop.
  rewrite equalsAnyUrl_blank_cons by done. by apply IH.
Qed.

End Editor.

(** X15: blank rows of the settings panel are inert: the row [add]
    appends, and the removal of a row that is blank, change no answer of
    [equalsAnyUrl]; [remove] of the row [add] has just appended gives the
    settings back, and [remove] past the last row changes nothing. *)
Theorem editor_blank_rows_inert `{api : UrlApi} u s :
  equalsAnyUrl u (patterns (editor_add s)) = equalsAnyUrl u (patterns s)
  ∧ (∀ i v, patterns s !! i = Some v → blank v = true →
       equalsAnyUrl u (patterns (editor_remove i s))
       = equalsAnyUrl u (patterns s))
  ∧ editor_remove (length (patterns s)) (editor_add s) = s
  ∧ (∀ i, length (patterns s) ≤ i → editor_remove i s = s).
Proof.
  split; [|split; [|split]].
  - by apply equalsAnyUrl_blank_snoc.
  - intros i v Hi Hv. by apply equalsAnyUrl_blank_delete with v.
  - destruct s as [b un p lg]. unfold editor_remove, editor_add, set_patterns.
    simpl. f_equal.
    rewrite delete_middle. apply app_nil_r.
  - intros i Hi. destruct s as [b un p lg].
    unfold editor_remove, set_patterns. simpl in *. f_equal.
    rewrite delete_take_drop, take_ge, drop_ge by lia. apply app_nil_r.
Qed.

Lemma editor_blank_rows_inert_witness :
  @equalsAnyUrl RefUrl (VStr "https://t.co/x.gif")
    (patterns (editor_remove 1
       (set_patterns [VStr "https://t.co/x.gif"; VStr "  "] tco_state)))
  = @equalsAnyUrl RefUrl (VStr "https://t.co/x.gif")
      (patterns (set_patterns [VStr "https://t.co/x.gif"; VStr "  "]
                   tco_state))
  ∧ editor_remove 3 tco_state = tco_state.
Proof.
  split.
  - apply (proj1 (proj2 (@editor_blank_rows_inert RefUrl
             (VStr "https://t.co/x.gif")
             (set_patterns [VStr "https://t.co/x.gif"; VStr "  "] tco_state)))
           1 (VStr "  ")); reflexivity.
  - apply (proj2 (proj2 (proj2 (@editor_blank_rows_inert RefUrl VNull
             tco_state)))).
    simpl. lia.
Defined.

(* ===================================================================== *)
(** ** The note under a blocked message *)
(* ===================================================================== *)

Section Accessory.
Context {api : UrlApi}.

Lemma steps_blocked_grows s ops s' : steps s ops s' → blocked_grows s s'.
Proof.
  induction 1 as [s|s o s1 os s2 Hstep _ IH]; [apply blocked_grows_refl|].
  apply step_blocked_grows in Hstep. by apply blocked_grows_trans with s1.
Qed.

Lemma accessory_mono mode id s s' :
  blocked_grows s s' →
  renderMessageAccessory mode id s = true →
  renderMessageAccessory mode id s' = true.
Proof.
  unfold blocked_grows, renderMessageAccessory. intros Hsub.
  destruct id as [x|]; [|done]. simpl.
  destruct (decide (x ∈ blockedMessageIds s)) as [Hx|Hx].
  - rewrite !bool_decide_eq_true_2; [done| |done]. by apply Hsub.
  - by rewrite (bool_decide_eq_false_2 _ Hx).
Qed.

Lemma accessory_marked id s :
  id_truthy id = true → marked id ⊆ blockedMessageIds s →
  renderMessageAccessory (VStr "note") id s = true.
Proof.
  unfold renderMessageAccessory, marked. destruct id as [x|]; [|done].
  intros -> Hsub. simpl. rewrite bool_decide_eq_true_2; [done|].
  apply Hsub. by apply elem_of_singleton.
Qed.

End Accessory.

(** X16: the note [GIF Blocked]: in mode [note], [renderMessageAccessory]
    shows it for a message as soon as [_shouldBlockEmbed] has blocked an
    embed of it or [_filterAttachments] has left out an attachment of it;
    once shown it stays shown whatever the plugin does next, also while the
    message is revealed and after its pattern is removed; in any other mode
    it is never shown. *)
Theorem accessory_note_appears_and_stays `{api : UrlApi} :
  (∀ e m s s',
     _shouldBlockEmbed e (Some m) s = (Ok true, s') →
     id_truthy (message_id m) = true →
     renderMessageAccessory (VStr "note") (message_id m) s' = true)
  ∧ (∀ l s out s' att,
       _filterAttachments (IsArray l) s = (Ok (IsArray out), s') →
       att ∈ l → att ∉ out →
       id_truthy (opt_id att_message_id att) = true →
       renderMessageAccessory (VStr "note") (opt_id att_message_id att) s'
       = true)
  ∧ (∀ mode id s ops s',
       steps s ops s' →
       renderMessageAccessory mode id s = true →
       renderMessageAccessory mode id s' = true)
  ∧ (∀ mode id s,
       strict_eq_str mode "note" = false →
       renderMessageAccessory mode id s = false).
Proof.
  split; [|split; [|split]].
  - intros e m s s' Hrun Hid.
    destruct (shouldBlockEmbed_run e (Some m) s) as (s1 & Hr & Hb & _).
    rewrite Hrun in Hr. injection Hr as Hblocked <-.
    rewrite <- Hblocked in Hb. apply accessory_marked; [done|].
    rewrite Hb. apply union_subseteq_r.
  - intros l s out s' att Hrun Hin Hout Hid.
    apply accessory_marked; [done|].
    destruct (filterAttachments_cases l s)
      as [(_ & s1 & Hr & Hb & _)
         |(l1 & a & l2 & s1 & -> & _ & _ & Hr & _)];
      rewrite Hrun in Hr; injection Hr as -> ->.
    + rewrite Hb. etrans; [|apply union_subseteq_r].
      apply marked_dropped_ids; [done|].
      destruct (drops s att) eqn:Hd; [done|].
      destruct Hout. by apply elem_of_filter_drops.
    + by destruct Hout.
  - intros mode id s ops s' Hsteps. apply accessory_mono.
    by apply steps_blocked_grows with ops.
  - intros mode id s Hmode. unfold renderMessageAccessory. rewrite Hmode.
    by destruct (set_has _ _).
Qed.

Lemma accessory_note_appears_and_stays_witness :
  renderMessageAccessory (VStr "note") (message_id m1)
    (@_shouldBlockEmbed RefUrl (Some tco_embed) (Some m1) tco_state).2 = true
  ∧ renderMessageAccessory (VStr "note") (Some "m1")
      (set_patterns
         (delete 0
            (patterns
               (_toggleTemporaryUnblock "m1" true
                  (@_shouldBlockEmbed RefUrl (Some tco_embed) (Some m1)
                     tco_state).2).2))
         (_toggleTemporaryUnblock "m1" true
            (@_shouldBlockEmbed RefUrl (Some tco_embed) (Some m1)
               tco_state).2).2)
    = true
  ∧ renderMessageAccessory (VStr "text") (Some "m1")
      (@_shouldBlockEmbed RefUrl (Some tco_embed) (Some m1) tco_state).2
    = false.
Proof.
  destruct (@accessory_note_appears_and_stays RefUrl)
    as (Hembed & _ & Hstays & Hmode).
  assert (renderMessageAccessory (VStr "note") (message_id m1)
            (@_shouldBlockEmbed RefUrl (Some tco_embed) (Some m1)
               tco_state).2 = true) as Hshown.
  { apply (Hembed (Some tco_embed) m1 tco_state); reflexivity. }
  split; [exact Hshown|]. split.
  - apply (Hstays (VStr "note") (Some "m1")
             (@_shouldBlockEmbed RefUrl (Some tco_embed) (Some m1)
                tco_state).2
             [Reveal "m1"; EditRemove 0]); [|exact Hshown].
    eapply steps_cons; [apply step_reveal|].
    eapply steps_cons; [apply step_remove|]. apply steps_nil.
  - by apply Hmode.
Defined.

(* ===================================================================== *)
(** ** What the decisions depend on *)
(* ===================================================================== *)

Section Stability.
Context {api : UrlApi}.

Lemma matched_all_blank u l : forallb blank l = true → matched u l = false.
Proof. intros Hl. unfold matched. by rewrite equalsAnyUrl_all_blank. Qed.

Lemma filter_drops_none s (l : list (option attachment)) :
  (∀ att, drops s att = false) →
  List.filter (λ att, negb (drops s att)) l = l.
Proof.
  intros Hd. induction l as [|a l IH]; [done|]. cbn [List.filter].
  by rewrite Hd, IH.
Qed.

Lemma dropped_ids_none s (l : list (option attachment)) :
  (∀ att, drops s att = false) → dropped_ids s l = ∅.
Proof.
  intros Hd. induction l as [|a l IH]; [done|]. cbn [dropped_ids].
  by rewrite Hd, IH, (left_id_L ∅ (∪)).
Qed.

Lemma filterAttachments_result l s :
  (_filterAttachments (IsArray l) s).1
  = Ok (IsArray (if existsb (faults s) l then l
                 else List.filter (λ att, negb (drops s att)) l)).
Proof.
  destruct (filterAttachments_cases l s)
    as [(Hf & s1 & Hr & _)|(l1 & a & l2 & s1 & -> & Hf & Ha & Hr & _)];
    rewrite Hr; simpl.
  - by rewrite Hf.
  - by rewrite existsb_app, Hf; simpl; rewrite Ha.
Qed.

End Stability.

(** X17: with no patterns, as the plugin starts, or with blank rows only,
    nothing is blocked: [_shouldBlockEmbed] answers [false],
    [_filterAttachments] returns every attachment, no message is marked,
    and the popover offers nothing but [Hide GIFs]. *)
Theorem blank_patterns_block_nothing `{api : UrlApi} s :
  forallb blank (patterns s) = true →
  (∀ e m, ∃ s', _shouldBlockEmbed e m s = (Ok false, s')
                ∧ blockedMessageIds s' = blockedMessageIds s)
  ∧ (∀ arr, ∃ s', _filterAttachments arr s = (Ok arr, s')
                  ∧ blockedMessageIds s' = blockedMessageIds s)
  ∧ (∀ m, renderMessagePopoverButton m s
          = (Ok (match _collectGifUrlsFromMessage m with
                 | [] => None
                 | urls =>
                     Some {| button_label := "Hide GIFs";
                             button_onClick :=
                               AddUrlsToBlocklistAndRefresh urls |}
                 end), s)).
Proof.
  intros Hb.
  assert (forallb is_string (patterns s) = true) as Hs.
  { clear -Hb. induction (patterns s) as [|v l IH]; [done|]. simpl in *.
    apply andb_prop in Hb as [Hv Hl]. rewrite IH by done.
    by destruct v. }
  split; [|split].
  - intros e m. destruct (shouldBlockEmbed_run e m s) as (s' & Hr & Hbl & _).
    assert (embed_blocked s e m = false) as Hno.
    { unfold embed_blocked. by rewrite matched_all_blank, andb_false_r. }
    rewrite Hno in Hr, Hbl. exists s'. split; [done|].
    by rewrite Hbl, (right_id_L ∅ (∪)).
  - intros [v|l]; [by exists s|].
    assert (∀ att, drops s att = false) as Hno.
    { intros att. unfold drops.
      by rewrite matched_all_blank, andb_false_r. }
    destruct (filterAttachments_cases l s)
      as [(_ & s' & Hr & Hbl & _)
         |(l1 & a & l2 & s' & -> & _ & _ & Hr & Hbl & _)].
    + exists s'. rewrite filter_drops_none in Hr by done.
      split; [done|]. by rewrite Hbl, dropped_ids_none, (right_id_L ∅ (∪)).
    + exists s'. split; [done|].
      by rewrite Hbl, dropped_ids_none, (right_id_L ∅ (∪)).
  - intros m.
    destruct (_collectGifUrlsFromMessage m) as [|u urls] eqn:Hc.
    { by apply popover_null. }
    destruct m as [msg|]; [|done].
    rewrite popover_strings by (done || by rewrite Hc). rewrite Hc.
    assert (existsb (λ u0, matched u0 (patterns s)) (u :: urls) = false)
      as ->; [|done].
    clear Hc. induction (u :: urls) as [|w l IH]; [done|]. simpl.
    by rewrite matched_all_blank, IH.
Qed.

Lemma blank_patterns_block_nothing_witness :
  ∃ s', @_filterAttachments RefUrl
          (IsArray [Some (gif_attachment (Some "m1"))])
          (set_patterns [VStr ""; VStr "  "] tco_state)
        = (Ok (IsArray [Some (gif_attachment (Some "m1"))]), s')
        ∧ blockedMessageIds s'
          = blockedMessageIds (set_patterns [VStr ""; VStr "  "] tco_state).
Proof.
  apply (proj1 (proj2 (@blank_patterns_block_nothing RefUrl
                         (set_patterns [VStr ""; VStr "  "] tco_state)
                         eq_refl))).
Defined.

(** X18: what the plugin decides depends on the patterns and on the set of
    revealed messages only: two states that agree on them give the same
    answers of [_shouldBlockUrl], [_shouldBlockEmbed], [_filterAttachments]
    and [renderMessagePopoverButton], whatever is marked as blocked or
    logged; so a second render decides as the first. *)
Theorem decisions_depend_on_settings_only `{api : UrlApi} s s' :
  settings_same s s' →
  (∀ u, (_shouldBlockUrl u s').1 = (_shouldBlockUrl u s).1)
  ∧ (∀ e m, (_shouldBlockEmbed e m s').1 = (_shouldBlockEmbed e m s).1)
  ∧ (∀ arr, (_filterAttachments arr s').1 = (_filterAttachments arr s).1)
  ∧ (∀ m, (renderMessagePopoverButton m s').1
          = (renderMessagePopoverButton m s).1).
Proof.
  intros Hs. pose proof Hs as [Hu Hp]. split; [|split; [|split]].
  - intros u.
    destruct (shouldBlockUrl_run u s) as (s1 & -> & _).
    destruct (shouldBlockUrl_run u s') as (s2 & -> & _).
    simpl. by rewrite Hp.
  - intros e m.
    destruct (shouldBlockEmbed_run e m s) as (s1 & -> & _).
    destruct (shouldBlockEmbed_run e m s') as (s2 & -> & _).
    simpl. by rewrite (embed_blocked_same s s').
  - intros [v|l]; [done|]. rewrite !filterAttachments_result.
    rewrite (existsb_same (faults s') (faults s))
      by (intros a; by apply faults_same).
    rewrite (List.filter_ext (λ att, negb (drops s' att))
               (λ att, negb (drops s att)))
      by (intros a; by rewrite (drops_same s s')).
    done.
  - intros m. unfold renderMessagePopoverButton.
    destruct (_collectGifUrlsFromMessage m) as [|u urls]; [done|].
    destruct m as [msg|]; [|done].
    unfold bind, gets, lift. rewrite Hu, Hp.
    destruct (array_some _ _) as [b|err]; [|done].
    destruct (b && negb _); [done|]. by destruct (b && _).
Qed.

Lemma decisions_depend_on_settings_only_witness :
  (@_shouldBlockEmbed RefUrl (Some tco_embed) (Some m1)
     (@_shouldBlockEmbed RefUrl (Some tco_embed) (Some m1) tco_state).2).1
  = (@_shouldBlockEmbed RefUrl (Some tco_embed) (Some m1) tco_state).1.
Proof.
  apply (@decisions_depend_on_settings_only RefUrl tco_state
           (@_shouldBlockEmbed RefUrl (Some tco_embed) (Some m1)
              tco_state).2).
  split; reflexivity.
Defined.

(** X19: [_shouldBlockEmbed] never throws; it answers [true] exactly when
    the message is not revealed, the embed is a [gifv] embed or its
    resolved URL is one [isGifUrl] accepts, that URL is truthy, and
    [equalsAnyUrl] returns [true] for it; it marks the message exactly when
    it answers [true], and changes neither the patterns nor the revealed
    set. *)
Theorem shouldBlockEmbed_decides `{api : UrlApi} e m s :
  ∃ s', _shouldBlockEmbed e m s = (Ok (embed_blocked s e m), s')
        ∧ blockedMessageIds s'
          = blockedMessageIds s
            ∪ (if embed_blocked s e m then marked (opt_id message_id m)
               else ∅)
        ∧ settings_same s s'.
Proof. apply shouldBlockEmbed_run. Qed.

(** X20: [_shouldBlockUrl] never throws; it answers [true] exactly for a
    truthy URL that [isGifUrl] accepts and [equalsAnyUrl] finds among the
    patterns; when [equalsAnyUrl] throws, a pattern not being a string, it
    answers [false] and logs, and it touches nothing but the log. *)
Theorem shouldBlockUrl_decides `{api : UrlApi} u s :
  _shouldBlockUrl u s
  = (Ok (truthy u && isGifUrl u && matched u (patterns s)),
     if truthy u && isGifUrl u && negb (forallb is_string (patterns s))
     then (logger_error "Error in _shouldBlockUrl" s).2
     else s).
Proof.
  unfold _shouldBlockUrl, matched.
  destruct (truthy u); simpl; [|done].
  destruct (isGifUrl u); simpl; [|done].
  unfold try_catch, bind, gets, lift. simpl.
  destruct (forallb is_string (patterns s)) eqn:Hs.
  - by rewrite equalsAnyUrl_strings.
  - by rewrite equalsAnyUrl_throws.
Qed.

(* ===================================================================== *)
(** ** Matching as a relation, and the patterns over a session *)
(* ===================================================================== *)

Section Relation.
Context {api : UrlApi}.

Lemma matches_trimmed_eq u c :
  trim c = c → c ≠ "" →
  matches u c = bool_decide (normalize (VStr c) = normalize (VStr u)).
Proof.
  intros Ht Hne. unfold matches. rewrite Ht.
  by rewrite bool_decide_eq_false_2 by done.
Qed.

Lemma equalsAnyUrl_one u c :
  equalsAnyUrl (VStr u) [VStr c] = Ok (matches u c).
Proof.
  change [VStr c] with (VStr <$> [c]).
  rewrite equalsAnyUrl_strs. simpl. by rewrite orb_false_r.
Qed.

Lemma forallb_is_string_insert i (c : string) l :
  forallb is_string l = true →
  forallb is_string (<[i := VStr c]> l) = true.
Proof.
  revert i. induction l as [|v l IH]; intros i; [done|]. simpl.
  intros [Hv Hl]%andb_prop. destruct i as [|i]; simpl.
  - done.
  - by rewrite Hv, IH.
Qed.

Lemma forallb_is_string_delete i l :
  forallb is_string l = true → forallb is_string (delete i l) = true.
Proof.
  revert i. induction l as [|v l IH]; intros i; [done|]. simpl.
  intros [Hv Hl]%andb_prop. destruct i as [|i]; simpl.
  - done.
  - by rewrite Hv, IH.
Qed.

Lemma step_strings s o s' :
  step s o s' →
  forallb is_string (patterns s) = true →
  forallb is_string (patterns s') = true.
Proof.
  destruct 1 as [e m s|arr s|id s|id s|urls s|i val s Hi|s|i s]; intros Hp.
  - destruct (shouldBlockEmbed_run e m s) as (s1 & -> & _ & _ & Hs).
    simpl. by rewrite Hs.
  - destruct arr as [v|l]; [done|].
    destruct (filterAttachments_cases l s)
      as [(_ & s1 & -> & _ & _ & Hs)
         |(l1 & a & l2 & s1 & -> & _ & _ & -> & _ & _ & Hs)];
      simpl; by rewrite Hs.
  - done.
  - done.
  - destruct (addUrls_run urls s Hp) as (added & -> & _). simpl.
    rewrite forallb_app, Hp. apply forallb_is_string_fmap.
  - simpl. by apply forallb_is_string_insert.
  - simpl. by rewrite forallb_app, Hp.
  - simpl. by apply forallb_is_string_delete.
Qed.

Lemma steps_strings s ops s' :
  steps s ops s' →
  forallb is_string (patterns s) = true →
  forallb is_string (patterns s') = true.
Proof.
  induction 1 as [s|s o s1 os s2 Hstep _ IH]; [done|].
  intros Hp. apply IH. by apply (step_strings s o).
Qed.

End Relation.

(** X21: on URLs without whitespace around them, and not empty, matching
    by [equalsAnyUrl] is symmetric and transitive. *)
Theorem equalsAnyUrl_symmetric_transitive `{api : UrlApi} (a b c : string) :
  trim a = a → a ≠ "" → trim b = b → b ≠ "" → trim c = c → c ≠ "" →
  (equalsAnyUrl (VStr a) [VStr b] = Ok true →
   equalsAnyUrl (VStr b) [VStr a] = Ok true)
  ∧ (equalsAnyUrl (VStr a) [VStr b] = Ok true →
     equalsAnyUrl (VStr b) [VStr c] = Ok true →
     equalsAnyUrl (VStr a) [VStr c] = Ok true).
Proof.
  intros Ha Ha' Hb Hb' Hc Hc'. rewrite !equalsAnyUrl_one.
  rewrite !matches_trimmed_eq by done. split.
  - intros [= Hab%bool_decide_eq_true]. f_equal.
    by apply bool_decide_eq_true.
  - intros [= Hab%bool_decide_eq_true] [= Hbc%bool_decide_eq_true]. f_equal.
    apply bool_decide_eq_true. congruence.
Qed.

Lemma equalsAnyUrl_symmetric_transitive_witness :
  @equalsAnyUrl RefUrl (VStr "https://x.com/a.gif/")
    [VStr "https://x.com/a.gif"] = Ok true
  ∧ @equalsAnyUrl RefUrl (VStr "https://x.com/a.gif/")
      [VStr "https://X.com/a.gif#t"] = Ok true.
Proof.
  destruct (@equalsAnyUrl_symmetric_transitive RefUrl
              "https://x.com/a.gif" "https://x.com/a.gif/"
              "https://X.com/a.gif#t") as [Hsym Htrans];
    [reflexivity|discriminate|reflexivity|discriminate|reflexivity
    |discriminate|].
  split.
  - apply Hsym. vm_compute. reflexivity.
  - destruct (@equalsAnyUrl_symmetric_transitive RefUrl
                "https://x.com/a.gif/" "https://x.com/a.gif"
                "https://X.com/a.gif#t") as [_ Htrans'];
      [reflexivity|discriminate|reflexivity|discriminate|reflexivity
      |discriminate|].
    apply Htrans'; vm_compute; reflexivity.
Defined.

(** X22: the patterns stay strings: if they are, then after any sequence of
    renders, popover actions and edits of the settings panel they still
    are, so [equalsAnyUrl] does not throw on them, [_shouldBlockUrl] logs
    nothing and [renderMessagePopoverButton] returns. *)
Theorem patterns_stay_strings `{api : UrlApi} s ops s' :
  steps s ops s' →
  forallb is_string (patterns s) = true →
  forallb is_string (patterns s') = true
  ∧ (∀ u, ∃ b, equalsAnyUrl u (patterns s') = Ok b)
  ∧ (∀ u, (_shouldBlockUrl u s').2 = s')
  ∧ (∀ m, ∃ b, renderMessagePopoverButton m s' = (Ok b, s')).
Proof.
  intros Hsteps Hp%(steps_strings _ _ _ Hsteps).
  split; [done|]. split; [|split].
  - intros u. rewrite equalsAnyUrl_strings by done. eauto.
  - intros u. destruct (shouldBlockUrl_run u s') as (s1 & -> & _ & _ & Heq).
    simpl. by apply Heq.
  - intros m. destruct (_collectGifUrlsFromMessage m) as [|u urls] eqn:Hc.
    + rewrite popover_null by done. eauto.
    + destruct m as [msg|]; [|done].
      rewrite popover_strings by (done || by rewrite Hc). eauto.
Qed.

Lemma patterns_stay_strings_witness :
  forallb is_string
    (patterns
       (@_addUrlsToBlocklistAndRefresh RefUrl ["https://x.com/a.gif"]
          (set_patterns (patterns tco_state ++ [VStr ""]) tco_state)).2)
  = true.
Proof.
  apply (@patterns_stay_strings RefUrl tco_state
           [EditAdd; BlockThese ["https://x.com/a.gif"]]).
  - eapply steps_cons; [apply step_add|].
    eapply steps_cons; [apply step_block|]. apply steps_nil.
  - reflexivity.
Defined.

(* ===================================================================== *)
(** ** Faults are caught and resolved fail-open (C6) *)
(* ===================================================================== *)

Section FailOpen.
Context {api : UrlApi}.

Lemma snoc_neq {A} (l : list A) x : l ++ [x] ≠ l.
Proof.
  intros H. apply (f_equal length) in H. rewrite length_app in H.
  simpl in H. lia.
Qed.

Lemma markBlocked_logged i s : logged (_markBlocked i s).2 = logged s.
Proof.
  unfold _markBlocked. destruct i as [x|]; [|done].
  by destruct (id_truthy (Some x)).
Qed.

(** The fault inside [_shouldBlockUrl]: caught there, logged, and answered
    with [false]. *)
Lemma shouldBlockUrl_fault u s :
  truthy u = true → isGifUrl u = true →
  forallb is_string (patterns s) = false →
  _shouldBlockUrl u s
  = (Ok false, (logger_error "Error in _shouldBlockUrl" s).2).
Proof.
  intros Ht Hg Hp. unfold _shouldBlockUrl. rewrite Ht, Hg. simpl.
  unfold try_catch, bind, gets, lift. simpl.
  by rewrite equalsAnyUrl_throws.
Qed.

Lemma shouldBlockUrl_quiet u s :
  forallb is_string (patterns s) = true →
  _shouldBlockUrl u s
  = (Ok (truthy u && isGifUrl u && matched u (patterns s)), s).
Proof.
  intros Hp. destruct (shouldBlockUrl_run u s) as (s' & -> & _ & _ & Heq).
  by rewrite (Heq Hp).
Qed.

Lemma embed_faults_not_blocked s e m :
  embed_faults s e m = true → embed_blocked s e m = false.
Proof.
  unfold embed_faults, embed_blocked.
  intros [_ Hp%negb_true_iff]%andb_prop.
  by rewrite matched_throws, andb_false_r.
Qed.

(** What [_shouldBlockEmbed] logs: one line when [equalsAnyUrl] throws,
    from the [catch] that caught it, and nothing otherwise. *)
Lemma shouldBlockEmbed_logged e m s :
  logged (_shouldBlockEmbed e m s).2
  = if embed_faults s e m
    then logged s
         ++ [if strict_eq_str (opt_field embed_type e) "gifv"
             then "Error in _shouldBlockEmbed"
             else "Error in _shouldBlockUrl"]
    else logged s.
Proof.
  unfold _shouldBlockEmbed, try_catch, shouldBlockEmbed_try, embed_faults,
    embed_resolved_url.
  unfold bind at 1, gets at 1.
  destruct (set_has _ _); simpl; [done|].
  set (u := or_else _ _).
  destruct (strict_eq_str (opt_field embed_type e) "gifv") eqn:Hg; simpl.
  - destruct (truthy u) eqn:Ht; simpl; [|done].
    unfold bind at 1. unfold bind at 1, gets at 1, lift.
    destruct (forallb is_string (patterns s)) eqn:Hp; simpl.
    + rewrite equalsAnyUrl_strings by done.
      destruct (existsb _ (patterns s)); simpl; [|done].
      unfold bind at 1.
      pose proof (markBlocked_logged (opt_id message_id m) s) as Hl.
      destruct (markBlocked_run (opt_id message_id m) s) as (s1 & Hm & _).
      rewrite Hm in Hl |- *. done.
    + by rewrite equalsAnyUrl_throws.
  - destruct (isGifUrl u) eqn:Hu; simpl; [|done].
    rewrite (isGifUrl_truthy u Hu). simpl. unfold bind at 1.
    destruct (forallb is_string (patterns s)) eqn:Hp; simpl.
    + rewrite shouldBlockUrl_quiet by done.
      destruct (truthy u && isGifUrl u && matched u (patterns s)); simpl;
        [|done].
      unfold bind at 1.
      pose proof (markBlocked_logged (opt_id message_id m) s) as Hl.
      destruct (markBlocked_run (opt_id message_id m) s) as (s1 & Hm & _).
      rewrite Hm in Hl |- *. done.
    + rewrite shouldBlockUrl_fault by (done || by apply isGifUrl_truthy).
      done.
Qed.

Lemma keep_attachment_quiet att s :
  forallb is_string (patterns s) = true → faults s att = false →
  logged (keep_attachment att s).2 = logged s.
Proof.
  unfold faults, bypassed, keep_attachment. intros Hp.
  unfold bind at 1, gets at 1.
  destruct (id_truthy _ && set_has _ _); simpl; [done|].
  set (u := or_else _ _).
  intros Ht. unfold bind at 1, lift at 1.
  assert (∃ lo, opt_call_toLowerCase (opt_field att_content_type att)
                = Ok lo) as [lo ->].
  { destruct (opt_field att_content_type att); try done; simpl; eauto. }
  destruct (strict_eq_str lo "image/gif" || isGifUrl u); simpl; [|done].
  unfold bind at 1. rewrite shouldBlockUrl_quiet by done.
  destruct (truthy u && isGifUrl u && matched u (patterns s)); simpl;
    [|done].
  unfold bind at 1.
  pose proof (markBlocked_logged (opt_id att_message_id att) s) as Hl.
  destruct (markBlocked_run (opt_id att_message_id att) s) as (s1 & Hm & _).
  rewrite Hm in Hl |- *. done.
Qed.

Lemma filterM_keep_quiet l : ∀ s,
  forallb is_string (patterns s) = true →
  existsb (faults s) l = false →
  logged (filterM keep_attachment l s).2 = logged s.
Proof.
  induction l as [|att l IH]; intros s Hp Hf; [done|].
  simpl in Hf. apply orb_false_elim in Hf as [Hf1 Hf2].
  pose proof (keep_attachment_quiet att s Hp Hf1) as Hq.
  destruct (keep_attachment_run att s Hf1) as (s1 & Hk & _ & Hs1).
  rewrite Hk in Hq. simpl in Hq.
  assert (logged (filterM keep_attachment l s1).2 = logged s1) as Hrest.
  { apply IH.
    - destruct Hs1 as [_ Hpat]. by rewrite Hpat.
    - rewrite <- Hf2. apply existsb_same. intros a. by apply faults_same. }
  cbn [filterM]. unfold bind at 1. rewrite Hk. unfold bind at 1.
  destruct (filterM keep_attachment l s1) as [[out|err] s2]; simpl in *;
    congruence.
Qed.

Lemma drops_throws s att :
  forallb is_string (patterns s) = false → drops s att = false.
Proof.
  intros Hp. unfold drops. by rewrite matched_throws, andb_false_r.
Qed.

Lemma shouldBlockEmbed_fail_open e m s :
  ∃ b s', _shouldBlockEmbed e m s = (Ok b, s')
    ∧ (logged s' ≠ logged s → b = false)
    ∧ (embed_faults s e m = true → b = false ∧ logged s' ≠ logged s)
    ∧ (embed_faults s e m = false → logged s' = logged s).
Proof.
  destruct (shouldBlockEmbed_run e m s) as (s' & Hr & _).
  pose proof (shouldBlockEmbed_logged e m s) as Hl. rewrite Hr in Hl.
  simpl in Hl. exists (embed_blocked s e m), s'. split; [done|].
  destruct (embed_faults s e m) eqn:Hf.
  - rewrite embed_faults_not_blocked by done. split; [done|].
    split; [|done]. intros _. split; [done|]. rewrite Hl. apply snoc_neq.
  - split; [by intros []|]. by split.
Qed.

Lemma filterAttachments_fail_open arr s :
  ∃ out s', _filterAttachments arr s = (Ok out, s')
    ∧ (logged s' ≠ logged s → out = arr).
Proof.
  destruct arr as [v|l]; [by exists (NotArray v), s|].
  destruct (filterAttachments_cases l s)
    as [(Hf & s' & Hr & _)|(l1 & att & l2 & s' & -> & _ & _ & Hr & _)].
  - eexists _, s'. split; [exact Hr|]. intros Hlog.
    destruct (forallb is_string (patterns s)) eqn:Hp.
    + destruct Hlog.
      pose proof (filterM_keep_quiet l s Hp Hf) as Hq.
      destruct (filterM_keep_run l s Hf) as (s1 & Hrun & _).
      unfold _filterAttachments, try_catch, filterAttachments_try in Hr.
      unfold bind at 1 in Hr. rewrite Hrun in Hq, Hr. simpl in Hq, Hr.
      by injection Hr as <-.
    + f_equal. apply filter_drops_none. intros a. by apply drops_throws.
  - by eexists _, s'.
Qed.

Lemma filterAttachments_quiet l s :
  forallb is_string (patterns s) = true →
  existsb (faults s) l = false →
  logged (_filterAttachments (IsArray l) s).2 = logged s.
Proof.
  intros Hp Hf. pose proof (filterM_keep_quiet l s Hp Hf) as Hq.
  destruct (filterM_keep_run l s Hf) as (s1 & Hrun & _).
  unfold _filterAttachments, try_catch, filterAttachments_try.
  unfold bind at 1. by rewrite Hrun in Hq |- *.
Qed.

Lemma filterAttachments_bad_patterns arr s :
  forallb is_string (patterns s) = false →
  (_filterAttachments arr s).1 = Ok arr.
Proof.
  intros Hp. destruct arr as [v|l]; [done|].
  rewrite filterAttachments_result.
  destruct (existsb (faults s) l); [done|].
  do 2 f_equal. apply filter_drops_none. intros a. by apply drops_throws.
Qed.

End FailOpen.

(** C6: [_shouldBlockEmbed] and [_filterAttachments] return on every input,
    no exception escaping them. Each [catch] logs and nothing else does, so
    the log has grown exactly when a fault was caught, in the method itself
    or in [_shouldBlockUrl]: then [_shouldBlockEmbed] has answered [false]
    and [_filterAttachments] has returned its argument. The helpers that
    throw are [equalsAnyUrl], when a pattern is not a string, and
    [toLowerCase], when a [content_type] is neither a string nor nullish:
    with such a pattern every embed is answered [false], the embed on which
    [equalsAnyUrl] is reached leaving a line in the log, and every argument
    of [_filterAttachments] is returned as it is; with such an attachment
    the array is returned as it is and the fault logged. Without either,
    nothing is logged. *)
Theorem faults_resolve_fail_open `{api : UrlApi} :
  (∀ e m s, ∃ b s',
     _shouldBlockEmbed e m s = (Ok b, s')
     ∧ (logged s' ≠ logged s → b = false)
     ∧ (embed_faults s e m = true → b = false ∧ logged s' ≠ logged s)
     ∧ (embed_faults s e m = false → logged s' = logged s))
  ∧ (∀ arr s, ∃ out s',
       _filterAttachments arr s = (Ok out, s')
       ∧ (logged s' ≠ logged s → out = arr))
  ∧ (∀ e m s,
       forallb is_string (patterns s) = false →
       (_shouldBlockEmbed e m s).1 = Ok false)
  ∧ (∀ arr s,
       forallb is_string (patterns s) = false →
       (_filterAttachments arr s).1 = Ok arr)
  ∧ (∀ l s,
       existsb (faults s) l = true →
       (_filterAttachments (IsArray l) s).1 = Ok (IsArray l)
       ∧ last (logged (_filterAttachments (IsArray l) s).2)
         = Some "Error in _filterAttachments")
  ∧ (∀ l s,
       forallb is_string (patterns s) = true →
       existsb (faults s) l = false →
       logged (_filterAttachments (IsArray l) s).2 = logged s).
Proof.
  split; [exact shouldBlockEmbed_fail_open|].
  split; [exact filterAttachments_fail_open|].
  split; [|split; [exact filterAttachments_bad_patterns|]].
  2: split; [|exact filterAttachments_quiet].
  - intros e m s Hp.
    destruct (shouldBlockEmbed_run e m s) as (s' & -> & _). simpl.
    unfold embed_blocked. by rewrite matched_throws, andb_false_r.
  - intros l s Hf.
    destruct (existsb_first _ _ Hf) as (l1 & att & l2 & -> & H1 & H2).
    destruct (filterAttachments_run_fault l1 att l2 s H1 H2)
      as (s' & -> & _ & _ & Hlast).
    by split.
Qed.

Lemma faults_resolve_fail_open_witness :
  (@_shouldBlockEmbed RefUrl (Some image_embed) (Some m1)
     null_pattern_state).1
  = Ok false
  ∧ (@_shouldBlockEmbed RefUrl (Some tco_embed) (Some m1)
       null_pattern_state).1
    = Ok false
  ∧ (@_filterAttachments RefUrl
       (IsArray [Some (gif_attachment (Some "m1"))]) null_pattern_state).1
    = Ok (IsArray [Some (gif_attachment (Some "m1"))])
  ∧ (@_filterAttachments RefUrl
       (IsArray [Some (gif_attachment (Some "m1")); Some odd_attachment])
       (xcom_state ∅)).1
    = Ok (IsArray [Some (gif_attachment (Some "m1")); Some odd_attachment]).
Proof.
  destruct (@faults_resolve_fail_open RefUrl)
    as (_ & _ & Hembed & Hpatterns & Hatt & _).
  split; [by apply Hembed|]. split; [by apply Hembed|].
  split; [by apply Hpatterns|].
  apply Hatt. vm_compute. reflexivity.
Defined.
